(** * ljd: the AST model ([ljd/ast/nodes.py]) and the driver ([ljd/tools.py])

    A shallow embedding of the Python sources.  Python objects live in a
    heap keyed by their [id()]; a node is its class together with its
    instance attributes.  Methods that may raise return a [result]. *)

From stdpp Require Import gmap strings list fin_maps fin_sets.
From Stdlib Require Import ZArith Lia.

Local Open Scope string_scope.
Local Open Scope list_scope.
Local Open Scope Z_scope.
Set Warnings "-register-all,-clear-no-such-hyp".

(** ** Python values *)

(** The exceptions the modelled code can raise. *)
Inductive exn :=
  | ValueError | AssertionError | TypeError | AttributeError | KeyError
  | IndexError.

Inductive result (A : Type) :=
  | Ok (a : A)
  | Raise (e : exn).
Arguments Ok {A} a.
Arguments Raise {A} e.

(** Immutable scalars held in node fields.  Floats and cdata constants
    are left out; the code modelled below treats every scalar alike. *)
Inductive atom :=
  | ANone
  | ABool (b : bool)
  | AInt (z : Z)
  | AStr (s : string).

(** A field holds a scalar, a list or a reference to a node (its [id]).
    Lists are kept by value: [to_dict] and [load_dict] rebuild every list
    they meet, and nothing modelled here looks at the identity of a
    list. *)
Inductive value :=
  | VAtom (a : atom)
  | VList (l : list value)
  | VObj (id : Z).

Global Instance atom_eq_dec : EqDecision atom.
Proof. solve_decision. Defined.

(** ** Classes of [nodes.py] *)

Inductive class :=
  | AstNode
  | FunctionDefinition | Block | TableConstructor | ArrayRecord | TableRecord
  | Assignment | BinaryOperator | UnaryOperator
  | StatementsList | IdentifiersList | RecordsList | VariablesList
  | ExpressionsList
  | Identifier | MULTRES | GetItem | Vararg | FunctionCall | If | ElseIf
  | UnconditionalWarp | ConditionalWarp | IteratorWarp | NumericLoopWarp
  | EndWarp
  | Return | Break | While | RepeatUntil | NumericFor | IteratorFor
  | Constant | Primitive | NoOp.

Global Instance class_eq_dec : EqDecision class.
Proof. solve_decision. Defined.

(** [cls.__name__] *)
Definition class_name (c : class) : string :=
  match c with
  | AstNode => "AstNode"
  | FunctionDefinition => "FunctionDefinition" | Block => "Block"
  | TableConstructor => "TableConstructor" | ArrayRecord => "ArrayRecord"
  | TableRecord => "TableRecord" | Assignment => "Assignment"
  | BinaryOperator => "BinaryOperator" | UnaryOperator => "UnaryOperator"
  | StatementsList => "StatementsList" | IdentifiersList => "IdentifiersList"
  | RecordsList => "RecordsList" | VariablesList => "VariablesList"
  | ExpressionsList => "ExpressionsList" | Identifier => "Identifier"
  | MULTRES => "MULTRES" | GetItem => "GetItem" | Vararg => "Vararg"
  | FunctionCall => "FunctionCall" | If => "If" | ElseIf => "ElseIf"
  | UnconditionalWarp => "UnconditionalWarp"
  | ConditionalWarp => "ConditionalWarp" | IteratorWarp => "IteratorWarp"
  | NumericLoopWarp => "NumericLoopWarp" | EndWarp => "EndWarp"
  | Return => "Return" | Break => "Break" | While => "While"
  | RepeatUntil => "RepeatUntil" | NumericFor => "NumericFor"
  | IteratorFor => "IteratorFor" | Constant => "Constant"
  | Primitive => "Primitive" | NoOp => "NoOp"
  end.

(** [cls.__subclasses__()], in definition order. *)
Definition subclasses (c : class) : list class :=
  match c with
  | AstNode =>
      [FunctionDefinition; Block; TableConstructor; ArrayRecord; TableRecord;
       Assignment; BinaryOperator; UnaryOperator; StatementsList; Identifier;
       MULTRES; GetItem; Vararg; FunctionCall; If; ElseIf; UnconditionalWarp;
       ConditionalWarp; IteratorWarp; NumericLoopWarp; EndWarp; Return; Break;
       While; RepeatUntil; NumericFor; IteratorFor; Constant; Primitive; NoOp]
  | StatementsList =>
      [IdentifiersList; RecordsList; VariablesList; ExpressionsList]
  | _ => []
  end.

(** [cls._slots]; classes without their own [_slots] inherit it. *)
Definition slots (c : class) : list string :=
  match c with
  | AstNode => []
  | FunctionDefinition => ["arguments"; "statements"]
  | Block =>
      ["index"; "first_address"; "last_address"; "contents"; "warp"; "loop"]
  | TableConstructor => ["array"; "records"]
  | ArrayRecord => ["value"]
  | TableRecord => ["key"; "value"]
  | Assignment => ["destinations"; "expressions"]
  | BinaryOperator => ["left"; "type"; "right"]
  | UnaryOperator => ["type"; "operand"]
  | StatementsList | IdentifiersList | RecordsList | VariablesList
  | ExpressionsList => ["contents"]
  | Identifier => ["name"; "type"; "slot"; "id"]
  | MULTRES => []
  | GetItem => ["table"; "key"]
  | Vararg => []
  | FunctionCall => ["function"; "arguments"; "is_method"]
  | If => ["expression"; "then_block"; "elseifs"; "else_block"]
  | ElseIf => ["expression"; "then_block"]
  | UnconditionalWarp => ["type"; "target"; "is_uclo"]
  | ConditionalWarp => ["condition"; "true_target"; "false_target"]
  | IteratorWarp => ["variables"; "controls"; "body"; "way_out"]
  | NumericLoopWarp => ["index"; "controls"; "body"; "way_out"]
  | EndWarp => []
  | Return => ["returns"]
  | Break => []
  | While => ["expression"; "statements"]
  | RepeatUntil => ["expression"; "statements"]
  | NumericFor => ["variable"; "expression"; "statements"]
  | IteratorFor => ["expressions"; "expression"; "statements"]
  | Constant => ["type"; "value"]
  | Primitive => ["type"]
  | NoOp => []
  end.

(** ** Objects and the heap *)

Record object := Object {
  cls : class;                 (* obj.__class__ *)
  attrs : gmap string value;   (* obj.__dict__ *)
}.

Abbreviation heap := (gmap Z object).

(** [getattr(obj, name, None)] *)
Definition getattr (o : object) (name : string) : value :=
  default (VAtom ANone) (attrs o !! name).

(** [setattr(obj, name, v)] on the object stored at [x]. *)
Definition setattr (x : Z) (name : string) (v : value) (h : heap) : heap :=
  match h !! x with
  | Some o => <[x := Object (cls o) (<[name := v]> (attrs o))]> h
  | None => h
  end.

(** [self.name] as an operand of [<=] against an integer: a missing
    attribute is an [AttributeError]; [True] and [False] count as 1 and 0;
    [None], strings, lists and nodes do not compare with integers, which
    is a [TypeError]. *)
Definition int_attr (self : object) (name : string) : result Z :=
  match attrs self !! name with
  | Some (VAtom (AInt z)) => Ok z
  | Some (VAtom (ABool b)) => Ok (if b then 1 else 0)
  | Some _ => Raise TypeError
  | None => Raise AttributeError
  end.

(** [v == n] for an integer [n]: never raises. *)
Definition eq_int (v : value) (n : Z) : bool :=
  match v with
  | VAtom (AInt z) => z =? n
  | VAtom (ABool b) => (if b then 1 else 0) =? n
  | _ => false
  end.

(** ** Operators *)

Definition T_LOGICAL_OR : Z := 0.
Definition T_LOGICAL_AND : Z := 10.
Definition T_LESS_THEN : Z := 20.
Definition T_GREATER_THEN : Z := 21.
Definition T_LESS_OR_EQUAL : Z := 22.
Definition T_GREATER_OR_EQUAL : Z := 23.
Definition T_NOT_EQUAL : Z := 24.
Definition T_EQUAL : Z := 25.
Definition T_CONCAT : Z := 30.
Definition T_ADD : Z := 40.
Definition T_SUBTRACT : Z := 41.
Definition T_MULTIPLY : Z := 50.
Definition T_DIVISION : Z := 51.
Definition T_MOD : Z := 52.
Definition T_POW : Z := 70.

Definition T_NOT : Z := 60.
Definition T_LENGTH_OPERATOR : Z := 61.
Definition T_MINUS : Z := 62.
Definition T_TOSTRING : Z := 63.
Definition T_TONUMBER : Z := 64.

Definition PR_OR : Z := 1.
Definition PR_AND : Z := 2.
Definition PR_COMPARISON : Z := 3.
Definition PR_CONCATENATE : Z := 4.
Definition PR_MATH_ADDSUB : Z := 5.
Definition PR_MATH : Z := 6.
Definition PR_UNARY : Z := 7.
Definition PR_EXPONENT : Z := 8.

(** The keys of [BinaryOperator.name_map]: the fifteen operator codes. *)
Definition name_map : list (Z * string) :=
  [(0, "or"); (10, "and"); (20, "lt"); (21, "gt"); (22, "le"); (23, "ge");
   (24, "ne"); (25, "eq"); (30, "concat"); (40, "add"); (41, "subtract");
   (50, "multiply"); (51, "divide"); (52, "mod"); (70, "pow")].

(** [BinaryOperator.precedence] *)
Definition BinaryOperator_precedence (self : object) : result Z :=
  match int_attr self "type" with
  | Raise e => Raise e
  | Ok type =>
      if type <=? T_LOGICAL_OR then Ok PR_OR
      else if type <=? T_LOGICAL_AND then Ok PR_AND
      else if type <=? T_EQUAL then Ok PR_COMPARISON
      else if type <=? T_CONCAT then Ok PR_CONCATENATE
      else if type <=? T_SUBTRACT then Ok PR_MATH_ADDSUB
      else if type <=? T_MOD then Ok PR_MATH
      else if type <=? T_POW then Ok PR_EXPONENT
      else Raise ValueError
  end.

(** [UnaryOperator.precedence] *)
Definition UnaryOperator_precedence (self : object) : result Z :=
  Ok PR_UNARY.

(** [BinaryOperator.is_right_associative] *)
Definition is_right_associative (self : object) : result bool :=
  match attrs self !! "type" with
  | None => Raise AttributeError
  | Some type =>
      if eq_int type T_CONCAT then Ok false
      else if eq_int type T_POW then Ok true
      else Ok false
  end.

(** [BinaryOperator.is_commutative] *)
Definition is_commutative (self : object) : result bool :=
  match int_attr self "type" with
  | Raise e => Raise e
  | Ok type =>
      if type <=? T_LOGICAL_AND then Ok true
      else if type <=? T_GREATER_OR_EQUAL then Ok false
      else if type <=? T_EQUAL then Ok true
      else if type <=? T_CONCAT then Ok false
      else if type <=? T_ADD then Ok true
      else if type <=? T_SUBTRACT then Ok false
      else if type <=? T_MULTIPLY then Ok true
      else if type <=? T_MOD then Ok false
      else if type <=? T_POW then Ok false
      else Raise AssertionError
  end.

(** ** String forms *)

(** [l[i]]: indexing a list.  An integer (or [True], [False]) below 0
    counts from the end; out of range is an [IndexError]; an index that is
    no integer is a [TypeError]. *)
Definition list_getitem {A : Type} (l : list A) (i : value) : result A :=
  let getitem (z : Z) :=
    let n := Z.of_nat (length l) in
    let j := if z <? 0 then z + n else z in
    if (j <? 0) || (n <=? j) then Raise IndexError
    else match l !! Z.to_nat j with
         | Some a => Ok a
         | None => Raise IndexError
         end in
  match i with
  | VAtom (AInt z) => getitem z
  | VAtom (ABool b) => getitem (if b then 1 else 0)
  | _ => Raise TypeError
  end.

(** [Primitive.__str__] *)
Definition Primitive___str__ (self : object) : result string :=
  match attrs self !! "type" with
  | None => Raise AttributeError
  | Some type => list_getitem ["nil"; "True"; "False"] type
  end.

(** ** Constructors *)

(** The right-hand sides occurring in the [__init__] methods. *)
Inductive init :=
  | InitAtom (a : atom)   (* a literal *)
  | InitList              (* [[]] *)
  | InitNew (c : class).  (* [c()] *)

(** The assignments [self.name = ...] of [c.__init__], in source order.
    Classes without [__init__] assign nothing. *)
Definition init_fields (c : class) : list (string * init) :=
  match c with
  | FunctionDefinition =>
      [("arguments", InitNew IdentifiersList);
       ("statements", InitNew StatementsList);
       ("_upvalues", InitAtom ANone); ("_debuginfo", InitAtom ANone);
       ("_instructions_count", InitAtom (AInt 0)); ("error", InitAtom ANone)]
  | Block =>
      [("index", InitAtom (AInt (-1))); ("warp", InitAtom ANone);
       ("contents", InitList); ("first_address", InitAtom (AInt 0));
       ("last_address", InitAtom (AInt 0));
       ("warpins_count", InitAtom (AInt 0));
       ("loop", InitAtom (ABool false))]
  | TableConstructor =>
      [("array", InitNew RecordsList); ("records", InitNew RecordsList)]
  | ArrayRecord => [("value", InitAtom ANone)]
  | TableRecord => [("key", InitAtom ANone); ("value", InitAtom ANone)]
  | Assignment =>
      [("expressions", InitNew ExpressionsList);
       ("destinations", InitNew VariablesList);
       ("type", InitAtom (AInt (-1)))]
  | BinaryOperator =>
      [("type", InitAtom (AInt (-1))); ("left", InitAtom ANone);
       ("right", InitAtom ANone)]
  | UnaryOperator =>
      [("type", InitAtom (AInt (-1))); ("operand", InitAtom ANone)]
  | StatementsList | IdentifiersList | RecordsList | VariablesList
  | ExpressionsList => [("contents", InitList)]
  | Identifier =>
      [("name", InitAtom ANone); ("type", InitAtom (AInt (-1)));
       ("slot", InitAtom (AInt (-1))); ("id", InitAtom (AInt (-1)));
       ("_varinfo", InitAtom ANone)]
  | GetItem => [("table", InitAtom ANone); ("key", InitAtom ANone)]
  | FunctionCall =>
      [("function", InitAtom ANone); ("arguments", InitNew ExpressionsList);
       ("is_method", InitAtom (ABool false))]
  | If =>
      [("expression", InitAtom ANone); ("then_block", InitNew StatementsList);
       ("elseifs", InitList); ("else_block", InitNew StatementsList)]
  | ElseIf =>
      [("expression", InitAtom ANone); ("then_block", InitNew StatementsList)]
  | UnconditionalWarp =>
      [("type", InitAtom (AInt (-1))); ("target", InitAtom ANone);
       ("is_uclo", InitAtom (ABool false))]
  | ConditionalWarp =>
      [("condition", InitAtom ANone); ("true_target", InitAtom ANone);
       ("false_target", InitAtom ANone)]
  | IteratorWarp =>
      [("variables", InitNew VariablesList);
       ("controls", InitNew ExpressionsList);
       ("body", InitAtom ANone); ("way_out", InitAtom ANone)]
  | NumericLoopWarp =>
      [("index", InitNew Identifier); ("controls", InitNew ExpressionsList);
       ("body", InitAtom ANone); ("way_out", InitAtom ANone)]
  | Return => [("returns", InitNew ExpressionsList)]
  | While | RepeatUntil =>
      [("expression", InitAtom ANone); ("statements", InitNew StatementsList)]
  | NumericFor =>
      [("variable", InitAtom ANone); ("expressions", InitNew ExpressionsList);
       ("statements", InitNew StatementsList)]
  | IteratorFor =>
      [("expressions", InitNew ExpressionsList);
       ("identifiers", InitNew VariablesList);
       ("statements", InitNew StatementsList)]
  | Constant => [("type", InitAtom (AInt (-1))); ("value", InitAtom ANone)]
  | Primitive => [("type", InitAtom (AInt (-1)))]
  | AstNode | MULTRES | Vararg | EndWarp | Break | NoOp => []
  end.

(** Allocation of an empty instance at an unused [id]. *)
Definition alloc (c : class) (h : heap) : Z * heap :=
  let x := fresh (dom h) in (x, <[x := Object c ∅]> h).

(** One assignment [self.name = rhs] of an [__init__] body; [rec] runs the
    constructor calls on its right-hand side. *)
Definition init_step (rec : class → heap → Z * heap) (self : Z) (h : heap)
    (f : string * init) : heap :=
  match f.2 with
  | InitAtom a => setattr self f.1 (VAtom a) h
  | InitList => setattr self f.1 (VList []) h
  | InitNew c' => let '(x, h) := rec c' h in setattr self f.1 (VObj x) h
  end.

(** [c()]: allocate, then run [__init__].  [depth] bounds the nesting of
    constructor calls inside [__init__] bodies. *)
Fixpoint new (depth : nat) (c : class) (h : heap) : Z * heap :=
  let '(self, h) := alloc c h in
  (self,
   foldl (init_step (match depth with O => alloc | S depth => new depth end)
                    self)
         h (init_fields c)).

(** No [__init__] of the module nests constructor calls deeper than
    [NumericLoopWarp() -> Identifier()]. *)
Definition construct (c : class) (h : heap) : Z * heap := new 2 c h.

(** ** Serialisation to and from the tagged dictionary form *)

(** What [to_dict] returns: scalars as they are, lists, and dicts.  A dict
    is kept as its items in insertion order. *)
Inductive data :=
  | DAtom (a : atom)
  | DList (l : list data)
  | DDict (items : list (string * data)).

(** [d[k] = v] *)
Fixpoint dict_set (k : string) (v : data) (d : list (string * data))
  : list (string * data) :=
  match d with
  | [] => [(k, v)]
  | (k', v') :: r =>
      if decide (k' = k) then (k', v) :: r else (k', v') :: dict_set k v r
  end.

(** [d[k]] *)
Fixpoint dict_get (k : string) (d : list (string * data)) : option data :=
  match d with
  | [] => None
  | (k', v) :: r => if decide (k' = k) then Some v else dict_get k r
  end.

(** [d.pop(k)]: the value and the remaining items. *)
Fixpoint dict_pop (k : string) (d : list (string * data))
  : option (data * list (string * data)) :=
  match d with
  | [] => None
  | (k', v) :: r =>
      if decide (k' = k) then Some (v, r)
      else '(w, r') ← dict_pop k r; Some (w, (k', v) :: r')
  end.

(** [[to_dict(item, visited) for item in obj]] *)
Definition to_dict_items (rec : value → gset Z → option (data * gset Z))
  : list value → gset Z → option (list data * gset Z) :=
  fix go l visited :=
    match l with
    | [] => Some ([], visited)
    | item :: l =>
        '(d, visited) ← rec item visited;
        '(ds, visited) ← go l visited;
        Some (d :: ds, visited)
    end.

(** [for name in obj._slots: d[name] = to_dict(getattr(obj, name, None),
    visited)] *)
Definition to_dict_slots (rec : value → gset Z → option (data * gset Z))
    (obj : object)
  : list string → list (string * data) → gset Z
    → option (list (string * data) * gset Z) :=
  fix go names d visited :=
    match names with
    | [] => Some (d, visited)
    | name :: names =>
        '(s, visited) ← rec (getattr obj name) visited;
        go names (dict_set name s d) visited
    end.

(** [to_dict(obj, visited)].  The set [visited] is shared by all
    recursive calls, so it is threaded through.  [fuel] bounds the depth
    of the recursion; a reference to an object that is not in the heap
    cannot occur in Python and gives [None].  [obj._slots] is read from
    the class: no constructor and no pass gives a node an instance
    attribute [_slots], and the model is for such nodes ([class_slots]
    below); [load_dict] on data with a key [_slots] can build others. *)
Fixpoint to_dict (fuel : nat) (h : heap) (obj : value) (visited : gset Z)
  : option (data * gset Z) :=
  match fuel with
  | O => None
  | S fuel =>
      match obj with
      | VList l =>
          '(ds, visited) ← to_dict_items (to_dict fuel h) l visited;
          Some (DList ds, visited)
      | VAtom a => Some (DAtom a, visited)
      | VObj objid =>
          o ← h !! objid;
          if decide (objid ∈ visited) then
            Some (DDict [("class", DAtom (AStr "Ref"));
                         ("_id", DAtom (AInt objid))], visited)
          else
            let visited := {[objid]} ∪ visited in
            let d := [("class", DAtom (AStr (class_name (cls o))));
                      ("_id", DAtom (AInt objid))] in
            '(d, visited) ←
              to_dict_slots (to_dict fuel h) o (slots (cls o)) d visited;
            Some (DDict d, visited)
      end
  end.

(** [subclass_name_mapping(cls)]; [depth] bounds the recursion over the
    class hierarchy. *)
Fixpoint subclass_name_mapping (depth : nat) (c : class)
  : gmap string class :=
  match depth with
  | O => ∅
  | S depth =>
      foldl (λ mapping subcls,
               subclass_name_mapping depth subcls
               ∪ <[class_name subcls := subcls]> mapping)
            ∅ (subclasses c)
  end.

(** [cls_map = subclass_name_mapping(AstNode)]: the hierarchy below
    [AstNode] is two levels deep. *)
Definition cls_map : gmap string class := subclass_name_mapping 3 AstNode.

(** The state [load_dict] works on: the shared [mapping] from serialised
    ids to the objects built for them, and the heap. *)
Definition lstate : Type := gmap Z Z * heap.

(** [[load_dict(item, mapping) for item in data]] *)
Definition load_items (rec : data → lstate → option (value * lstate))
  : list data → lstate → option (list value * lstate) :=
  fix go l st :=
    match l with
    | [] => Some ([], st)
    | item :: l =>
        '(v, st) ← rec item st;
        '(vs, st) ← go l st;
        Some (v :: vs, st)
    end.

(** [for key in data: setattr(res, key, load_dict(data[key], mapping))],
    literally: over the items of [data]. *)
Definition setattr_items (rec : data → lstate → option (value * lstate))
    (res : Z)
  : list (string * data) → lstate → option lstate :=
  fix go data st :=
    match data with
    | [] => Some st
    | (key, d) :: data =>
        '(v, (mapping, h)) ← rec d st;
        go data (mapping, setattr res key v h)
    end.

(** The same loop in the form [load_dict] below can recurse through: over
    the items of the dict as it was given, skipping ["class"] and ["_id"]
    instead of iterating over the copy they were popped from
    ([load_fields_as_popped] relates the two). *)
Definition load_fields (rec : data → lstate → option (value * lstate))
    (res : Z)
  : list (string * data) → lstate → option lstate :=
  fix go items st :=
    match items with
    | [] => Some st
    | (key, d) :: items =>
        if decide (key = "class" ∨ key = "_id") then go items st
        else
          '(v, (mapping, h)) ← rec d st;
          go items (mapping, setattr res key v h)
    end.

(** [load_dict(data, mapping)].  [mapping] is the default argument, one
    dict shared by all calls, so it is part of the state.  [None] stands
    for a raised exception (a missing ["class"] or ["_id"], an unknown
    class name, a [Ref] to an id that is not in [mapping]).  The model is
    for data with integer ids and keys that [setattr] stores ([plain]
    below): an ["_id"] that is not an integer, which [to_dict] never
    writes, gives [None] although Python accepts every hashable id, and a
    key such as [__class__], with which [setattr] raises, is stored like
    any other. *)
Fixpoint load_dict (data : data) (st : lstate) : option (value * lstate) :=
  match data with
  | DAtom a => Some (VAtom a, st)
  | DList l =>
      '(vs, st) ← load_items load_dict l st;
      Some (VList vs, st)
  | DDict items =>
      cls_name ← dict_get "class" items;
      obj_id ← dict_get "_id" items;
      match cls_name, obj_id with
      | DAtom (AStr cls_name), DAtom (AInt obj_id) =>
          if decide (cls_name = "Ref") then
            res ← st.1 !! obj_id;
            Some (VObj res, st)
          else
            subcls ← cls_map !! cls_name;
            let '(res, h) := construct subcls st.2 in
            let mapping := <[obj_id := res]> st.1 in
            st ← load_fields load_dict res items (mapping, h);
            Some (VObj res, st)
      | _, _ => None
      end
  end.

(** ** Visitors *)

(** A call made by the body of an [_accept] method between
    [visitor._visit_node] and [visitor._leave_node]. *)
Inductive vcall :=
  | Visit (field : string)       (* [visitor._visit(self.field)] *)
  | VisitList (field : string).  (* [visitor._visit_list(self.field)] *)

Inductive accept_method :=
  | NoAccept     (* the class defines no [_accept] *)
  | AcceptPass   (* the body is [pass] *)
  | Accept (visit_hook : string) (calls : list vcall) (leave_hook : string).

(** The [_accept] method of each class: the hook given to
    [visitor._visit_node], the calls on the fields in source order, the
    hook given to [visitor._leave_node].  [TableConstructor._accept] first
    runs [TableConstructor_guard], below. *)
Definition _accept (c : class) : accept_method :=
  match c with
  | AstNode => NoAccept
  | FunctionDefinition =>
      Accept "visit_function_definition"
        [Visit "arguments"; Visit "statements"] "leave_function_definition"
  | Block =>
      Accept "visit_block" [VisitList "contents"; Visit "warp"] "leave_block"
  | TableConstructor =>
      Accept "visit_table_constructor" [Visit "array"; Visit "records"]
        "leave_table_constructor"
  | ArrayRecord =>
      Accept "visit_array_record" [Visit "value"] "leave_array_record"
  | TableRecord =>
      Accept "visit_table_record" [Visit "key"; Visit "value"]
        "leave_table_record"
  | Assignment =>
      Accept "visit_assignment" [Visit "expressions"; Visit "destinations"]
        "leave_assignment"
  | BinaryOperator =>
      Accept "visit_binary_operator" [Visit "left"; Visit "right"]
        "leave_binary_operator"
  | UnaryOperator =>
      Accept "visit_unary_operator" [Visit "operand"] "leave_unary_operator"
  | StatementsList =>
      Accept "visit_statements_list" [VisitList "contents"]
        "leave_statements_list"
  | IdentifiersList =>
      Accept "visit_identifiers_list" [VisitList "contents"]
        "leave_identifiers_list"
  | RecordsList =>
      Accept "visit_records_list" [VisitList "contents"] "leave_records_list"
  | VariablesList =>
      Accept "visit_variables_list" [VisitList "contents"]
        "leave_variables_list"
  | ExpressionsList =>
      Accept "visit_expressions_list" [VisitList "contents"]
        "leave_expressions_list"
  | Identifier => Accept "visit_identifier" [] "leave_identifier"
  | MULTRES => Accept "visit_multres" [] "leave_multres"
  | GetItem =>
      Accept "visit_table_element" [Visit "key"; Visit "table"]
        "leave_table_element"
  | Vararg => Accept "visit_vararg" [] "leave_vararg"
  | FunctionCall =>
      Accept "visit_function_call" [Visit "arguments"; Visit "function"]
        "leave_function_call"
  | If =>
      Accept "visit_if"
        [Visit "expression"; Visit "then_block"; VisitList "elseifs";
         Visit "else_block"] "leave_if"
  | ElseIf =>
      Accept "visit_elseif" [Visit "expression"; Visit "then_block"]
        "leave_elseif"
  | UnconditionalWarp =>
      Accept "visit_unconditional_warp" [] "leave_unconditional_warp"
  | ConditionalWarp =>
      Accept "visit_conditional_warp" [Visit "condition"]
        "leave_conditional_warp"
  | IteratorWarp =>
      Accept "visit_iterator_warp" [Visit "variables"; Visit "controls"]
        "leave_iterator_warp"
  | NumericLoopWarp =>
      Accept "visit_numeric_loop_warp" [Visit "index"; Visit "controls"]
        "leave_numeric_loop_warp"
  | EndWarp => Accept "visit_end_warp" [] "leave_end_warp"
  | Return => Accept "visit_return" [Visit "returns"] "leave_return"
  | Break => Accept "visit_break" [] "leave_break"
  | While =>
      Accept "visit_while" [Visit "expression"; Visit "statements"]
        "leave_while"
  | RepeatUntil =>
      Accept "visit_repeat_until" [Visit "statements"; Visit "expression"]
        "leave_repeat_until"
  | NumericFor =>
      Accept "visit_numeric_for"
        [Visit "variable"; Visit "expressions"; Visit "statements"]
        "leave_numeric_for"
  | IteratorFor =>
      Accept "visit_iterator_for"
        [Visit "expressions"; Visit "identifiers"; Visit "statements"]
        "leave_iterator_for"
  | Constant => Accept "visit_constant" [] "leave_constant"
  | Primitive => Accept "visit_primitive" [] "leave_primitive"
  | NoOp => AcceptPass
  end.

(** The class attributes [TableConstructor.anti_loop] and
    [TableConstructor.cur_visitor]: state shared by the whole process.
    Visitors are compared by identity. *)
Record tc_state := TcState {
  anti_loop : gset Z;
  cur_visitor : option Z;
}.

(** The first lines of [TableConstructor._accept], up to the test
    [self in TableConstructor.anti_loop]. *)
Definition switch_visitor (visitor : Z) (st : tc_state) : tc_state :=
  match cur_visitor st with
  | Some cur =>
      if decide (cur ≠ visitor) then TcState ∅ (Some visitor) else st
  | None => TcState (anti_loop st) (Some visitor)
  end.

(** What a traversal does that can be observed: the calls
    [visitor._visit_node(visitor.hook, node)] and
    [visitor._leave_node(visitor.hook, node)] the [_accept] methods
    make. *)
Inductive event :=
  | VisitNode (hook : string) (node : Z)
  | LeaveNode (hook : string) (node : Z).

(** What a visit yields: the calls in order and the new class state, or
    [None] when an exception is raised. *)
Definition visit_result : Type := option (list event * tc_state).

(** Modelled from the spec: [Visitor._visit_list(nodes)] of
    [ljd/ast/traverse.py], which is not among the sources: the items are
    visited in order, [for node in nodes: self._visit(node)]. *)
Definition visit_items (visit : value → tc_state → visit_result)
  : list value → tc_state → visit_result :=
  fix go nodes st :=
    match nodes with
    | [] => Some ([], st)
    | node :: nodes =>
        '(t1, st) ← visit node st;
        '(t2, st) ← go nodes st;
        Some (t1 ++ t2, st)
    end.

(** The calls of an [_accept] body, in order, on a visitor whose
    [_visit] is [visit].  Reading a field the object does not have
    raises, and so does [_visit_list] on a value that is not a list. *)
Definition run_calls (visit : value → tc_state → visit_result)
    (self : object) : list vcall → tc_state → visit_result :=
  fix go calls st :=
    match calls with
    | [] => Some ([], st)
    | Visit field :: calls =>
        node ← attrs self !! field;
        '(t1, st) ← visit node st;
        '(t2, st) ← go calls st;
        Some (t1 ++ t2, st)
    | VisitList field :: calls =>
        nodes ← attrs self !! field;
        match nodes with
        | VList nodes =>
            '(t1, st) ← visit_items visit nodes st;
            '(t2, st) ← go calls st;
            Some (t1 ++ t2, st)
        | _ => None
        end
    end.

(** [self._accept(visitor)] for the object [self] stored at [x]. *)
Definition accept_node (visit : value → tc_state → visit_result)
    (visitor : Z) (x : Z) (self : object) (st : tc_state) : visit_result :=
  match _accept (cls self) with
  | NoAccept => None
  | AcceptPass => Some ([], st)
  | Accept visit_hook calls leave_hook =>
      let body st :=
        '(t, st) ← run_calls visit self calls st;
        Some (VisitNode visit_hook x :: t ++ [LeaveNode leave_hook x], st) in
      if decide (cls self = TableConstructor) then
        let st := switch_visitor visitor st in
        if decide (x ∈ anti_loop st) then Some ([], st)
        else body (TcState ({[x]} ∪ anti_loop st) (cur_visitor st))
      else body st
  end.

(** Modelled from the spec: [Visitor._visit(node)] of
    [ljd/ast/traverse.py], which is not among the sources.  The default
    implementation recurses in execution order: [_visit(node)] has the
    node accept the visitor; [_visit_node(handler, node)] and
    [_leave_node(handler, node)] call the handler, and the handlers of the
    default visitor do nothing.  [visitor] is the identity of the visitor
    object.  [None] stands for a raised exception (a value that is not a
    node has no [_accept]) or for [fuel], which bounds the depth of the
    recursion, running out. *)
Fixpoint _visit (fuel : nat) (h : heap) (visitor : Z) (node : value)
    (st : tc_state) : visit_result :=
  match fuel with
  | O => None
  | S fuel =>
      match node with
      | VObj x =>
          self ← h !! x;
          accept_node (_visit fuel h visitor) visitor x self st
      | _ => None
      end
  end.

(** The nodes for which [visit_table_constructor] was called. *)
Definition entered (t : list event) : list Z :=
  omap (λ e, match e with
             | VisitNode hook x =>
                 if decide (hook = "visit_table_constructor") then Some x
                 else None
             | LeaveNode _ _ => None
             end) t.

(** The fields of the warp classes that hold target blocks. *)
Definition warp_targets (c : class) : list string :=
  match c with
  | UnconditionalWarp => ["target"]
  | ConditionalWarp => ["true_target"; "false_target"]
  | IteratorWarp | NumericLoopWarp => ["body"; "way_out"]
  | _ => []
  end.

(** ** The driver ([ljd/tools.py]) *)

(** [bool(v)]: an instance is true unless its class defines [__len__]
    (the statement lists do, as the length of [contents]) and the length
    is 0.  [None] stands for the [TypeError] of [len] on a [contents]
    that is not a list. *)
Definition truthy (h : heap) (v : value) : option bool :=
  match v with
  | VAtom ANone => Some false
  | VAtom (ABool b) => Some b
  | VAtom (AInt z) => Some (negb (z =? 0))
  | VAtom (AStr s) => Some (negb (String.eqb s ""))
  | VList l => Some (negb (bool_decide (l = [])))
  | VObj x =>
      match h !! x with
      | Some o =>
          match cls o with
          | StatementsList | IdentifiersList | RecordsList | VariablesList
          | ExpressionsList =>
              match attrs o !! "contents" with
              | Some (VList l) => Some (negb (bool_decide (l = [])))
              | _ => None
              end
          | _ => Some true
          end
      | None => None
      end
  end.

(** The calls [decompile] makes into the modules of the pipeline, with the
    arguments written at the call sites.  [mark_locals] is called once
    without [alt_mode] and once with it; [unwarp] gets a second
    positional argument. *)
Inductive stage :=
  | builder_build (header prototype : value)
  | validator_validate (ast : value) (warped : bool)
  | mutator_pre_pass (ast : value)
  | locals_mark_locals (ast : value) (alt_mode : option bool)
  | slotworks_eliminate_temporary (ast : value) (identify_slots : bool)
  | unwarper_unwarp (ast : value) (arg : bool)
  | locals_mark_local_definitions (ast : value)
  | mutator_primary_pass (ast : value).

Section decompile.
(** The pipeline modules are not among the sources: a stage is any
    function of the state of the process that returns a value or
    raises ([None]); the state holds the heap of AST nodes. *)
Context {World : Type}.
Context (run : stage → World → option (value * World)).
Context (heap_of : World → heap).

Definition bind {A B : Type} (m : World → option (A * World))
    (k : A → World → option (B * World)) : World → option (B * World) :=
  λ w, match m w with
       | Some (a, w) => k a w
       | None => None
       end.

(** Statements that are calls whose result is dropped, in order. *)
Fixpoint run_all (calls : list stage) : World → option (unit * World) :=
  match calls with
  | [] => λ w, Some (tt, w)
  | s :: calls => bind (run s) (λ _, run_all calls)
  end.

(** [assert ast, ...] *)
Definition assert_truthy (v : value) : World → option (unit * World) :=
  λ w, match truthy (heap_of w) v with
       | Some true => Some (tt, w)
       | _ => None
       end.

(** [decompile(header, prototype)] *)
Definition decompile (header prototype : value)
  : World → option (value * World) :=
  bind (run (builder_build header prototype)) (λ ast,
  bind (assert_truthy ast) (λ _,
  bind (run_all [validator_validate ast true;
                 mutator_pre_pass ast;
                 validator_validate ast true;
                 locals_mark_locals ast None;
                 slotworks_eliminate_temporary ast true;
                 unwarper_unwarp ast false;
                 locals_mark_local_definitions ast;
                 mutator_primary_pass ast;
                 validator_validate ast false;
                 locals_mark_locals ast (Some true);
                 locals_mark_local_definitions ast]) (λ _ w,
  Some (ast, w)))).
End decompile.

(** The stages instrumented to record, in order, each call that returned
    together with what it returned. *)
Definition traced {World : Type}
    (run : stage → World → option (value * World))
    (s : stage) (w : World * list (stage * value))
  : option (value * (World * list (stage * value))) :=
  match run s w.1 with
  | Some (r, w') => Some (r, (w', w.2 ++ [(s, r)]))
  | None => None
  end.

(** An exception instance: its [repr] and whether its class derives from
    [Exception] (and not only from [BaseException]). *)
Record exc := Exc { exc_repr : string; is_Exception : bool }.

(** What [f.result()] does for a submitted [process_file] call. *)
Inductive outcome :=
  | Returned
  | Raised (e : exc).

(** A future as [process_folder] keeps it in [fs]: its [path] attribute
    and the outcome of the worker. *)
Record future := Future { path : string; outcome_of : outcome }.

(** What [process_folder] uses of the operating system, of [pathlib] and
    of the pool of worker processes. *)
Record environment := Environment {
  (* [os.walk(in_dir)]: every directory [root] with its file [names] *)
  os_walk : string → list (string * list string);
  (* [Path(root).relative_to(in_dir)] *)
  relative_to : string → string → string;
  (* [Path(a) / b] *)
  joinpath : string → string → string;
  (* [Path(name).with_suffix('.lua')] *)
  with_suffix_lua : string → string;
  (* the exception [mkdir(parents=True, exist_ok=True)] raises, if any *)
  mkdir : string → option exc;
  (* what becomes of [executor.submit(process_file, path_in, path_out)] *)
  submit_process_file : string → string → outcome;
}.

Inductive log_record :=
  (* [logger.debug("SUCCESS %s" % f.path)] *)
  | Debug_SUCCESS (path : string)
  (* [logger.info("FAILED %s %r", path, e)] *)
  | Info_FAILED (path : string) (e : exc)
  (* [logger.warning("Decompile folder ...", ..., len(success), len(failed), dt)] *)
  | Warning_summary (success fail : nat).

(** The loop [for name in names: ... fs.append(f)] for one directory: the
    futures it appends. *)
Definition submit_files (env : environment) (in_dir out_dir : string)
    (update_outputname : option (string → string))
    (root : string) (names : list string) : list future :=
  let reldir := relative_to env root in_dir in
  let out_root := joinpath env out_dir reldir in
  (λ name,
     let relpath := joinpath env reldir name in
     let path_in := joinpath env root name in
     let out_name := match update_outputname with
                     | Some f => f name
                     | None => with_suffix_lua env name
                     end in
     let path_out := joinpath env out_root out_name in
     Future relpath (submit_process_file env path_in path_out)) <$> names.

(** The loop [for root, _, names in os.walk(in_dir): ...]: the list [fs]
    it builds, or the exception of a [mkdir]. *)
Fixpoint submit_all (env : environment) (in_dir out_dir : string)
    (update_outputname : option (string → string))
    (walk : list (string * list string)) (fs : list future)
  : exc + list future :=
  match walk with
  | [] => inr fs
  | (root, names) :: walk =>
      match mkdir env (joinpath env out_dir (relative_to env root in_dir)) with
      | Some e => inl e
      | None =>
          submit_all env in_dir out_dir update_outputname walk
            (fs ++ submit_files env in_dir out_dir update_outputname
                     root names)
      end
  end.

(** The loop [for f in fs: try: f.result() ... except Exception as e: ...].
    An exception that is not an [Exception] is not caught and leaves the
    loop. *)
Fixpoint collect (fs : list future) (failed : list (string * exc))
    (success : list string) (log : list log_record)
  : exc * list log_record
    + list (string * exc) * list string * list log_record :=
  match fs with
  | [] => inr (failed, success, log)
  | f :: fs =>
      match outcome_of f with
      | Returned =>
          collect fs failed (success ++ [path f])
            (log ++ [Debug_SUCCESS (path f)])
      | Raised e =>
          if is_Exception e
          then collect fs (failed ++ [(path f, e)]) success log
          else inl (e, log)
      end
  end.

(** [process_folder(in_dir, out_dir, update_outputname)]: what it returns
    (or the exception that leaves it) and what it logs. *)
Definition process_folder (env : environment) (in_dir out_dir : string)
    (update_outputname : option (string → string))
  : (exc + list string) * list log_record :=
  match submit_all env in_dir out_dir update_outputname
          (os_walk env in_dir) [] with
  | inl e => (inl e, [])
  | inr fs =>
      match collect fs [] [] [] with
      | inl (e, log) => (inl e, log)
      | inr (failed, success, log) =>
          (inr success,
           log ++ ((λ '(path, e), Info_FAILED path e) <$> failed)
               ++ [Warning_summary (length success) (length failed)])
      end
  end.

(** [set_luajit_version(bc_version)] on the module attribute
    [ljd.CURRENT_VERSION]; [init bc_version] tells whether the imports and
    [init] calls for that version go through.  Returns the new
    [CURRENT_VERSION] and whether the call raised. *)
Definition set_luajit_version (init : Z → bool) (bc_version : Z)
    (CURRENT_VERSION : option Z) : option Z * bool :=
  if decide (CURRENT_VERSION = Some bc_version) then (CURRENT_VERSION, false)
  else
    if decide (bc_version = 20 ∨ bc_version = 21) then
      (Some bc_version, negb (init bc_version))
    else (Some bc_version, true).


(** * Specification vocabulary *)

(** What a constructor call does to the heap: a new object of the class,
    old objects untouched. *)
Definition constructs (rec : class → heap → Z * heap) : Prop :=
  ∀ c h x h', rec c h = (x, h') →
    h !! x = None ∧ h ⊆ h' ∧ ∃ A, h' !! x = Some (Object c A).

(** [val_rel R v v']: [v'] has the shape of [v], with the same scalars
    and with node references related by [R]. *)
Inductive val_rel (R : Z → Z → Prop) : value → value → Prop :=
  | val_rel_atom a : val_rel R (VAtom a) (VAtom a)
  | val_rel_list l l' :
      Forall2 (val_rel R) l l' → val_rel R (VList l) (VList l')
  | val_rel_obj x x' : R x x' → val_rel R (VObj x) (VObj x').

(** The relation [load_dict] builds: a node of [S] and its entry in
    [mapping].  It is a partial function, so a node that occurs in two
    places has the same copy in both. *)
Definition via (S : gset Z) (m : gmap Z Z) (x x' : Z) : Prop :=
  x ∈ S ∧ m !! x = Some x'.

(** Node [x'] of heap [g] is a loaded copy of node [x] of heap [h]: same
    class, every field of [_slots] a copy of the original field (read
    with [getattr(.., None)]), every other field that [__init__] sets to a
    literal still at that literal, and no field that is neither in
    [_slots] nor set by [__init__]. *)
Definition loaded (h : heap) (S : gset Z) (m : gmap Z Z) (g : heap)
    (x x' : Z) : Prop :=
  ∃ o o', h !! x = Some o ∧ g !! x' = Some o' ∧ cls o' = cls o ∧
    (∀ name, name ∈ slots (cls o) →
       val_rel (via S m) (getattr o name) (getattr o' name)) ∧
    (∀ name a, name ∉ slots (cls o) →
       (name, InitAtom a) ∈ init_fields (cls o) →
       attrs o' !! name = Some (VAtom a)) ∧
    (∀ name, name ∉ slots (cls o) → name ∉ (init_fields (cls o)).*1 →
       attrs o' !! name = None).

(** [mapping] has an entry for every visited node. *)
Definition cover (vis : gset Z) (m : gmap Z Z) : Prop :=
  ∀ x, x ∈ vis → is_Some (m !! x).

(** The heap grows: objects outside [E] are kept as they are, objects
    in [E] (those under construction) stay allocated. *)
Definition ext (E : gset Z) (g g' : heap) : Prop :=
  ∀ y o, g !! y = Some o →
    if decide (y ∈ E) then is_Some (g' !! y) else g' !! y = Some o.

(** What a stretch of loading achieves, from [visited] set [vis],
    mapping [m] and heap [g] to [vis'], [m'] and [g']. *)
Record step_ok (h : heap) (E : gset Z) (vis vis' : gset Z)
    (m m' : gmap Z Z) (g g' : heap) : Prop := {
  step_vis : vis ⊆ vis';
  step_map : ∀ x, x ∈ vis → m' !! x = m !! x;
  step_heap : ext E g g';
  step_new : ∀ x, x ∈ vis' → x ∉ vis →
    ∃ x', m' !! x = Some x' ∧ g !! x' = None ∧ loaded h vis' m' g' x x';
  step_inj : ∀ x y x', x ∈ vis' → x ∉ vis → y ∈ vis' → y ∉ vis →
    m' !! x = Some x' → m' !! y = Some x' → x = y;
}.

(** What loading the output [d] of [to_dict] on [v] achieves. *)
Definition loads (h : heap) (v : value) (vis : gset Z) (d : data)
    (vis' : gset Z) : Prop :=
  ∀ m g, cover vis m →
    ∃ v' m' g', load_dict d (m, g) = Some (v', (m', g')) ∧
                step_ok h ∅ vis vis' m m' g g' ∧ val_rel (via vis' m') v v'.

(** Every node reference inside [v] points into the heap. *)
Fixpoint value_ok (h : heap) (v : value) : bool :=
  match v with
  | VAtom _ => true
  | VList l => forallb (value_ok h) l
  | VObj x => bool_decide (is_Some (h !! x))
  end.

(** A heap of AST nodes: every object is an instance of a proper subclass
    of [AstNode] and its [_slots] fields hold scalars, lists and nodes of
    the heap. *)
Definition heap_ok (h : heap) : Prop :=
  map_Forall (λ _ o, cls o ≠ AstNode ∧
                     Forall (λ name, value_ok h (getattr o name))
                            (slots (cls o))) h.

(** [to_dict] on [v] returns when given enough fuel, from any [visited]
    set that leaves at most [n] objects unvisited. *)
Definition returns (h : heap) (n : nat) (v : value) : Prop :=
  ∀ vis, (size (dom h ∖ vis) ≤ n)%nat → value_ok h v →
    ∃ fuel d vis', to_dict fuel h v vis = Some (d, vis') ∧ vis ⊆ vis'.

(** Which fields a comparison of two nodes looks at: all of them, or
    those listed in [_slots]. *)
Definition all_fields (o : object) (name : string) : Prop := True.
Definition slot_fields (o : object) (name : string) : Prop :=
  name ∈ slots (cls o).

(** [R] relates nodes of heap [g] of the same class whose compared fields
    have the same shape, with related nodes at the same places. *)
Definition bisimulation (fields : object → string → Prop) (g : heap)
    (R : Z → Z → Prop) : Prop :=
  ∀ x x', R x x' →
    ∃ o o', g !! x = Some o ∧ g !! x' = Some o' ∧ cls o' = cls o ∧
      ∀ name, fields o name → val_rel R (getattr o name) (getattr o' name).

(** Sharing is preserved in both directions when [R] is one-to-one. *)
Definition one_to_one (R : Z → Z → Prop) : Prop :=
  (∀ x x' y', R x x' → R x y' → x' = y') ∧
  (∀ x y x', R x x' → R y x' → x = y).

(** Two heaps that hold the same objects up to the target fields of the
    warps: the blocks reached through warp edges may differ. *)
Definition same_but_warp_targets (h h' : heap) : Prop :=
  ∀ x, option_Forall2
         (λ o o', cls o = cls o' ∧
                  ∀ field, field ∉ warp_targets (cls o) →
                           attrs o !! field = attrs o' !! field)
         (h !! x) (h' !! x).

(** What a stretch of traversal by [visitor] does to the class state: it
    is unchanged and no table constructor was entered, or [visitor] is
    the current visitor and [anti_loop] is the set the guard starts from
    (emptied if another visitor was current) together with the table
    constructors entered, each of them once and none of them in the set
    before. *)
Definition tc_step (visitor : Z) (st : tc_state) (t : list event)
    (st' : tc_state) : Prop :=
  (st' = st ∧ entered t = []) ∨
  (st' = TcState (anti_loop (switch_visitor visitor st)
                  ∪ list_to_set (entered t)) (Some visitor) ∧
   NoDup (entered t) ∧
   ∀ x, x ∈ entered t → x ∉ anti_loop (switch_visitor visitor st)).

(** A child a traversal reaches from the node at [x]: a node of the heap
    that is a table constructor or has a smaller rank. *)
Definition child_ok (h : heap) (rank : Z → nat) (x : Z) (v : value) : bool :=
  match v with
  | VObj y =>
      match h !! y with
      | Some o =>
          bool_decide (cls o = TableConstructor)
          || bool_decide (rank y < rank x)%nat
      | None => false
      end
  | _ => false
  end.

(** A call of an [_accept] body finds its field, holding a child (for
    [_visit]) or a list of children (for [_visit_list]). *)
Definition call_ok (h : heap) (rank : Z → nat) (x : Z) (self : object)
    (c : vcall) : bool :=
  match c with
  | Visit field =>
      match attrs self !! field with
      | Some v => child_ok h rank x v
      | None => false
      end
  | VisitList field =>
      match attrs self !! field with
      | Some (VList l) => forallb (child_ok h rank x) l
      | _ => false
      end
  end.

(** Every call of the [_accept] body of [self] is in order. *)
Definition node_ok (h : heap) (rank : Z → nat) (x : Z) (self : object)
  : bool :=
  match _accept (cls self) with
  | NoAccept => false
  | AcceptPass => true
  | Accept _ calls _ => forallb (call_ok h rank x self) calls
  end.

(** Every field that an [_accept] body passes to the visitor holds a node
    of the heap (a list of nodes for [_visit_list]), and [rank] decreases
    along these fields except into table constructors: the cycles of the
    AST, if any, go through table constructors. *)
Definition ranked (h : heap) (rank : Z → nat) : Prop :=
  map_Forall (λ x self, node_ok h rank x self) h.

(** The table constructors of the heap. *)
Definition table_constructors (h : heap) : gset Z :=
  dom (filter (λ kv, cls kv.2 = TableConstructor) h).

(** The table constructors the guard would still let [visitor] enter. *)
Definition unmarked (h : heap) (visitor : Z) (st : tc_state) : nat :=
  size (table_constructors h ∖ anti_loop (switch_visitor visitor st)).

(** Visiting [v] returns when [visitor] may still enter at most [n]
    table constructors. *)
Definition returns_at (h : heap) (visitor : Z) (n : nat) (v : value)
  : Prop :=
  ∀ st, (unmarked h visitor st ≤ n)%nat →
    ∃ fuel t st', _visit fuel h visitor v st = Some (t, st').

(** The precedence levels as the specification lists them. *)
Definition specified_precedence : list (Z * Z) :=
  [(T_LOGICAL_OR, 1); (T_LOGICAL_AND, 2);
   (T_LESS_THEN, 3); (T_GREATER_THEN, 3); (T_LESS_OR_EQUAL, 3);
   (T_GREATER_OR_EQUAL, 3); (T_NOT_EQUAL, 3); (T_EQUAL, 3);
   (T_CONCAT, 4); (T_ADD, 5); (T_SUBTRACT, 5);
   (T_MULTIPLY, 6); (T_DIVISION, 6); (T_MOD, 6); (T_POW, 8)].

(** The operators the specification lists as commutative. *)
Definition specified_commutative : list Z :=
  [T_LOGICAL_AND; T_LOGICAL_OR; T_EQUAL; T_NOT_EQUAL; T_ADD; T_MULTIPLY].

(** The futures of all files of the walk, in order. *)
Definition submitted (env : environment) (in_dir out_dir : string)
    (update_outputname : option (string → string)) : list future :=
  '(root, names) ← os_walk env in_dir;
  submit_files env in_dir out_dir update_outputname root names.

(** Whether [process_file] returned for the file of [f]. *)
Definition returned (f : future) : bool :=
  match outcome_of f with
  | Returned => true
  | Raised _ => false
  end.

(** The paths whose [process_file] returned, and the failures with their
    exceptions, both in submission order. *)
Definition successes (fs : list future) : list string :=
  path <$> filter (λ f, returned f) fs.
Definition failures (fs : list future) : list (string * exc) :=
  omap (λ f, match outcome_of f with
             | Returned => None
             | Raised e => Some (path f, e)
             end) fs.

(** The attribute names that [setattr] does not store in the instance: the
    class has a data descriptor for them, which raises for every value
    [load_dict] can pass. *)
Definition special_attributes : list string :=
  ["__class__"; "__dict__"; "__weakref__"].

(** The data [load_dict] is modelled for: in every dict an ["_id"] is an
    integer, as [to_dict] writes it, and no key is one of [reserved].  What
    the dicts hold otherwise and how they are nested is free. *)
Fixpoint plain (reserved : list string) (d : data) : bool :=
  match d with
  | DAtom _ => true
  | DList l => forallb (plain reserved) l
  | DDict items =>
      match dict_get "_id" items with
      | Some (DAtom (AInt _)) | None => true
      | Some _ => false
      end
      && forallb (λ kv, bool_decide (kv.1 ∉ reserved) && plain reserved kv.2)
                 items
  end.

(** Every node takes [_slots] from its class: none carries an instance
    attribute of that name, which [obj._slots] would find first. *)
Definition class_slots (g : heap) : Prop :=
  map_Forall (λ _ o, attrs o !! "_slots" = None) g.

(** Every entry of the shared [mapping] refers to a node of the heap. *)
Definition mapping_ok (m : gmap Z Z) (g : heap) : Prop :=
  ∀ k y, m !! k = Some y → is_Some (g !! y).

(** What a call of [load_dict] on [d] leaves as it was: the nodes that
    existed before and the keys of [mapping]; and [mapping] and the result
    refer to nodes of the heap if [mapping] did before. *)
Definition load_keeps (d : data) : Prop :=
  ∀ m g v m' g', load_dict d (m, g) = Some (v, (m', g')) →
    g ⊆ g' ∧ dom m ⊆ dom m' ∧
    (mapping_ok m g → mapping_ok m' g' ∧ value_ok g' v).

(** A heap of AST nodes with no dangling reference: every attribute of
    every node, in [_slots] or not, holds scalars, lists and nodes of the
    heap. *)
Definition heap_wf (g : heap) : Prop :=
  map_Forall (λ _ o, cls o ≠ AstNode ∧
                     map_Forall (λ _ v, value_ok g v = true) (attrs o)) g.

(** A call of [load_dict] on [d] leaves no dangling reference if there
    was none before. *)
Definition load_wf (d : data) : Prop :=
  ∀ m g v m' g', heap_wf g → mapping_ok m g →
    load_dict d (m, g) = Some (v, (m', g')) → heap_wf g'.

(** A call of [load_dict] on data without a key [_slots] gives no node an
    instance attribute [_slots] if none had one before. *)
Definition load_class_slots (d : data) : Prop :=
  ∀ m g v m' g', plain ("_slots" :: special_attributes) d = true →
    class_slots g →
    load_dict d (m, g) = Some (v, (m', g')) → class_slots g'.

(** Two handler calls are alike up to [R]: the same handler, on nodes
    related by [R]. *)
Inductive event_rel (R : Z → Z → Prop) : event → event → Prop :=
  | event_rel_visit hook x x' :
      R x x' → event_rel R (VisitNode hook x) (VisitNode hook x')
  | event_rel_leave hook x x' :
      R x x' → event_rel R (LeaveNode hook x) (LeaveNode hook x').

(** Two class states are alike up to [R]: the same current visitor, and
    of two related nodes either both are in [anti_loop] or none is. *)
Definition tc_rel (R : Z → Z → Prop) (st st' : tc_state) : Prop :=
  cur_visitor st = cur_visitor st' ∧
  ∀ x x', R x x' → x ∈ anti_loop st ↔ x' ∈ anti_loop st'.

(** Whatever [visit] yields on a node, [visit'] yields alike on a related
    node from a state that is alike. *)
Definition mirrors (R : Z → Z → Prop)
    (visit visit' : value → tc_state → visit_result) : Prop :=
  ∀ node node' st st' t st1,
    val_rel R node node' → tc_rel R st st' →
    visit node st = Some (t, st1) →
    ∃ t' st1', visit' node' st' = Some (t', st1') ∧
               Forall2 (event_rel R) t t' ∧ tc_rel R st1 st1'.

(** The leaving handler that goes with an entering handler:
    [leave_xyz] for [visit_xyz]. *)
Definition leave_of (visit_hook : string) : string :=
  "leave_" +:+ String.substring 6 (String.length visit_hook - 6) visit_hook.

(** A trace of handler calls is well nested: read against a stack of the
    nodes entered and not yet left, every leaving call is for the node
    entered last, with the handler that goes with the entering one, and in
    the end the stack is empty. *)
Fixpoint well_nested (stack : list (string * Z)) (t : list event) : bool :=
  match t with
  | [] => bool_decide (stack = [])
  | VisitNode hook x :: t => well_nested ((hook, x) :: stack) t
  | LeaveNode hook x :: t =>
      match stack with
      | (visit_hook, y) :: stack =>
          bool_decide (x = y ∧ hook = leave_of visit_hook)
          && well_nested stack t
      | [] => false
      end
  end.

(** A stretch of a trace that enters and leaves nodes in a nested way
    and leaves the stack as it found it. *)
Definition nests (t : list event) : Prop :=
  ∀ stack rest, well_nested stack (t ++ rest) = well_nested stack rest.

(** Two documents are the same up to the numbering of the nodes: scalars,
    lists, keys and class names agree, and where the one has the [_id] of
    a node the other has the [_id] of a related node. *)
Inductive data_rel (R : Z → Z → Prop) : data → data → Prop :=
  | data_rel_atom a : data_rel R (DAtom a) (DAtom a)
  | data_rel_list l l' :
      Forall2 (data_rel R) l l' → data_rel R (DList l) (DList l')
  | data_rel_dict cls_name x x' fields fields' :
      R x x' →
      Forall2 (λ kv kv', kv.1 = kv'.1 ∧ data_rel R kv.2 kv'.2)
              fields fields' →
      data_rel R
        (DDict (("class", DAtom (AStr cls_name))
                :: ("_id", DAtom (AInt x)) :: fields))
        (DDict (("class", DAtom (AStr cls_name))
                :: ("_id", DAtom (AInt x')) :: fields')).

(** Two [visited] sets are alike up to [R]: of two related nodes either
    both are in their set or none is. *)
Definition vis_rel (R : Z → Z → Prop) (vis vis' : gset Z) : Prop :=
  ∀ x x', R x x' → x ∈ vis ↔ x' ∈ vis'.

(** * Sample ASTs *)

Definition node (c : class) (fields : list (string * value)) : object :=
  Object c (list_to_map fields).

(** The final AST of [local x = 1]. *)
Definition ast_local_x : heap :=
  list_to_map
    [(100, node FunctionDefinition
             [("arguments", VObj 101); ("statements", VObj 102);
              ("_upvalues", VAtom ANone); ("_debuginfo", VAtom ANone);
              ("_instructions_count", VAtom (AInt 2));
              ("error", VAtom ANone)]);
     (101, node IdentifiersList [("contents", VList [])]);
     (102, node StatementsList [("contents", VList [VObj 103])]);
     (103, node Assignment
             [("expressions", VObj 105); ("destinations", VObj 104);
              ("type", VAtom (AInt 0))]);
     (104, node VariablesList [("contents", VList [VObj 106])]);
     (105, node ExpressionsList [("contents", VList [VObj 107])]);
     (106, node Identifier
             [("name", VAtom (AStr "x")); ("type", VAtom (AInt 1));
              ("slot", VAtom (AInt 0)); ("id", VAtom (AInt (-1)));
              ("_varinfo", VAtom ANone)]);
     (107, node Constant
             [("type", VAtom (AInt 0)); ("value", VAtom (AInt 1))])].

(** A warped block that jumps to itself, so it has one incoming warp. *)
Definition ast_self_loop : heap :=
  list_to_map
    [(200, node Block
             [("index", VAtom (AInt 0)); ("warp", VObj 201);
              ("contents", VList []); ("first_address", VAtom (AInt 0));
              ("last_address", VAtom (AInt 1));
              ("warpins_count", VAtom (AInt 1));
              ("loop", VAtom (ABool false))]);
     (201, node UnconditionalWarp
             [("type", VAtom (AInt 0)); ("target", VObj 200);
              ("is_uclo", VAtom (ABool false))])].

(** The expression [f(1)]: a call of the global [f] on a constant. *)
Definition ast_call : heap :=
  list_to_map
    [(300, node FunctionCall
             [("function", VObj 301); ("arguments", VObj 302);
              ("is_method", VAtom (ABool false))]);
     (301, node GetItem [("table", VObj 303); ("key", VObj 304)]);
     (302, node ExpressionsList [("contents", VList [VObj 305])]);
     (303, node Identifier
             [("name", VAtom (AStr "_env")); ("type", VAtom (AInt 3));
              ("slot", VAtom (AInt (-1))); ("id", VAtom (AInt (-1)))]);
     (304, node Constant
             [("type", VAtom (AInt 2)); ("value", VAtom (AStr "f"))]);
     (305, node Constant
             [("type", VAtom (AInt 0)); ("value", VAtom (AInt 1))])].

(** A block that branches on [x]; both branches lead to block 403. *)
Definition ast_branch : heap :=
  list_to_map
    [(400, node Block
             [("index", VAtom (AInt 0)); ("warp", VObj 401);
              ("contents", VList []); ("first_address", VAtom (AInt 0));
              ("last_address", VAtom (AInt 1));
              ("warpins_count", VAtom (AInt 0));
              ("loop", VAtom (ABool false))]);
     (401, node ConditionalWarp
             [("condition", VObj 402); ("true_target", VObj 403);
              ("false_target", VObj 403)]);
     (402, node Identifier
             [("name", VAtom (AStr "x")); ("type", VAtom (AInt 1));
              ("slot", VAtom (AInt 0)); ("id", VAtom (AInt (-1)))]);
     (403, node Block
             [("index", VAtom (AInt 1)); ("warp", VObj 404);
              ("contents", VList []); ("first_address", VAtom (AInt 2));
              ("last_address", VAtom (AInt 2));
              ("warpins_count", VAtom (AInt 2));
              ("loop", VAtom (ABool false))]);
     (404, node EndWarp [])].

(** The same block with the targets of its warp removed. *)
Definition ast_branch_cut : heap :=
  setattr 401 "true_target" (VAtom ANone)
    (setattr 401 "false_target" (VAtom ANone) ast_branch).

(** A table whose only record holds the table itself. *)
Definition ast_cyclic_table : heap :=
  list_to_map
    [(510, node TableConstructor [("array", VObj 503); ("records", VObj 502)]);
     (503, node RecordsList [("contents", VList [])]);
     (502, node RecordsList [("contents", VList [VObj 501])]);
     (501, node TableRecord [("key", VObj 500); ("value", VObj 510)]);
     (500, node Constant
             [("type", VAtom (AInt 2)); ("value", VAtom (AStr "self"))])].

(** The serialised form of [local x = 1] and what loading it gives. *)
Definition dict_local_x : data * gset Z :=
  default (DAtom ANone, ∅) (to_dict 10 ast_local_x (VObj 100) ∅).
Definition loaded_local_x : value * lstate :=
  default (VAtom ANone, (∅, ∅)) (load_dict dict_local_x.1 (∅, ast_local_x)).

(** A directory [in] with three files, of which [b.luac] fails with an
    assertion error. *)
Definition env_sample : environment :=
  {| os_walk := λ _, [("in", ["a.luac"; "b.luac"; "c.luac"])];
     relative_to := λ _ _, ".";
     joinpath := λ a b, if String.eqb a "." then b else a +:+ "/" +:+ b;
     with_suffix_lua := λ name, name +:+ ".lua";
     mkdir := λ _, None;
     submit_process_file := λ path_in _,
       if String.eqb path_in "in/b.luac"
       then Raised (Exc "AssertionError()" true) else Returned |}.

(** Stages that succeed and change nothing; [build] returns the function
    definition at 100. *)
Definition run_sample (s : stage) (w : heap) : option (value * heap) :=
  match s with
  | builder_build _ _ => Some (VObj 100, w)
  | _ => Some (VAtom ANone, w)
  end.

Definition decompile_sample :=
  default (VAtom ANone, (∅, []))
    (decompile (traced run_sample) (λ w, w.1) (VAtom ANone) (VAtom ANone)
       (ast_local_x, [])).

(** The final AST of [for i = 1, 2 do end]. *)
Definition ast_numeric_for : heap :=
  list_to_map
    [(600, node NumericFor
             [("variable", VObj 601); ("expressions", VObj 602);
              ("statements", VObj 605)]);
     (601, node Identifier
             [("name", VAtom (AStr "i")); ("type", VAtom (AInt 1));
              ("slot", VAtom (AInt 3)); ("id", VAtom (AInt (-1)));
              ("_varinfo", VAtom ANone)]);
     (602, node ExpressionsList [("contents", VList [VObj 603; VObj 604])]);
     (603, node Constant
             [("type", VAtom (AInt 0)); ("value", VAtom (AInt 1))]);
     (604, node Constant
             [("type", VAtom (AInt 0)); ("value", VAtom (AInt 2))]);
     (605, node StatementsList [("contents", VList [])])].

(** Three files of which the first fails with an assertion error and the
    second is interrupted from the keyboard. *)
Definition env_interrupted : environment :=
  {| os_walk := λ _, [("in", ["a.luac"; "b.luac"; "c.luac"])];
     relative_to := λ _ _, ".";
     joinpath := λ a b, if String.eqb a "." then b else a +:+ "/" +:+ b;
     with_suffix_lua := λ name, name +:+ ".lua";
     mkdir := λ _, None;
     submit_process_file := λ path_in _,
       if String.eqb path_in "in/a.luac"
       then Raised (Exc "AssertionError()" true)
       else if String.eqb path_in "in/b.luac"
       then Raised (Exc "KeyboardInterrupt()" false)
       else Returned |}.

(** What a first traversal of the cyclic table by visitor 0 yields. *)
Definition visit_cyclic_table : list event * tc_state :=
  default ([], TcState ∅ None)
    (_visit 10 ast_cyclic_table 0 (VObj 510) (TcState ∅ None)).

(** * Properties *)

(** Closed decidable facts are settled by evaluation. *)
Ltac by_compute := apply (bool_decide_unpack _); vm_compute; exact I.

(** ** Unfolding equations of the loops *)

Lemma to_dict_items_nil rec vis : to_dict_items rec [] vis = Some ([], vis).
Proof. done. Qed.

Lemma to_dict_items_cons rec v l vis :
  to_dict_items rec (v :: l) vis =
  '(d, vis) ← rec v vis;
  '(ds, vis) ← to_dict_items rec l vis;
  Some (d :: ds, vis).
Proof. done. Qed.

Lemma to_dict_slots_nil rec o d vis :
  to_dict_slots rec o [] d vis = Some (d, vis).
Proof. done. Qed.

Lemma to_dict_slots_cons rec o n names d vis :
  to_dict_slots rec o (n :: names) d vis =
  '(s, vis) ← rec (getattr o n) vis;
  to_dict_slots rec o names (dict_set n s d) vis.
Proof. done. Qed.

Lemma load_items_nil rec st : load_items rec [] st = Some ([], st).
Proof. done. Qed.

Lemma load_items_cons rec d l st :
  load_items rec (d :: l) st =
  '(v, st) ← rec d st;
  '(vs, st) ← load_items rec l st;
  Some (v :: vs, st).
Proof. done. Qed.

Lemma load_fields_nil rec res st : load_fields rec res [] st = Some st.
Proof. done. Qed.

Lemma load_fields_cons rec res key d items st :
  load_fields rec res ((key, d) :: items) st =
  if decide (key = "class" ∨ key = "_id") then load_fields rec res items st
  else
    '(v, (mapping, h)) ← rec d st;
    load_fields rec res items (mapping, setattr res key v h).
Proof. done. Qed.

Lemma to_dict_S fuel h obj vis :
  to_dict (S fuel) h obj vis =
  match obj with
  | VList l =>
      '(ds, visited) ← to_dict_items (to_dict fuel h) l vis;
      Some (DList ds, visited)
  | VAtom a => Some (DAtom a, vis)
  | VObj objid =>
      o ← h !! objid;
      if decide (objid ∈ vis) then
        Some (DDict [("class", DAtom (AStr "Ref"));
                     ("_id", DAtom (AInt objid))], vis)
      else
        '(d, visited) ←
          to_dict_slots (to_dict fuel h) o (slots (cls o))
            [("class", DAtom (AStr (class_name (cls o))));
             ("_id", DAtom (AInt objid))] ({[objid]} ∪ vis);
        Some (DDict d, visited)
  end.
Proof. done. Qed.

Lemma load_dict_DList l st :
  load_dict (DList l) st =
  '(vs, st) ← load_items load_dict l st; Some (VList vs, st).
Proof. done. Qed.

Lemma load_dict_DDict items st :
  load_dict (DDict items) st =
  cls_name ← dict_get "class" items;
  obj_id ← dict_get "_id" items;
  match cls_name, obj_id with
  | DAtom (AStr cls_name), DAtom (AInt obj_id) =>
      if decide (cls_name = "Ref") then
        res ← st.1 !! obj_id; Some (VObj res, st)
      else
        subcls ← cls_map !! cls_name;
        let '(res, h) := construct subcls st.2 in
        let mapping := <[obj_id := res]> st.1 in
        st ← load_fields load_dict res items (mapping, h);
        Some (VObj res, st)
  | _, _ => None
  end.
Proof. done. Qed.

Lemma setattr_items_nil rec res st : setattr_items rec res [] st = Some st.
Proof. done. Qed.

Lemma setattr_items_cons rec res key d items st :
  setattr_items rec res ((key, d) :: items) st =
  '(v, (mapping, h)) ← rec d st;
  setattr_items rec res items (mapping, setattr res key v h).
Proof. done. Qed.

Global Opaque to_dict_items to_dict_slots load_items load_fields
  setattr_items.

(** ** Popping keys and skipping them *)

Lemma filter_all {A} (P : A → Prop) `{∀ x, Decision (P x)} (l : list A) :
  Forall P l → filter P l = l.
Proof.
  induction 1 as [|x l Hx _ IH]; [done|].
  by rewrite filter_cons_True, IH.
Qed.

Lemma dict_pop_spec k (d : list (string * data)) v r :
  NoDup d.*1 → dict_pop k d = Some (v, r) →
  dict_get k d = Some v ∧ r = filter (λ kv, kv.1 ≠ k) d.
Proof.
  revert v r. induction d as [|[k' v'] d IH]; intros v r Hnd; simpl; [done|].
  apply NoDup_cons in Hnd as [Hk' Hnd]. case_decide as Hk.
  - intros [= <- <-]. subst k'. split; [done|].
    rewrite filter_cons_False by (simpl; auto).
    symmetry. apply filter_all. apply Forall_forall.
    intros [k1 v1] Hin Heq. simpl in Heq. subst k1. apply Hk'.
    by apply (list_elem_of_fmap_2 fst) in Hin.
  - destruct (dict_pop k d) as [[w r']|] eqn:Hp; [|done]. simpl.
    intros [= <- <-]. destruct (IH w r' Hnd eq_refl) as [Hg ->].
    split; [done|]. by rewrite filter_cons_True by done.
Qed.

Lemma load_fields_filter rec res items st :
  load_fields rec res items st =
  setattr_items rec res
    (filter (λ kv, ¬ (kv.1 = "class" ∨ kv.1 = "_id")) items) st.
Proof.
  revert st. induction items as [|[key d] items IH]; intros st; [done|].
  rewrite load_fields_cons. case_decide as Hk.
  - rewrite filter_cons_False by (simpl; auto). apply IH.
  - rewrite filter_cons_True by done. rewrite setattr_items_cons.
    destruct (rec d st) as [[v [m h]]|]; [|done]. simpl. apply IH.
Qed.

(** On a dict (distinct keys) the loop of [load_dict] is the loop of the
    source: popping ["class"] and ["_id"] gives the values [load_dict]
    looks up, and iterating over what is left sets the same attributes. *)
Lemma load_fields_as_popped rec res items cls_name data1 obj_id data2 st :
  NoDup items.*1 →
  dict_pop "class" items = Some (cls_name, data1) →
  dict_pop "_id" data1 = Some (obj_id, data2) →
  dict_get "class" items = Some cls_name ∧
  dict_get "_id" items = Some obj_id ∧
  load_fields rec res items st = setattr_items rec res data2 st.
Proof.
  intros Hnd H1 H2. apply dict_pop_spec in H1 as [Hc ->]; [|done].
  apply dict_pop_spec in H2 as [Hi ->].
  2:{ apply (sublist_NoDup _ items.*1); [done|].
      apply fmap_sublist, sublist_filter. }
  split_and!; [done| |].
  - clear Hnd Hc. induction items as [|[k v] items IH]; simpl in *; [done|].
    destruct (decide (k = "class")) as [->|Hk].
    + rewrite filter_cons_False in Hi by (simpl; auto).
      rewrite decide_False by done. auto.
    + rewrite filter_cons_True in Hi by done. simpl in Hi.
      case_decide; [done|auto].
  - rewrite load_fields_filter. f_equal. rewrite list_filter_filter.
    apply list_filter_iff. intros [k v]. simpl. tauto.
Qed.

(** ** The heap under allocation and construction *)

Lemma alloc_fresh c h x h' :
  alloc c h = (x, h') → h !! x = None ∧ h' = <[x := Object c ∅]> h.
Proof.
  unfold alloc. intros [= <- <-]. split; [|done].
  apply not_elem_of_dom, is_fresh.
Qed.

Lemma setattr_lookup_ne x y name v (h : heap) :
  x ≠ y → setattr x name v h !! y = h !! y.
Proof.
  intros Hne. unfold setattr. destruct (h !! x); [|done].
  by rewrite lookup_insert_ne.
Qed.

Lemma setattr_lookup x name v (h : heap) c A :
  h !! x = Some (Object c A) →
  setattr x name v h !! x = Some (Object c (<[name := v]> A)).
Proof. intros Hx. unfold setattr. rewrite Hx. by rewrite lookup_insert_eq. Qed.

Lemma setattr_None x name v (h : heap) y :
  h !! y = None → setattr x name v h !! y = None.
Proof.
  intros Hy. unfold setattr. destruct (h !! x) eqn:Hx; [|done].
  rewrite lookup_insert_ne; [done|]. intros ->. congruence.
Qed.

Lemma init_steps_spec rec self c (fs : list (string * init)) :
  constructs rec →
  ∀ (h : heap) A,
  NoDup fs.*1 →
  h !! self = Some (Object c A) →
  let h' := foldl (init_step rec self) h fs in
  (∀ y o, y ≠ self → h !! y = Some o → h' !! y = Some o) ∧
  ∃ A', h' !! self = Some (Object c A') ∧
        (∀ name, name ∉ fs.*1 → A' !! name = A !! name) ∧
        (∀ name a, (name, InitAtom a) ∈ fs → A' !! name = Some (VAtom a)).
Proof.
  intros Hrec. induction fs as [|[name i] fs IH]; intros h A Hnd Hself; simpl.
  { split; [done|]. exists A. split_and!; [done|done|]. intros ?? []%elem_of_nil. }
  apply NoDup_cons in Hnd as [Hname Hnd].
  assert (∃ v h1, init_step rec self h (name, i) = setattr self name v h1 ∧
            h ⊆ h1 ∧ (∀ a, i = InitAtom a → v = VAtom a)) as (v & h1 & -> & Hsub & Hv).
  { unfold init_step; simpl. destruct i as [a| |c'].
    - exists (VAtom a), h. split_and!; [done|done|]. by intros ? [= ->].
    - exists (VList []), h. done.
    - destruct (rec c' h) as [x h1] eqn:Hr. apply Hrec in Hr as (_ & Hsub & _).
      exists (VObj x), h1. done. }
  assert (h1 !! self = Some (Object c A)) as Hself1
    by (eapply lookup_weaken; eauto).
  destruct (IH (setattr self name v h1) (<[name := v]> A) Hnd) as (Hold & A' & HA' & Hkeep & Hatoms).
  { by apply setattr_lookup. }
  split.
  - intros y o Hy Hyo. apply Hold; [done|]. rewrite setattr_lookup_ne; [|done].
    eapply lookup_weaken; eauto.
  - exists A'. split_and!; [done|..].
    + intros n Hn. apply not_elem_of_cons in Hn as [Hn1 Hn2].
      rewrite Hkeep; [|done]. by rewrite lookup_insert_ne.
    + intros n a [[= ? ?]|Hin]%elem_of_cons; [subst|by apply Hatoms].
      rewrite Hkeep; [|done]. rewrite lookup_insert_eq. by rewrite (Hv a eq_refl).
Qed.

Lemma alloc_constructs : constructs alloc.
Proof.
  intros c h x h' [Hx ->]%alloc_fresh. split_and!; [done|..].
  - by apply insert_subseteq.
  - exists ∅. by rewrite lookup_insert_eq.
Qed.

Lemma new_unfold depth c h :
  new depth c h =
  (let '(self, h1) := alloc c h in
   (self, foldl (init_step (match depth with O => alloc | S d => new d end)
                           self) h1 (init_fields c))).
Proof. by destruct depth. Qed.

Lemma new_spec depth : ∀ c h x h',
  (∀ c, NoDup (init_fields c).*1) →
  new depth c h = (x, h') →
  h !! x = None ∧ h ⊆ h' ∧
  ∃ A, h' !! x = Some (Object c A) ∧
       (∀ name a, (name, InitAtom a) ∈ init_fields c →
                  A !! name = Some (VAtom a)) ∧
       (∀ name, name ∉ (init_fields c).*1 → A !! name = None).
Proof.
  induction depth as [|depth IH]; intros c h x h' Hnd; rewrite new_unfold;
    destruct (alloc c h) as [self h1] eqn:Ha; intros [= <- <-];
    apply alloc_fresh in Ha as [Hx ->].
  - destruct (init_steps_spec alloc self c (init_fields c) alloc_constructs
               (<[self := Object c ∅]> h) ∅ (Hnd c))
      as (Hold & A' & HA' & Hno & Hat).
    { by rewrite lookup_insert_eq. }
    split_and!; [done| |by eauto].
    apply map_subseteq_spec. intros y o Hy. apply Hold; [congruence|].
    rewrite lookup_insert_ne; [done|congruence].
  - assert (constructs (new depth)) as Hc.
    { intros c' g y g' Hn. apply IH in Hn as (? & ? & A & ? & _); eauto. }
    destruct (init_steps_spec (new depth) self c (init_fields c) Hc
               (<[self := Object c ∅]> h) ∅ (Hnd c))
      as (Hold & A' & HA' & Hno & Hat).
    { by rewrite lookup_insert_eq. }
    split_and!; [done| |by eauto].
    apply map_subseteq_spec. intros y o Hy. apply Hold; [congruence|].
    rewrite lookup_insert_ne; [done|congruence].
Qed.

Lemma init_fields_NoDup c : NoDup (init_fields c).*1.
Proof. destruct c; by_compute. Qed.

Lemma construct_spec c h x h' :
  construct c h = (x, h') →
  h !! x = None ∧ h ⊆ h' ∧
  ∃ A, h' !! x = Some (Object c A) ∧
       (∀ name a, (name, InitAtom a) ∈ init_fields c →
                  A !! name = Some (VAtom a)) ∧
       (∀ name, name ∉ (init_fields c).*1 → A !! name = None).
Proof. apply new_spec, init_fields_NoDup. Qed.

Global Opaque construct.

(** ** Facts about the class tables *)

Lemma cls_map_lookup c : c ≠ AstNode → cls_map !! class_name c = Some c.
Proof.
  destruct c; intros Hc; first [congruence | vm_compute; reflexivity].
Qed.

Lemma class_name_not_Ref c : class_name c ≠ "Ref".
Proof. by destruct c. Qed.

Lemma slots_NoDup c : NoDup (slots c).
Proof. destruct c; by_compute. Qed.

Lemma slots_not_reserved c name :
  name ∈ slots c → name ≠ "class" ∧ name ≠ "_id".
Proof.
  intros Hin. split; intros ->; revert Hin; destruct c; by_compute.
Qed.

(** ** [to_dict]: monotonicity in the fuel and in [visited] *)

Lemma to_dict_items_mono (rec rec' : value → gset Z → option (data * gset Z)) :
  (∀ v vis r, rec v vis = Some r → rec' v vis = Some r) →
  ∀ l vis r, to_dict_items rec l vis = Some r →
             to_dict_items rec' l vis = Some r.
Proof.
  intros Hrec. induction l as [|v l IH]; intros vis r; [done|].
  rewrite !to_dict_items_cons.
  destruct (rec v vis) as [[d vis1]|] eqn:Hv; [|done]. simpl.
  rewrite (Hrec _ _ _ Hv). simpl.
  destruct (to_dict_items rec l vis1) as [[ds vis2]|] eqn:Hl; [|done].
  by rewrite (IH _ _ Hl).
Qed.

Lemma to_dict_slots_mono (rec rec' : value → gset Z → option (data * gset Z)) o :
  (∀ v vis r, rec v vis = Some r → rec' v vis = Some r) →
  ∀ names d vis r, to_dict_slots rec o names d vis = Some r →
                   to_dict_slots rec' o names d vis = Some r.
Proof.
  intros Hrec. induction names as [|n names IH]; intros d vis r; [done|].
  rewrite !to_dict_slots_cons.
  destruct (rec (getattr o n) vis) as [[s vis1]|] eqn:Hv; [|done]. simpl.
  rewrite (Hrec _ _ _ Hv). simpl. apply IH.
Qed.

Lemma to_dict_fuel_S fuel h : ∀ obj vis r,
  to_dict fuel h obj vis = Some r → to_dict (S fuel) h obj vis = Some r.
Proof.
  induction fuel as [|fuel IH]; intros obj vis r; [done|].
  rewrite !to_dict_S.
  destruct obj as [a|l|x]; [done|..].
  - destruct (to_dict_items (to_dict fuel h) l vis) as [[ds vis1]|] eqn:Hl;
      [|done].
    by rewrite (to_dict_items_mono _ _ IH _ _ _ Hl).
  - destruct (h !! x) as [o|]; [|done]. simpl in *.
    destruct (decide (x ∈ vis)); [done|].
    destruct (to_dict_slots (to_dict fuel h) o (slots (cls o)) _ _)
      as [[d vis1]|] eqn:Hs; [|done].
    by rewrite (to_dict_slots_mono _ _ _ IH _ _ _ _ Hs).
Qed.

Lemma to_dict_fuel_mono fuel fuel' h obj vis r :
  (fuel ≤ fuel')%nat →
  to_dict fuel h obj vis = Some r → to_dict fuel' h obj vis = Some r.
Proof.
  intros Hle. induction Hle as [|k Hle IH]; [done|].
  intros Hr. by apply to_dict_fuel_S, IH.
Qed.

(** [d[k] = v] appends when [k] is a new key, which is the case for every
    slot name. *)
Lemma dict_set_fresh k v d : k ∉ d.*1 → dict_set k v d = d ++ [(k, v)].
Proof.
  induction d as [|[k' v'] d IH]; simpl; [done|].
  intros [Hk Hd]%not_elem_of_cons. rewrite decide_False; [|done].
  by rewrite IH.
Qed.

Lemma to_dict_slots_spec rec o : ∀ names d vis d' vis',
  NoDup names → (∀ n, n ∈ names → n ∉ d.*1) →
  to_dict_slots rec o names d vis = Some (d', vis') →
  ∃ ss, to_dict_items rec (getattr o <$> names) vis = Some (ss, vis') ∧
        d' = d ++ zip names ss.
Proof.
  induction names as [|n names IH]; intros d vis d' vis' Hnd Hfresh.
  { rewrite to_dict_slots_nil. intros [= <- <-]. exists [].
    by rewrite app_nil_r. }
  apply NoDup_cons in Hnd as [Hn Hnd].
  rewrite to_dict_slots_cons, fmap_cons, to_dict_items_cons.
  destruct (rec (getattr o n) vis) as [[s vis1]|] eqn:Hv; [|done]. simpl.
  rewrite dict_set_fresh; [|apply Hfresh; by left].
  intros Hrest. apply IH in Hrest as (ss & Hss & ->); [|done|].
  - exists (s :: ss). simpl. rewrite Hss. simpl.
    by rewrite <- app_assoc.
  - intros n' Hn'. rewrite fmap_app. simpl.
    rewrite elem_of_app, list_elem_of_singleton.
    intros [?| ->]; [|done]. eapply Hfresh; [by right|done].
Qed.

(** ** The round trip [load_dict (to_dict ast)] *)

(** Induction on values that reaches into lists. *)
Lemma value_ind' (P : value → Prop) :
  (∀ a, P (VAtom a)) →
  (∀ l, Forall P l → P (VList l)) →
  (∀ x, P (VObj x)) →
  ∀ v, P v.
Proof.
  intros Ha Hl Ho. fix IH 1. intros [a|l|x]; [apply Ha| |apply Ho].
  apply Hl. induction l as [|v l IHl]; constructor; [apply IH|apply IHl].
Qed.

Lemma val_rel_impl (R R' : Z → Z → Prop) v : ∀ v',
  (∀ x x', R x x' → R' x x') → val_rel R v v' → val_rel R' v v'.
Proof.
  induction v as [a|l IH|x] using value_ind'; intros v' HR Hr.
  - inversion Hr; subst. constructor.
  - inversion Hr as [|l0 l' Hf|]; subst. constructor. clear Hr.
    revert l' Hf. induction IH as [|v l Hv _ IHl]; intros l' Hf;
      inversion Hf; subst; constructor; auto.
  - inversion Hr; subst. constructor. auto.
Qed.

Lemma val_rel_mono S S' m m' v v' :
  S ⊆ S' → (∀ x, x ∈ S → m' !! x = m !! x) →
  val_rel (via S m) v v' → val_rel (via S' m') v v'.
Proof.
  intros HS Hm. apply val_rel_impl. intros x x' [Hx Hx']. split; [auto|].
  by rewrite Hm.
Qed.

Section roundtrip.
(** The heap [to_dict] reads. *)
Context (h : heap).

Lemma loaded_mono S S' m m' (g g' : heap) x x' :
  S ⊆ S' → (∀ x, x ∈ S → m' !! x = m !! x) →
  (∀ o', g !! x' = Some o' → g' !! x' = Some o') →
  loaded h S m g x x' → loaded h S' m' g' x x'.
Proof.
  intros HS Hm Hg (o & o' & Ho & Ho' & Hc & Hsl & Hdf & Hno).
  exists o, o'. split_and!; auto.
  intros name Hn. eapply val_rel_mono; eauto.
Qed.

Lemma ext_empty g g' : ext ∅ g g' ↔ g ⊆ g'.
Proof.
  rewrite map_subseteq_spec. unfold ext. split; intros H y o Hy.
  - specialize (H y o Hy). by rewrite decide_False in H by set_solver.
  - rewrite decide_False by set_solver. auto.
Qed.

Lemma ext_weaken E g g' : ext ∅ g g' → ext E g g'.
Proof.
  intros H y o Hy. specialize (H y o Hy).
  rewrite decide_False in H by set_solver. case_decide; eauto.
Qed.

Lemma ext_None E (g g' : heap) y : ext E g g' → g' !! y = None → g !! y = None.
Proof.
  intros H Hy. destruct (g !! y) as [o|] eqn:Ho; [|done].
  specialize (H y o Ho). case_decide; [|congruence].
  destruct H; congruence.
Qed.

Lemma step_ok_refl E vis m g : step_ok h E vis vis m m g g.
Proof.
  split; try done.
  intros y o Hy. case_decide; eauto.
Qed.

Lemma step_ok_weaken E vis vis' m m' g g' :
  step_ok h ∅ vis vis' m m' g g' → step_ok h E vis vis' m m' g g'.
Proof. intros []. split; auto using ext_weaken. Qed.

Lemma step_ok_cover E vis vis' m m' g g' :
  cover vis m → step_ok h E vis vis' m m' g g' → cover vis' m'.
Proof.
  intros Hc [] x Hx. destruct (decide (x ∈ vis)) as [Hv|Hv].
  - rewrite step_map0 by done. auto.
  - destruct (step_new0 x Hx Hv) as (x' & -> & _). eauto.
Qed.

Lemma step_ok_trans E vis vis1 vis2 m m1 m2 (g g1 g2 : heap) :
  (∀ y, y ∈ E → is_Some (g !! y)) →
  step_ok h E vis vis1 m m1 g g1 →
  step_ok h E vis1 vis2 m1 m2 g1 g2 →
  step_ok h E vis vis2 m m2 g g2.
Proof.
  intros HE [Hv1 Hm1 Hg1 Hn1 Hi1] [Hv2 Hm2 Hg2 Hn2 Hi2].
  assert (∀ x, x ∈ vis1 → x ∉ vis →
            ∃ x', m2 !! x = Some x' ∧ g !! x' = None ∧
                  is_Some (g1 !! x') ∧ loaded h vis2 m2 g2 x x') as Hold.
  { intros x Hx1 Hx. destruct (Hn1 x Hx1 Hx) as (x' & Hx' & Hfr & Hld).
    exists x'. rewrite Hm2 by done. split_and!; [done..| |].
    { destruct Hld as (? & ? & _ & -> & _). eauto. }
    eapply loaded_mono; [done|done| |done].
    intros o' Ho'. specialize (Hg2 x' o' Ho').
    rewrite decide_False in Hg2; [done|].
    intros Hin. destruct (HE _ Hin). congruence. }
  split.
  - set_solver.
  - intros x Hx. rewrite Hm2 by set_solver. auto.
  - intros y o Hy. specialize (Hg1 y o Hy). case_decide.
    + destruct Hg1 as [o1 Ho1]. specialize (Hg2 y o1 Ho1).
      by rewrite decide_True in Hg2.
    + specialize (Hg2 y o Hg1). by rewrite decide_False in Hg2.
  - intros x Hx2 Hx. destruct (decide (x ∈ vis1)) as [Hx1|Hx1].
    + destruct (Hold x Hx1 Hx) as (x' & ? & ? & _ & ?). eauto.
    + destruct (Hn2 x Hx2 Hx1) as (x' & ? & Hfr & ?).
      exists x'. split_and!; [done| |done]. by eapply ext_None.
  - intros x y x' Hx2 Hx Hy2 Hy Hmx Hmy.
    destruct (decide (x ∈ vis1)) as [Hx1|Hx1],
             (decide (y ∈ vis1)) as [Hy1|Hy1].
    + rewrite Hm2 in Hmx, Hmy by done. eauto.
    + destruct (Hold x Hx1 Hx) as (x1 & Hx1' & _ & [? Hsome] & _).
      destruct (Hn2 y Hy2 Hy1) as (y1 & Hy1' & Hnone & _).
      congruence.
    + destruct (Hold y Hy1 Hy) as (y1 & Hy1' & _ & [? Hsome] & _).
      destruct (Hn2 x Hx2 Hx1) as (x1 & Hx1' & Hnone & _).
      congruence.
    + eauto.
Qed.

Lemma items_loop rec :
  (∀ v vis d vis', rec v vis = Some (d, vis') → loads h v vis d vis') →
  ∀ vs vis ds vis', to_dict_items rec vs vis = Some (ds, vis') →
  ∀ m g, cover vis m →
    ∃ vs' m' g',
      load_items load_dict ds (m, g) = Some (vs', (m', g')) ∧
      step_ok h ∅ vis vis' m m' g g' ∧ Forall2 (val_rel (via vis' m')) vs vs'.
Proof.
  intros Hrec. induction vs as [|v vs IH]; intros vis ds vis'.
  - rewrite to_dict_items_nil. intros [= <- <-] m g Hc. exists [], m, g.
    rewrite load_items_nil. split_and!; [done|apply step_ok_refl|constructor].
  - rewrite to_dict_items_cons.
    destruct (rec v vis) as [[d vis1]|] eqn:Hv; [|done]. simpl.
    destruct (to_dict_items rec vs vis1) as [[ds' vis2]|] eqn:Hvs; [|done].
    simpl. intros [= <- <-] m g Hc.
    destruct (Hrec _ _ _ _ Hv m g Hc) as (v' & m1 & g1 & Hl1 & Hs1 & Hr1).
    destruct (IH _ _ _ Hvs m1 g1) as (vs' & m2 & g2 & Hl2 & Hs2 & Hr2).
    { eapply step_ok_cover; eauto. }
    exists (v' :: vs'), m2, g2. rewrite load_items_cons, Hl1. simpl.
    rewrite Hl2. simpl. split_and!; [done| |].
    + eapply step_ok_trans; eauto. set_solver.
    + constructor; [|done].
      eapply val_rel_mono; [apply Hs2|apply Hs2|done].
Qed.

Lemma step_ok_setattr res name v vis m (g : heap) :
  step_ok h {[res]} vis vis m m g (setattr res name v g).
Proof.
  split; try done.
  intros y o Hy. case_decide as Hin.
  - apply elem_of_singleton in Hin as ->. destruct o as [c A].
    erewrite setattr_lookup by done. eauto.
  - rewrite setattr_lookup_ne by set_solver. done.
Qed.

Lemma fields_loop rec :
  (∀ v vis d vis', rec v vis = Some (d, vis') → loads h v vis d vis') →
  ∀ names vs vis ss vis',
    to_dict_items rec vs vis = Some (ss, vis') →
    length names = length vs →
    NoDup names →
    (∀ n, n ∈ names → n ≠ "class" ∧ n ≠ "_id") →
  ∀ m (g : heap) res c A, cover vis m → g !! res = Some (Object c A) →
    ∃ m' (g' : heap) A',
      load_fields load_dict res (zip names ss) (m, g) = Some (m', g') ∧
      step_ok h {[res]} vis vis' m m' g g' ∧
      g' !! res = Some (Object c A') ∧
      (∀ n, n ∉ names → A' !! n = A !! n) ∧
      (∀ i n v, names !! i = Some n → vs !! i = Some v →
         ∃ v', A' !! n = Some v' ∧ val_rel (via vis' m') v v').
Proof.
  intros Hrec. induction names as [|n names IH];
    intros [|v vs] vis ss vis' Hd Hlen Hnd Hres; try done.
  - rewrite to_dict_items_nil in Hd. injection Hd as <- <-.
    intros m g res c A Hc Hg. exists m, g, A. simpl.
    rewrite load_fields_nil. split_and!; [done|apply step_ok_refl|done..].
  - rewrite to_dict_items_cons in Hd.
    destruct (rec v vis) as [[d vis1]|] eqn:Hv; [|done]. simpl in Hd.
    destruct (to_dict_items rec vs vis1) as [[ss' vis2]|] eqn:Hvs; [|done].
    simpl in Hd. injection Hd as <- <-.
    apply NoDup_cons in Hnd as [Hn Hnd].
    intros m g res c A Hc Hg.
    destruct (Hrec _ _ _ _ Hv m g Hc) as (v' & m1 & g1 & Hl1 & Hs1 & Hr1).
    assert (g1 !! res = Some (Object c A)) as Hg1.
    { eapply lookup_weaken; [done|]. apply ext_empty, Hs1. }
    destruct (IH vs vis1 ss' vis2 Hvs) with
      (m := m1) (g := setattr res n v' g1) (res := res) (c := c)
      (A := <[n := v']> A)
      as (m2 & g2 & A2 & Hl2 & Hs2 & Hg2 & Hkeep & Hset).
    { simpl in Hlen. lia. }
    { done. }
    { intros ??. apply Hres. by right. }
    { eapply step_ok_cover; eauto. }
    { by apply setattr_lookup. }
    exists m2, g2, A2. simpl. rewrite load_fields_cons.
    rewrite decide_False.
    2:{ destruct (Hres n) as [??]; [by left|]. intros [?|?]; done. }
    rewrite Hl1. simpl. split_and!; [done| |done| |].
    + eapply step_ok_trans; [| |exact Hs2].
      { intros y ->%elem_of_singleton. eauto. }
      eapply step_ok_trans; [|by apply step_ok_weaken|].
      { intros y ->%elem_of_singleton. eauto. }
      apply step_ok_setattr.
    + intros n' [Hn1 Hn2]%not_elem_of_cons. rewrite Hkeep by done.
      by rewrite lookup_insert_ne.
    + intros [|i] n' w Hi Hw; simpl in *.
      * injection Hi as <-. injection Hw as <-. exists v'.
        rewrite Hkeep by done. rewrite lookup_insert_eq. split; [done|].
        eapply val_rel_mono; [apply Hs2|apply Hs2|done].
      * eauto.
Qed.

(** Every object of the heap is an instance of a proper subclass of
    [AstNode], as the nodes the pipeline builds are. *)
Context (Hcls : ∀ x o, h !! x = Some o → cls o ≠ AstNode).

Lemma to_dict_loads fuel : ∀ v vis d vis',
  to_dict fuel h v vis = Some (d, vis') → loads h v vis d vis'.
Proof.
  induction fuel as [|fuel IH]; intros v vis d vis'; [done|].
  rewrite to_dict_S. destruct v as [a|l|x].
  - intros [= <- <-] m g Hc. exists (VAtom a), m, g.
    split_and!; [done|apply step_ok_refl|constructor].
  - destruct (to_dict_items _ l vis) as [[ds vis1]|] eqn:Hl; [|done].
    simpl. intros [= <- <-] m g Hc.
    destruct (items_loop _ IH _ _ _ _ Hl m g Hc)
      as (vs' & m' & g' & Hld & Hs & Hr).
    exists (VList vs'), m', g'. rewrite load_dict_DList, Hld. simpl.
    split_and!; [done|done|by constructor].
  - destruct (h !! x) as [o|] eqn:Ho; [|done]. simpl.
    case_decide as Hx.
    + intros [= <- <-] m g Hc. destruct (Hc x Hx) as [x' Hx'].
      exists (VObj x'), m, g. rewrite load_dict_DDict. simpl.
      rewrite Hx'. simpl.
      split_and!; [done|apply step_ok_refl|by constructor].
    + destruct (to_dict_slots _ o _ _ _) as [[d0 vis1]|] eqn:Hs; [|done].
      simpl. intros [= <- <-].
      apply to_dict_slots_spec in Hs as (ss & Hitems & ->);
        [|apply slots_NoDup|].
      2:{ intros n Hn. apply slots_not_reserved in Hn as [??].
          simpl. rewrite !not_elem_of_cons.
          split_and!; [done|done|apply not_elem_of_nil]. }
      intros m g Hc. rewrite load_dict_DDict. simpl.
      rewrite decide_False by apply class_name_not_Ref.
      rewrite cls_map_lookup by eauto. simpl.
      destruct (construct (cls o) g) as [res g0] eqn:Hcons.
      apply construct_spec in Hcons
        as (Hfresh & Hsub & A & Hres & Hat & Hno).
      rewrite !load_fields_cons.
      rewrite decide_True by auto. rewrite decide_True by auto.
      destruct (fields_loop _ IH (slots (cls o)) (getattr o <$> slots (cls o))
                  ({[x]} ∪ vis) ss vis1 Hitems)
        with (m := <[x := res]> m) (g := g0) (res := res) (c := cls o)
             (A := A)
        as (m' & g' & A' & Hl & Hstep & Hg' & Hkeep & Hset).
      { by rewrite length_fmap. }
      { apply slots_NoDup. }
      { apply slots_not_reserved. }
      { intros y [->%elem_of_singleton|Hy]%elem_of_union.
        - rewrite lookup_insert_eq. eauto.
        - rewrite lookup_insert_ne by set_solver. auto. }
      { done. }
      rewrite Hl. simpl. exists (VObj res), m', g'.
      destruct Hstep as [Hv1 Hm1 Hg1 Hn1 Hi1].
      assert (m' !! x = Some res) as Hmx.
      { rewrite Hm1 by set_solver. by rewrite lookup_insert_eq. }
      assert (loaded h vis1 m' g' x res) as Hloaded.
      { exists o, (Object (cls o) A'). split_and!; [done|done|done|..].
        - intros name Hn. apply list_elem_of_lookup in Hn as [i Hi].
          destruct (Hset i name (getattr o name)) as (v' & HA & Hrel);
            [done|by rewrite list_lookup_fmap, Hi|].
          unfold getattr at 2. simpl. by rewrite HA.
        - intros name a Hn Hin. simpl. rewrite Hkeep by done. auto.
        - intros name Hn Hin. simpl. rewrite Hkeep by done. auto. }
      split_and!; [done| |constructor; split; [set_solver|done]].
      split.
      * set_solver.
      * intros y Hy. rewrite Hm1 by set_solver.
        rewrite lookup_insert_ne by set_solver. done.
      * apply ext_empty, map_subseteq_spec. intros y oy Hy.
        assert (g0 !! y = Some oy) as Hy0 by (eapply lookup_weaken; eauto).
        specialize (Hg1 y oy Hy0). rewrite decide_False in Hg1; [done|].
        intros ->%elem_of_singleton. congruence.
      * intros y Hy' Hy. destruct (decide (y = x)) as [->|Hne].
        { exists res. done. }
        destruct (Hn1 y Hy') as (y' & ? & Hnone & ?); [set_solver|].
        exists y'. split_and!; [done| |done].
        destruct (g !! y') eqn:E; [|done].
        eapply lookup_weaken in E; [|done]. congruence.
      * intros y z y' Hy2 Hy Hz2 Hz Hmy Hmz.
        destruct (decide (y = x)) as [->|Hny],
                 (decide (z = x)) as [->|Hnz]; [done|..].
        -- destruct (Hn1 z Hz2) as (z' & ? & Hnone & ?); [set_solver|].
           congruence.
        -- destruct (Hn1 y Hy2) as (z' & ? & Hnone & ?); [set_solver|].
           congruence.
        -- eapply Hi1; eauto; set_solver.
Qed.
End roundtrip.

(** ** [to_dict] returns on every well-formed heap *)

Section total.
Context (h : heap).

Lemma size_visited_mono (vis vis' : gset Z) n :
  vis ⊆ vis' → (size (dom h ∖ vis) ≤ n)%nat →
  (size (dom h ∖ vis') ≤ n)%nat.
Proof.
  intros Hs Hn. etrans; [|exact Hn]. apply subseteq_size. set_solver.
Qed.

Lemma items_returns n l :
  Forall (returns h n) l →
  ∀ vis, (size (dom h ∖ vis) ≤ n)%nat → forallb (value_ok h) l →
    ∃ fuel ds vis',
      to_dict_items (to_dict fuel h) l vis = Some (ds, vis') ∧ vis ⊆ vis'.
Proof.
  induction 1 as [|v l Hv _ IH]; intros vis Hn Hok.
  - exists O, [], vis. by rewrite to_dict_items_nil.
  - simpl in Hok. apply andb_True in Hok as [Hok1 Hok2].
    destruct (Hv vis Hn Hok1) as (f1 & d & vis1 & Hd & Hs1).
    destruct (IH vis1) as (f2 & ds & vis2 & Hds & Hs2);
      [by eapply size_visited_mono|exact Hok2|].
    exists (f1 `max` f2)%nat, (d :: ds), vis2. split; [|set_solver].
    rewrite to_dict_items_cons.
    rewrite (to_dict_fuel_mono f1 _ _ _ _ _ (Nat.le_max_l f1 f2) Hd). simpl.
    rewrite (to_dict_items_mono _ (to_dict (f1 `max` f2) h)
               (λ v vis r, to_dict_fuel_mono f2 _ h v vis r
                             (Nat.le_max_r f1 f2)) _ _ _ Hds).
    done.
Qed.

Lemma slots_returns n o names :
  (∀ v, returns h n v) →
  ∀ d vis, (size (dom h ∖ vis) ≤ n)%nat →
    Forall (λ name, value_ok h (getattr o name)) names →
    ∃ fuel d' vis',
      to_dict_slots (to_dict fuel h) o names d vis = Some (d', vis') ∧
      vis ⊆ vis'.
Proof.
  intros Hret. induction names as [|name names IH]; intros d vis Hn Hok.
  - exists O, d, vis. by rewrite to_dict_slots_nil.
  - apply Forall_cons in Hok as [Hok1 Hok2].
    destruct (Hret _ vis Hn Hok1) as (f1 & s & vis1 & Hd & Hs1).
    destruct (IH (dict_set name s d) vis1) as (f2 & d' & vis2 & Hds & Hs2);
      [by eapply size_visited_mono|done|].
    exists (f1 `max` f2)%nat, d', vis2. split; [|set_solver].
    rewrite to_dict_slots_cons.
    rewrite (to_dict_fuel_mono f1 _ _ _ _ _ (Nat.le_max_l f1 f2) Hd). simpl.
    by rewrite (to_dict_slots_mono _ (to_dict (f1 `max` f2) h) o
                  (λ v vis r, to_dict_fuel_mono f2 _ h v vis r
                                (Nat.le_max_r f1 f2)) _ _ _ _ Hds).
Qed.

Lemma to_dict_returns : heap_ok h → ∀ n v, returns h n v.
Proof.
  intros Hh n. induction n as [n IHn] using lt_wf_ind.
  induction v as [a|l IH|x] using value_ind'; intros vis Hn Hok.
  - exists 1%nat, (DAtom a), vis. done.
  - destruct (items_returns n l IH vis Hn Hok) as (f & ds & vis' & Hds & Hs).
    exists (S f), (DList ds), vis'. rewrite to_dict_S, Hds. done.
  - simpl in Hok. apply bool_decide_unpack in Hok as [o Ho].
    destruct (decide (x ∈ vis)) as [Hx|Hx].
    { exists 1%nat. eexists _, vis. rewrite to_dict_S, Ho. simpl.
      by rewrite decide_True. }
    assert (size (dom h ∖ ({[x]} ∪ vis)) < size (dom h ∖ vis))%nat as Hlt.
    { apply subset_size. apply elem_of_dom_2 in Ho. set_solver. }
    destruct n as [|n]; [lia|].
    destruct (Hh x o Ho) as [_ Hslots].
    destruct (slots_returns n o (slots (cls o)) (IHn n (Nat.lt_succ_diag_r n))
                [("class", DAtom (AStr (class_name (cls o))));
                 ("_id", DAtom (AInt x))] ({[x]} ∪ vis))
      as (f & d' & vis' & Hd & Hs); [lia|done|].
    exists (S f), (DDict d'), vis'. rewrite to_dict_S, Ho. simpl.
    rewrite decide_False by done. rewrite Hd. simpl. split; [done|set_solver].
Qed.
End total.

(** ** C1 and C10 *)

Lemma to_dict_load_dict (h : heap) (root : value) :
  heap_ok h → value_ok h root →
  ∃ fuel d visited,
    to_dict fuel h root ∅ = Some (d, visited) ∧
    ∀ mapping, ∃ root' mapping' h',
      load_dict d (mapping, h) = Some (root', (mapping', h')) ∧
      step_ok h ∅ ∅ visited mapping mapping' h h' ∧
      val_rel (via visited mapping') root root'.
Proof.
  intros Hh Hroot.
  destruct (to_dict_returns h Hh (size (dom h)) root ∅)
    as (fuel & d & visited & Hd & _); [apply subseteq_size; set_solver|done|].
  exists fuel, d, visited. split; [done|]. intros mapping.
  eapply to_dict_loads in Hd; [|intros x o Ho; by destruct (Hh x o Ho)].
  apply (Hd mapping h). intros x []%not_elem_of_empty.
Qed.

(** C1, amended: on every heap of AST nodes [to_dict] returns, [load_dict]
    loads what it returned, whatever the shared [mapping] held before, and
    the loaded AST consists of new nodes and equals the original on the
    class and the [_slots] fields of every node, under a one-to-one
    correspondence of nodes: fields that shared a node share its copy. *)
Theorem to_dict_load_dict_roundtrip (h : heap) (root : value) :
  heap_ok h → value_ok h root →
  ∃ fuel d visited,
    to_dict fuel h root ∅ = Some (d, visited) ∧
    ∀ mapping, ∃ root' mapping' h',
      load_dict d (mapping, h) = Some (root', (mapping', h')) ∧
      h ⊆ h' ∧
      ∃ R, val_rel R root root' ∧ bisimulation slot_fields h' R ∧
           one_to_one R ∧ (∀ x x', R x x' → h !! x' = None).
Proof.
  intros Hh Hroot.
  destruct (to_dict_load_dict h root Hh Hroot) as (fuel & d & visited & Hd & Hl).
  exists fuel, d, visited. split; [done|]. intros mapping.
  destruct (Hl mapping) as (root' & mapping' & h' & Hld & [_ _ Hg Hn Hi] & Hr).
  exists root', mapping', h'. split_and!; [done|by apply ext_empty|].
  exists (via visited mapping'). split_and!; [done|..].
  - intros x x' [Hx Hx'].
    destruct (Hn x Hx) as (x1 & Hx1 & _ & o & o' & Ho & Ho' & Hc & Hs & _);
      [set_solver|].
    assert (x1 = x') as -> by congruence.
    exists o, o'. split_and!; [|done..].
    eapply lookup_weaken; [done|]. by apply ext_empty.
  - split.
    + intros x x' y' [_ ?] [_ ?]. congruence.
    + intros x y x' [Hx ?] [Hy ?]. eapply Hi; eauto; set_solver.
  - intros x x' [Hx Hx'].
    destruct (Hn x Hx) as (x1 & Hx1 & ? & _); [set_solver|]. congruence.
Qed.

Lemma ast_local_x_ok : heap_ok ast_local_x.
Proof. by_compute. Qed.

Lemma to_dict_load_dict_roundtrip_witness :
  ∃ fuel d visited,
    to_dict fuel ast_local_x (VObj 100) ∅ = Some (d, visited) ∧
    ∀ mapping, ∃ root' mapping' h',
      load_dict d (mapping, ast_local_x) = Some (root', (mapping', h')) ∧
      ast_local_x ⊆ h' ∧
      ∃ R, val_rel R (VObj 100) root' ∧ bisimulation slot_fields h' R ∧
           one_to_one R ∧ (∀ x x', R x x' → ast_local_x !! x' = None).
Proof.
  apply (to_dict_load_dict_roundtrip ast_local_x (VObj 100)).
  - by_compute.
  - vm_compute. exact I.
Defined.

(** C1 as stated fails: the AST of [local x = 1] and its loaded copy are
    not structurally equal, under no correspondence of nodes.  The
    assignment is a local definition ([type] 0); its copy has the [type]
    the constructor sets, -1. *)
Lemma roundtrip_not_structurally_equal :
  ∃ d visited root' mapping' h',
    to_dict 10 ast_local_x (VObj 100) ∅ = Some (d, visited) ∧
    load_dict d (∅, ast_local_x) = Some (root', (mapping', h')) ∧
    ¬ ∃ R, val_rel R (VObj 100) root' ∧ bisimulation all_fields h' R.
Proof.
  exists dict_local_x.1, dict_local_x.2, loaded_local_x.1,
    loaded_local_x.2.1, loaded_local_x.2.2.
  split_and!; [by vm_compute..|].
  intros (R & Hroot & HR). vm_compute in Hroot.
  inversion Hroot as [| |? ? H0]; subst. clear Hroot.
  destruct (HR _ _ H0) as (o & o' & Ho & Ho' & _ & Hf).
  vm_compute in Ho, Ho'. injection Ho as <-. injection Ho' as <-.
  specialize (Hf "statements" I). vm_compute in Hf.
  inversion Hf as [| |? ? H1]; subst. clear Hf.
  destruct (HR _ _ H1) as (o & o' & Ho & Ho' & _ & Hf).
  vm_compute in Ho, Ho'. injection Ho as <-. injection Ho' as <-.
  specialize (Hf "contents" I). vm_compute in Hf.
  inversion Hf as [|? ? Hl|]; subst. clear Hf.
  inversion Hl as [|? ? ? ? H2 _]; subst. clear Hl.
  inversion H2 as [| |? ? H3]; subst. clear H2.
  destruct (HR _ _ H3) as (o & o' & Ho & Ho' & _ & Hf).
  vm_compute in Ho, Ho'. injection Ho as <-. injection Ho' as <-.
  specialize (Hf "type" I). vm_compute in Hf. inversion Hf.
Qed.

Lemma Block_fields name :
  name ∉ slots Block → name ≠ "warpins_count" →
  name ∉ (init_fields Block).*1.
Proof.
  simpl. rewrite !not_elem_of_cons. intros (?&?&?&?&?&?&?) ?.
  split_and!; first [done | apply not_elem_of_nil].
Qed.

(** C10: serialising a [Block] and loading it back gives a [Block] whose
    [_slots] fields are copies of the original ones, whose [warpins_count]
    is the constructor's 0 whatever the original held, and which has no
    further field. *)
Theorem Block_roundtrip_resets_warpins_count (h : heap) (x : Z) (o : object) :
  heap_ok h → h !! x = Some o → cls o = Block →
  ∃ fuel d visited,
    to_dict fuel h (VObj x) ∅ = Some (d, visited) ∧
    ∀ mapping, ∃ x' o' mapping' h',
      load_dict d (mapping, h) = Some (VObj x', (mapping', h')) ∧
      h' !! x' = Some o' ∧ cls o' = Block ∧
      (∀ name, name ∈ slots Block →
         val_rel (via visited mapping') (getattr o name) (getattr o' name)) ∧
      attrs o' !! "warpins_count" = Some (VAtom (AInt 0)) ∧
      (∀ name, name ∉ slots Block → name ≠ "warpins_count" →
         attrs o' !! name = None).
Proof.
  intros Hh Ho Hc.
  destruct (to_dict_load_dict h (VObj x) Hh) as (fuel & d & visited & Hd & Hl).
  { simpl. apply bool_decide_pack. eauto. }
  exists fuel, d, visited. split; [done|]. intros mapping.
  destruct (Hl mapping) as (root' & mapping' & h' & Hld & [_ _ _ Hn _] & Hr).
  inversion Hr as [| |? x' [Hx Hx']]; subst.
  destruct (Hn x Hx) as (x1 & Hx1 & _ & o0 & o' & Ho0 & Ho' & Hc' & Hs & Ha & Hno);
    [set_solver|].
  assert (x1 = x') as -> by congruence.
  assert (o0 = o) as -> by congruence.
  rewrite Hc in *.
  exists x', o', mapping', h'. split_and!; [done..| |].
  - apply Ha; [by_compute|]. simpl. set_solver.
  - intros name ??. apply Hno; [done|]. by apply Block_fields.
Qed.

Lemma ast_self_loop_ok : heap_ok ast_self_loop.
Proof. by_compute. Qed.

Lemma Block_roundtrip_resets_warpins_count_witness :
  getattr (node Block
             [("index", VAtom (AInt 0)); ("warp", VObj 201);
              ("contents", VList []); ("first_address", VAtom (AInt 0));
              ("last_address", VAtom (AInt 1));
              ("warpins_count", VAtom (AInt 1));
              ("loop", VAtom (ABool false))]) "warpins_count"
  = VAtom (AInt 1) ∧
  ∃ fuel d visited,
    to_dict fuel ast_self_loop (VObj 200) ∅ = Some (d, visited) ∧
    ∀ mapping, ∃ x' o' mapping' h',
      load_dict d (mapping, ast_self_loop) = Some (VObj x', (mapping', h')) ∧
      h' !! x' = Some o' ∧ cls o' = Block ∧
      (∀ name, name ∈ slots Block →
         val_rel (via visited mapping')
           (getattr (node Block
              [("index", VAtom (AInt 0)); ("warp", VObj 201);
               ("contents", VList []); ("first_address", VAtom (AInt 0));
               ("last_address", VAtom (AInt 1));
               ("warpins_count", VAtom (AInt 1));
               ("loop", VAtom (ABool false))]) name)
           (getattr o' name)) ∧
      attrs o' !! "warpins_count" = Some (VAtom (AInt 0)) ∧
      (∀ name, name ∉ slots Block → name ≠ "warpins_count" →
         attrs o' !! name = None).
Proof.
  split; [by vm_compute|].
  apply (Block_roundtrip_resets_warpins_count ast_self_loop 200).
  - by_compute.
  - by vm_compute.
  - reflexivity.
Defined.

(** ** Traversal: unfolding equations *)

Lemma visit_items_nil visit st : visit_items visit [] st = Some ([], st).
Proof. done. Qed.

Lemma visit_items_cons visit node nodes st :
  visit_items visit (node :: nodes) st =
  '(t1, st) ← visit node st;
  '(t2, st) ← visit_items visit nodes st;
  Some (t1 ++ t2, st).
Proof. done. Qed.

Lemma run_calls_nil visit self st : run_calls visit self [] st = Some ([], st).
Proof. done. Qed.

Lemma run_calls_Visit visit self field calls st :
  run_calls visit self (Visit field :: calls) st =
  node ← attrs self !! field;
  '(t1, st) ← visit node st;
  '(t2, st) ← run_calls visit self calls st;
  Some (t1 ++ t2, st).
Proof. done. Qed.

Lemma run_calls_VisitList visit self field calls st :
  run_calls visit self (VisitList field :: calls) st =
  nodes ← attrs self !! field;
  match nodes with
  | VList nodes =>
      '(t1, st) ← visit_items visit nodes st;
      '(t2, st) ← run_calls visit self calls st;
      Some (t1 ++ t2, st)
  | _ => None
  end.
Proof. done. Qed.

Lemma _visit_S fuel h visitor node st :
  _visit (S fuel) h visitor node st =
  match node with
  | VObj x =>
      self ← h !! x;
      accept_node (_visit fuel h visitor) visitor x self st
  | _ => None
  end.
Proof. done. Qed.

Global Opaque visit_items run_calls.

(** ** C5 and C6 *)

(** C5: a [FunctionCall] has its [arguments] visited before its
    [function], a [GetItem] its [key] before its [table], whatever the
    visitor does on a visit: what [_accept] yields is the handler call
    for the node, what the visit of the first field yields, then what the
    visit of the second field yields from the state the first left, and
    the leaving handler call. *)
Theorem FunctionCall_GetItem_visit_order
    (visit : value → tc_state → visit_result) (visitor x : Z)
    (self : object) (st : tc_state) :
  (cls self = FunctionCall →
   accept_node visit visitor x self st =
   (arguments ← attrs self !! "arguments";
    '(t1, st1) ← visit arguments st;
    function ← attrs self !! "function";
    '(t2, st2) ← visit function st1;
    Some (VisitNode "visit_function_call" x :: t1 ++ t2
            ++ [LeaveNode "leave_function_call" x], st2))) ∧
  (cls self = GetItem →
   accept_node visit visitor x self st =
   (key ← attrs self !! "key";
    '(t1, st1) ← visit key st;
    table ← attrs self !! "table";
    '(t2, st2) ← visit table st1;
    Some (VisitNode "visit_table_element" x :: t1 ++ t2
            ++ [LeaveNode "leave_table_element" x], st2))).
Proof.
  split; intros Hc; unfold accept_node; rewrite Hc; simpl;
    rewrite run_calls_Visit.
  - destruct (attrs self !! "arguments") as [a|]; [|done]. simpl.
    destruct (visit a st) as [[t1 st1]|]; [|done]. simpl.
    rewrite run_calls_Visit.
    destruct (attrs self !! "function") as [f|]; [|done]. simpl.
    destruct (visit f st1) as [[t2 st2]|]; [|done]. simpl.
    by rewrite run_calls_nil; simpl; rewrite app_nil_r, app_assoc.
  - destruct (attrs self !! "key") as [a|]; [|done]. simpl.
    destruct (visit a st) as [[t1 st1]|]; [|done]. simpl.
    rewrite run_calls_Visit.
    destruct (attrs self !! "table") as [f|]; [|done]. simpl.
    destruct (visit f st1) as [[t2 st2]|]; [|done]. simpl.
    by rewrite run_calls_nil; simpl; rewrite app_nil_r, app_assoc.
Qed.

Lemma FunctionCall_GetItem_visit_order_witness :
  accept_node (_visit 3 ast_call 0) 0 300
    (node FunctionCall
       [("function", VObj 301); ("arguments", VObj 302);
        ("is_method", VAtom (ABool false))]) (TcState ∅ None) =
  Some ([VisitNode "visit_function_call" 300;
         VisitNode "visit_expressions_list" 302;
         VisitNode "visit_constant" 305; LeaveNode "leave_constant" 305;
         LeaveNode "leave_expressions_list" 302;
         VisitNode "visit_table_element" 301;
         VisitNode "visit_constant" 304; LeaveNode "leave_constant" 304;
         VisitNode "visit_identifier" 303; LeaveNode "leave_identifier" 303;
         LeaveNode "leave_table_element" 301;
         LeaveNode "leave_function_call" 300], TcState ∅ None).
Proof.
  rewrite (proj1 (FunctionCall_GetItem_visit_order
                    (_visit 3 ast_call 0) 0 300
                    (node FunctionCall
                       [("function", VObj 301); ("arguments", VObj 302);
                        ("is_method", VAtom (ABool false))])
                    (TcState ∅ None)) eq_refl).
  vm_compute. reflexivity.
Defined.

(** No [_accept] body passes a target field to the visitor. *)
Lemma accept_calls_not_targets c visit_hook calls leave_hook field :
  _accept c = Accept visit_hook calls leave_hook →
  Visit field ∈ calls ∨ VisitList field ∈ calls →
  field ∉ warp_targets c.
Proof.
  destruct c; simpl; intros [= <- <- <-]; rewrite ?elem_of_cons, ?elem_of_nil;
    try (intros _; apply not_elem_of_nil);
    intros H; repeat (destruct H as [H|H]); try done;
    inversion H; subst; by_compute.
Qed.

Lemma visit_items_ext (visit visit' : value → tc_state → visit_result) :
  (∀ node st, visit node st = visit' node st) →
  ∀ nodes st, visit_items visit nodes st = visit_items visit' nodes st.
Proof.
  intros Hv. induction nodes as [|node nodes IH]; intros st; [done|].
  rewrite !visit_items_cons, Hv.
  destruct (visit' node st) as [[t1 st1]|]; [|done]. simpl. by rewrite IH.
Qed.

Lemma run_calls_same (visit visit' : value → tc_state → visit_result)
    (o o' : object) calls :
  (∀ node st, visit node st = visit' node st) →
  (∀ field, Visit field ∈ calls ∨ VisitList field ∈ calls →
            attrs o !! field = attrs o' !! field) →
  ∀ st, run_calls visit o calls st = run_calls visit' o' calls st.
Proof.
  intros Hv. induction calls as [|[field|field] calls IH]; intros Hf st.
  - done.
  - rewrite !run_calls_Visit, <- Hf by (left; left).
    destruct (attrs o !! field) as [node|]; [|done]. simpl. rewrite Hv.
    destruct (visit' node st) as [[t1 st1]|]; [|done]. simpl.
    rewrite IH; [done|]. intros f [?|?]; apply Hf; [left|right]; by right.
  - rewrite !run_calls_VisitList, <- Hf by (right; left).
    destruct (attrs o !! field) as [[| nodes |]|]; try done. simpl.
    rewrite (visit_items_ext _ _ Hv).
    destruct (visit_items visit' nodes st) as [[t1 st1]|]; [|done]. simpl.
    rewrite IH; [done|]. intros f [?|?]; apply Hf; [left|right]; by right.
Qed.

(** [_accept] does not read the target fields. *)
Lemma accept_node_same (visit visit' : value → tc_state → visit_result)
    (visitor x : Z) (o o' : object) (st : tc_state) :
  (∀ node st, visit node st = visit' node st) →
  cls o = cls o' →
  (∀ field, field ∉ warp_targets (cls o) →
            attrs o !! field = attrs o' !! field) →
  accept_node visit visitor x o st = accept_node visit' visitor x o' st.
Proof.
  intros Hv Hc Hf. unfold accept_node. rewrite <- Hc.
  destruct (_accept (cls o)) as [| |vh calls lh] eqn:Ha; [done..|].
  assert (∀ st, run_calls visit o calls st = run_calls visit' o' calls st)
    as Hrun.
  { apply run_calls_same; [done|]. intros field Hin. apply Hf.
    eapply accept_calls_not_targets; eauto. }
  case_decide; [case_decide|]; by rewrite ?Hrun.
Qed.

Lemma _visit_same (h h' : heap) (visitor : Z) fuel :
  same_but_warp_targets h h' →
  ∀ node st, _visit fuel h visitor node st = _visit fuel h' visitor node st.
Proof.
  intros Hsame. induction fuel as [|fuel IH]; intros node st; [done|].
  rewrite !_visit_S. destruct node as [a|l|x]; [done..|].
  destruct (Hsame x) as [o o' [Hc Hf]|]; [|done]. simpl.
  by apply accept_node_same.
Qed.

(** C6: a traversal never follows a warp edge.  [_accept] yields the same
    whatever the target fields of the node hold, and so does a whole
    traversal whatever the target fields of the warps of the AST hold.
    An [UnconditionalWarp] yields its two handler calls and nothing else,
    a [ConditionalWarp] has its [condition] visited, an [IteratorWarp]
    its [variables] and [controls], a [NumericLoopWarp] its [index] and
    [controls]. *)
Theorem warp_targets_not_visited :
  (∀ visit visitor x self self' st,
     cls self = cls self' →
     (∀ field, field ∉ warp_targets (cls self) →
               attrs self !! field = attrs self' !! field) →
     accept_node visit visitor x self st
     = accept_node visit visitor x self' st) ∧
  (∀ h h' visitor fuel node st,
     same_but_warp_targets h h' →
     _visit fuel h visitor node st = _visit fuel h' visitor node st) ∧
  (∀ (visit : value → tc_state → visit_result) visitor x self st,
     match cls self with
     | UnconditionalWarp =>
         accept_node visit visitor x self st =
         Some ([VisitNode "visit_unconditional_warp" x;
                LeaveNode "leave_unconditional_warp" x], st)
     | ConditionalWarp =>
         accept_node visit visitor x self st =
         (condition ← attrs self !! "condition";
          '(t, st1) ← visit condition st;
          Some (VisitNode "visit_conditional_warp" x :: t
                  ++ [LeaveNode "leave_conditional_warp" x], st1))
     | IteratorWarp =>
         accept_node visit visitor x self st =
         (variables ← attrs self !! "variables";
          '(t1, st1) ← visit variables st;
          controls ← attrs self !! "controls";
          '(t2, st2) ← visit controls st1;
          Some (VisitNode "visit_iterator_warp" x :: t1 ++ t2
                  ++ [LeaveNode "leave_iterator_warp" x], st2))
     | NumericLoopWarp =>
         accept_node visit visitor x self st =
         (index ← attrs self !! "index";
          '(t1, st1) ← visit index st;
          controls ← attrs self !! "controls";
          '(t2, st2) ← visit controls st1;
          Some (VisitNode "visit_numeric_loop_warp" x :: t1 ++ t2
                  ++ [LeaveNode "leave_numeric_loop_warp" x], st2))
     | _ => True
     end).
Proof.
  split_and!.
  - intros visit visitor x self self' st Hc Hf. by apply accept_node_same.
  - intros h h' visitor fuel node st Hsame. by apply _visit_same.
  - intros visit visitor x self st. destruct (cls self) eqn:Hc; try done;
      unfold accept_node; rewrite Hc; simpl.
    + by rewrite run_calls_nil.
    + rewrite run_calls_Visit.
      destruct (attrs self !! "condition") as [a|]; [|done]. simpl.
      destruct (visit a st) as [[t1 st1]|]; [|done]. simpl.
      by rewrite run_calls_nil; simpl; rewrite app_nil_r.
    + rewrite run_calls_Visit.
      destruct (attrs self !! "variables") as [a|]; [|done]. simpl.
      destruct (visit a st) as [[t1 st1]|]; [|done]. simpl.
      rewrite run_calls_Visit.
      destruct (attrs self !! "controls") as [f|]; [|done]. simpl.
      destruct (visit f st1) as [[t2 st2]|]; [|done]. simpl.
      by rewrite run_calls_nil; simpl; rewrite app_nil_r, app_assoc.
    + rewrite run_calls_Visit.
      destruct (attrs self !! "index") as [a|]; [|done]. simpl.
      destruct (visit a st) as [[t1 st1]|]; [|done]. simpl.
      rewrite run_calls_Visit.
      destruct (attrs self !! "controls") as [f|]; [|done]. simpl.
      destruct (visit f st1) as [[t2 st2]|]; [|done]. simpl.
      by rewrite run_calls_nil; simpl; rewrite app_nil_r, app_assoc.
Qed.

Lemma same_but_warp_targets_setattr (h : heap) x o field v :
  h !! x = Some o → field ∈ warp_targets (cls o) →
  same_but_warp_targets h (setattr x field v h).
Proof.
  intros Hx Hf y. destruct (decide (y = x)) as [->|Hy].
  - destruct o as [c A]. rewrite (setattr_lookup _ _ _ _ _ _ Hx), Hx.
    constructor. split; [done|]. intros f Hnf. simpl.
    rewrite lookup_insert_ne; [done|]. intros ->. done.
  - rewrite setattr_lookup_ne by done.
    destruct (h !! y); constructor. done.
Qed.

Lemma same_but_warp_targets_trans (h1 h2 h3 : heap) :
  same_but_warp_targets h1 h2 → same_but_warp_targets h2 h3 →
  same_but_warp_targets h1 h3.
Proof.
  intros H12 H23 x. specialize (H12 x). specialize (H23 x).
  destruct H12 as [o1 o2 [Hc Hf]|]; inversion H23 as [? o3 [Hc' Hf']|];
    subst; constructor.
  split; [congruence|]. intros f Hn. rewrite Hf by done.
  apply Hf'. by rewrite <- Hc.
Qed.

Lemma warp_targets_not_visited_witness :
  _visit 3 ast_branch 0 (VObj 400) (TcState ∅ None) =
  _visit 3 ast_branch_cut 0 (VObj 400) (TcState ∅ None) ∧
  _visit 3 ast_branch 0 (VObj 400) (TcState ∅ None) =
  Some ([VisitNode "visit_block" 400; VisitNode "visit_conditional_warp" 401;
         VisitNode "visit_identifier" 402; LeaveNode "leave_identifier" 402;
         LeaveNode "leave_conditional_warp" 401; LeaveNode "leave_block" 400],
        TcState ∅ None).
Proof.
  split; [|vm_compute; reflexivity].
  apply (proj1 (proj2 warp_targets_not_visited) ast_branch ast_branch_cut).
  eapply same_but_warp_targets_trans.
  - eapply (same_but_warp_targets_setattr ast_branch 401 _ "false_target");
      [vm_compute; reflexivity|by_compute].
  - eapply (same_but_warp_targets_setattr _ 401 _ "true_target");
      [vm_compute; reflexivity|by_compute].
Defined.

(** ** The guard of [TableConstructor._accept] *)

Lemma entered_app t1 t2 : entered (t1 ++ t2) = entered t1 ++ entered t2.
Proof. apply omap_app. Qed.

Lemma switch_visitor_cur visitor st :
  cur_visitor (switch_visitor visitor st) = Some visitor.
Proof.
  unfold switch_visitor. destruct (cur_visitor st) as [cur|] eqn:Hc; [|done].
  case_decide as Hne; [done|]. rewrite Hc. f_equal.
  by destruct (decide (cur = visitor)).
Qed.

Lemma switch_visitor_same visitor A :
  switch_visitor visitor (TcState A (Some visitor)) = TcState A (Some visitor).
Proof. unfold switch_visitor. simpl. by rewrite decide_False by auto. Qed.

Lemma switch_visitor_eta visitor st :
  switch_visitor visitor st =
  TcState (anti_loop (switch_visitor visitor st)) (Some visitor).
Proof.
  rewrite <- (switch_visitor_cur visitor st).
  by destruct (switch_visitor visitor st).
Qed.

Lemma tc_step_refl visitor st : tc_step visitor st [] st.
Proof. by left. Qed.

Lemma tc_step_trans visitor st t1 st1 t2 st2 :
  tc_step visitor st t1 st1 → tc_step visitor st1 t2 st2 →
  tc_step visitor st (t1 ++ t2) st2.
Proof.
  unfold tc_step. rewrite entered_app.
  intros [[-> ->]|(-> & Hnd1 & Hnew1)].
  { simpl. done. }
  rewrite switch_visitor_same. simpl.
  intros [[-> ->]|(-> & Hnd2 & Hnew2)]; right.
  { rewrite app_nil_r. done. }
  split_and!.
  - f_equal. rewrite list_to_set_app_L. set_solver.
  - apply NoDup_app. split_and!; [done| |done].
    intros x Hx1 Hx2. apply (Hnew2 x Hx2). set_solver.
  - intros x [Hx|Hx]%elem_of_app; [by apply Hnew1|].
    specialize (Hnew2 x Hx). set_solver.
Qed.

(** Only [TableConstructor._accept] passes [visit_table_constructor]. *)
Lemma visit_hook_not_table c visit_hook calls leave_hook :
  _accept c = Accept visit_hook calls leave_hook →
  c ≠ TableConstructor → visit_hook ≠ "visit_table_constructor".
Proof. destruct c; simpl; intros [= <- <- <-] Hc; done. Qed.

Lemma tc_step_wrap visitor st t st' visit_hook leave_hook x :
  visit_hook ≠ "visit_table_constructor" →
  tc_step visitor st t st' →
  tc_step visitor st
    (VisitNode visit_hook x :: t ++ [LeaveNode leave_hook x]) st'.
Proof.
  intros Hh. unfold tc_step. simpl. rewrite entered_app. simpl.
  rewrite decide_False by done. by rewrite app_nil_r.
Qed.

Lemma tc_step_enter visitor st t st' leave_hook x :
  let st0 := switch_visitor visitor st in
  x ∉ anti_loop st0 →
  tc_step visitor (TcState ({[x]} ∪ anti_loop st0) (cur_visitor st0)) t st' →
  tc_step visitor st
    (VisitNode "visit_table_constructor" x :: t ++ [LeaveNode leave_hook x])
    st'.
Proof.
  intros st0 Hx. unfold tc_step. simpl. rewrite entered_app. simpl.
  rewrite app_nil_r. subst st0. rewrite switch_visitor_cur.
  rewrite switch_visitor_same. simpl.
  intros [[-> Ht]|(-> & Hnd & Hnew)]; right.
  - rewrite Ht. split_and!.
    + f_equal. set_solver.
    + apply NoDup_singleton.
    + by intros y ->%list_elem_of_singleton.
  - split_and!.
    + f_equal. set_solver.
    + apply NoDup_cons. split; [|done]. intros Hin.
      specialize (Hnew x Hin). set_solver.
    + intros y [->|Hy]%elem_of_cons; [done|].
      specialize (Hnew y Hy). set_solver.
Qed.

Section guard.
Context (h : heap) (visitor : Z).

Lemma visit_items_step (visit : value → tc_state → visit_result) :
  (∀ node st t st', visit node st = Some (t, st') →
                    tc_step visitor st t st') →
  ∀ nodes st t st', visit_items visit nodes st = Some (t, st') →
                    tc_step visitor st t st'.
Proof.
  intros Hv. induction nodes as [|node nodes IH]; intros st t st'.
  - rewrite visit_items_nil. intros [= <- <-]. apply tc_step_refl.
  - rewrite visit_items_cons.
    destruct (visit node st) as [[t1 st1]|] eqn:H1; [|done]. simpl.
    destruct (visit_items visit nodes st1) as [[t2 st2]|] eqn:H2; [|done].
    simpl. intros [= <- <-]. eapply tc_step_trans; eauto.
Qed.

Lemma run_calls_step (visit : value → tc_state → visit_result) self :
  (∀ node st t st', visit node st = Some (t, st') →
                    tc_step visitor st t st') →
  ∀ calls st t st', run_calls visit self calls st = Some (t, st') →
                    tc_step visitor st t st'.
Proof.
  intros Hv. induction calls as [|[field|field] calls IH]; intros st t st'.
  - rewrite run_calls_nil. intros [= <- <-]. apply tc_step_refl.
  - rewrite run_calls_Visit.
    destruct (attrs self !! field) as [node|]; [|done]. simpl.
    destruct (visit node st) as [[t1 st1]|] eqn:H1; [|done]. simpl.
    destruct (run_calls visit self calls st1) as [[t2 st2]|] eqn:H2;
      [|done].
    simpl. intros [= <- <-]. eapply tc_step_trans; eauto.
  - rewrite run_calls_VisitList.
    destruct (attrs self !! field) as [[|nodes|]|]; try done. simpl.
    destruct (visit_items visit nodes st) as [[t1 st1]|] eqn:H1; [|done].
    simpl.
    destruct (run_calls visit self calls st1) as [[t2 st2]|] eqn:H2;
      [|done].
    simpl. intros [= <- <-].
    eapply tc_step_trans; eauto using visit_items_step.
Qed.

Lemma _visit_step fuel : ∀ node st t st',
  _visit fuel h visitor node st = Some (t, st') → tc_step visitor st t st'.
Proof.
  induction fuel as [|fuel IH]; intros node st t st'; [done|].
  rewrite _visit_S. destruct node as [| |x]; [done..|].
  destruct (h !! x) as [self|]; [|done]. simpl. unfold accept_node.
  destruct (_accept (cls self)) as [| |vh calls lh] eqn:Ha; [done| |].
  { intros [= <- <-]. apply tc_step_refl. }
  case_decide as Hc.
  - rewrite Hc in Ha. injection Ha as <- <- <-.
    case_decide as Hx.
    + intros [= <- <-]. right. simpl. split_and!.
      * rewrite union_empty_r_L. apply switch_visitor_eta.
      * apply NoDup_nil_2.
      * by intros ? ?%elem_of_nil.
    + destruct (run_calls _ self _ _) as [[t1 st1]|] eqn:Hr; [|done].
      simpl. intros [= <- <-]. apply tc_step_enter; [done|].
      eapply run_calls_step; eauto.
  - destruct (run_calls _ self _ _) as [[t1 st1]|] eqn:Hr; [|done].
    simpl. intros [= <- <-].
    apply tc_step_wrap; [by eapply visit_hook_not_table|].
    eapply run_calls_step; eauto.
Qed.
End guard.

(** ** Traversals of cyclic table records terminate *)

Section fuel.
Context (h : heap) (visitor : Z).

Lemma visit_items_mono (visit visit' : value → tc_state → visit_result) :
  (∀ node st r, visit node st = Some r → visit' node st = Some r) →
  ∀ nodes st r, visit_items visit nodes st = Some r →
                visit_items visit' nodes st = Some r.
Proof.
  intros Hv. induction nodes as [|node nodes IH]; intros st r; [done|].
  rewrite !visit_items_cons.
  destruct (visit node st) as [[t1 st1]|] eqn:H1; [|done]. simpl.
  rewrite (Hv _ _ _ H1). simpl.
  destruct (visit_items visit nodes st1) as [[t2 st2]|] eqn:H2; [|done].
  by rewrite (IH _ _ H2).
Qed.

Lemma run_calls_mono (visit visit' : value → tc_state → visit_result) self :
  (∀ node st r, visit node st = Some r → visit' node st = Some r) →
  ∀ calls st r, run_calls visit self calls st = Some r →
                run_calls visit' self calls st = Some r.
Proof.
  intros Hv. induction calls as [|[field|field] calls IH]; intros st r.
  - done.
  - rewrite !run_calls_Visit.
    destruct (attrs self !! field) as [node|]; [|done]. simpl.
    destruct (visit node st) as [[t1 st1]|] eqn:H1; [|done]. simpl.
    rewrite (Hv _ _ _ H1). simpl.
    destruct (run_calls visit self calls st1) as [[t2 st2]|] eqn:H2;
      [|done].
    by rewrite (IH _ _ H2).
  - rewrite !run_calls_VisitList.
    destruct (attrs self !! field) as [[|nodes|]|]; try done. simpl.
    destruct (visit_items visit nodes st) as [[t1 st1]|] eqn:H1; [|done].
    simpl. rewrite (visit_items_mono _ _ Hv _ _ _ H1). simpl.
    destruct (run_calls visit self calls st1) as [[t2 st2]|] eqn:H2;
      [|done].
    by rewrite (IH _ _ H2).
Qed.

Lemma accept_node_mono (visit visit' : value → tc_state → visit_result)
    x self st r :
  (∀ node st r, visit node st = Some r → visit' node st = Some r) →
  accept_node visit visitor x self st = Some r →
  accept_node visit' visitor x self st = Some r.
Proof.
  intros Hv. unfold accept_node.
  destruct (_accept (cls self)) as [| |vh calls lh]; [done..|].
  assert (∀ st,
    ('(t, st) ← run_calls visit self calls st;
     Some (VisitNode vh x :: t ++ [LeaveNode lh x], st)) = Some r →
    ('(t, st) ← run_calls visit' self calls st;
     Some (VisitNode vh x :: t ++ [LeaveNode lh x], st)) = Some r) as Hb.
  { intros st0.
    destruct (run_calls visit self calls st0) as [[t1 st1]|] eqn:H1; [|done].
    by rewrite (run_calls_mono _ _ _ Hv _ _ _ H1). }
  case_decide; [case_decide|]; auto.
Qed.

Lemma _visit_fuel_S fuel : ∀ node st r,
  _visit fuel h visitor node st = Some r →
  _visit (S fuel) h visitor node st = Some r.
Proof.
  induction fuel as [|fuel IH]; intros node st r; [done|].
  rewrite !_visit_S. destruct node as [| |x]; [done..|].
  destruct (h !! x) as [self|]; [|done]. simpl.
  by apply accept_node_mono.
Qed.

Lemma _visit_fuel_mono fuel fuel' node st r :
  (fuel ≤ fuel')%nat →
  _visit fuel h visitor node st = Some r →
  _visit fuel' h visitor node st = Some r.
Proof.
  intros Hle. induction Hle as [|k Hle IH]; [done|].
  intros Hr. by apply _visit_fuel_S, IH.
Qed.

Lemma tc_step_unmarked st t st' :
  tc_step visitor st t st' →
  (unmarked h visitor st' ≤ unmarked h visitor st)%nat.
Proof.
  unfold unmarked. intros [[-> _]|(-> & _ & _)]; [done|].
  rewrite switch_visitor_same. simpl. apply subseteq_size. set_solver.
Qed.

Lemma visit_items_returns n nodes :
  Forall (returns_at h visitor n) nodes →
  ∀ st, (unmarked h visitor st ≤ n)%nat →
    ∃ fuel t st',
      visit_items (_visit fuel h visitor) nodes st = Some (t, st') ∧
      (unmarked h visitor st' ≤ n)%nat.
Proof.
  induction 1 as [|node nodes Hv _ IH]; intros st Hn.
  - exists O, [], st. by rewrite visit_items_nil.
  - destruct (Hv st Hn) as (f1 & t1 & st1 & H1).
    assert (unmarked h visitor st1 ≤ n)%nat as Hn1.
    { etrans; [|exact Hn]. eapply tc_step_unmarked, _visit_step, H1. }
    destruct (IH st1 Hn1) as (f2 & t2 & st2 & H2 & Hn2).
    exists (f1 `max` f2)%nat, (t1 ++ t2), st2. split; [|done].
    rewrite visit_items_cons.
    rewrite (_visit_fuel_mono f1 _ _ _ _ (Nat.le_max_l f1 f2) H1). simpl.
    by rewrite (visit_items_mono _ (_visit (f1 `max` f2) h visitor)
                  (λ v st r, _visit_fuel_mono f2 _ v st r
                               (Nat.le_max_r f1 f2)) _ _ _ H2).
Qed.

Lemma run_calls_returns n self calls :
  Forall (λ c, match c with
               | Visit field =>
                   ∃ v, attrs self !! field = Some v ∧ returns_at h visitor n v
               | VisitList field =>
                   ∃ l, attrs self !! field = Some (VList l) ∧
                        Forall (returns_at h visitor n) l
               end) calls →
  ∀ st, (unmarked h visitor st ≤ n)%nat →
    ∃ fuel t st',
      run_calls (_visit fuel h visitor) self calls st = Some (t, st').
Proof.
  induction 1 as [|[field|field] calls Hc _ IH]; intros st Hn.
  - exists O, [], st. by rewrite run_calls_nil.
  - destruct Hc as (v & Hf & Hv).
    destruct (Hv st Hn) as (f1 & t1 & st1 & H1).
    assert (unmarked h visitor st1 ≤ n)%nat as Hn1.
    { etrans; [|exact Hn]. eapply tc_step_unmarked, _visit_step, H1. }
    destruct (IH st1 Hn1) as (f2 & t2 & st2 & H2).
    exists (f1 `max` f2)%nat, (t1 ++ t2), st2.
    rewrite run_calls_Visit, Hf. simpl.
    rewrite (_visit_fuel_mono f1 _ _ _ _ (Nat.le_max_l f1 f2) H1). simpl.
    by rewrite (run_calls_mono _ (_visit (f1 `max` f2) h visitor) self
                  (λ v st r, _visit_fuel_mono f2 _ v st r
                               (Nat.le_max_r f1 f2)) _ _ _ H2).
  - destruct Hc as (l & Hf & Hl).
    destruct (visit_items_returns n l Hl st Hn) as (f1 & t1 & st1 & H1 & Hn1).
    destruct (IH st1 Hn1) as (f2 & t2 & st2 & H2).
    exists (f1 `max` f2)%nat, (t1 ++ t2), st2.
    rewrite run_calls_VisitList, Hf. simpl.
    rewrite (visit_items_mono _ (_visit (f1 `max` f2) h visitor)
               (λ v st r, _visit_fuel_mono f1 _ v st r
                            (Nat.le_max_l f1 f2)) _ _ _ H1). simpl.
    by rewrite (run_calls_mono _ (_visit (f1 `max` f2) h visitor) self
                  (λ v st r, _visit_fuel_mono f2 _ v st r
                               (Nat.le_max_r f1 f2)) _ _ _ H2).
Qed.
End fuel.

Section terminates.
Context (h : heap) (visitor : Z) (rank : Z → nat).
Context (Hranked : ranked h rank).

Lemma child_ok_returns n x v :
  (∀ y o, h !! y = Some o →
          cls o = TableConstructor ∨ (rank y < rank x)%nat →
          returns_at h visitor n (VObj y)) →
  child_ok h rank x v → returns_at h visitor n v.
Proof.
  intros Hret. destruct v as [| |y]; simpl; [done..|].
  destruct (h !! y) as [o|] eqn:Hy; [|done].
  intros Hok. apply (Hret y o Hy).
  apply orb_True in Hok as [Hc|Hr]; [left|right];
    by eapply bool_decide_unpack.
Qed.

Lemma children_return n x self vh calls lh :
  h !! x = Some self → _accept (cls self) = Accept vh calls lh →
  (∀ y o, h !! y = Some o →
          cls o = TableConstructor ∨ (rank y < rank x)%nat →
          returns_at h visitor n (VObj y)) →
  Forall (λ c, match c with
               | Visit field =>
                   ∃ v, attrs self !! field = Some v ∧
                        returns_at h visitor n v
               | VisitList field =>
                   ∃ l, attrs self !! field = Some (VList l) ∧
                        Forall (returns_at h visitor n) l
               end) calls.
Proof.
  intros Hx Ha Hret. pose proof (Hranked x self Hx) as Hok.
  unfold node_ok in Hok. rewrite Ha in Hok.
  apply forallb_True in Hok. eapply Forall_impl; [exact Hok|].
  intros [field|field]; simpl.
  - destruct (attrs self !! field) as [v|]; [|done].
    intros Hv. exists v. split; [done|]. by eapply child_ok_returns.
  - destruct (attrs self !! field) as [[|l|]|]; try done.
    intros Hl. exists l. split; [done|]. apply forallb_True in Hl.
    eapply Forall_impl; [exact Hl|]. intros v. by apply child_ok_returns.
Qed.

Lemma table_constructor_returns n :
  (∀ k, (k < n)%nat → ∀ y o, h !! y = Some o →
                             returns_at h visitor k (VObj y)) →
  ∀ x self, h !! x = Some self → cls self = TableConstructor →
            returns_at h visitor n (VObj x).
Proof.
  intros IH x self Hx Hc st Hn.
  destruct (decide (x ∈ anti_loop (switch_visitor visitor st))) as [Hin|Hin].
  { exists 1%nat, [], (switch_visitor visitor st).
    rewrite _visit_S, Hx. simpl. unfold accept_node. rewrite Hc. simpl.
    by rewrite decide_True. }
  set (st1 := TcState ({[x]} ∪ anti_loop (switch_visitor visitor st))
                      (cur_visitor (switch_visitor visitor st))).
  assert (unmarked h visitor st1 < unmarked h visitor st)%nat as Hlt.
  { unfold unmarked, st1. rewrite switch_visitor_cur, switch_visitor_same.
    simpl. apply subset_size.
    assert (x ∈ table_constructors h).
    { unfold table_constructors. apply elem_of_dom. exists self.
      by apply map_lookup_filter_Some. }
    set_solver. }
  destruct n as [|n]; [lia|].
  destruct (run_calls_returns h visitor n self
              [Visit "array"; Visit "records"]) with (st := st1)
    as (f & t & st' & Hrun); [|lia|].
  { eapply children_return; [done|by rewrite Hc|].
    intros y o Hy _. eapply (IH n); [lia|done]. }
  exists (S f). eexists _, _. rewrite _visit_S, Hx. simpl.
  unfold accept_node. rewrite Hc. simpl.
  rewrite decide_False by done. fold st1. rewrite Hrun. simpl. done.
Qed.

Lemma node_returns n :
  (∀ x self, h !! x = Some self → cls self = TableConstructor →
             returns_at h visitor n (VObj x)) →
  ∀ r x self, h !! x = Some self → (rank x ≤ r)%nat →
              returns_at h visitor n (VObj x).
Proof.
  intros Htc r. induction r as [r IH] using lt_wf_ind.
  intros x self Hx Hr.
  destruct (decide (cls self = TableConstructor)) as [Hc|Hc]; [by eauto|].
  intros st Hn.
  destruct (_accept (cls self)) as [| |vh calls lh] eqn:Ha.
  - pose proof (Hranked x self Hx) as Hok. unfold node_ok in Hok.
    by rewrite Ha in Hok.
  - exists 1%nat, [], st. rewrite _visit_S, Hx. simpl. unfold accept_node.
    by rewrite Ha.
  - destruct (run_calls_returns h visitor n self calls) with (st := st)
      as (f & t & st' & Hrun); [|done|].
    { eapply children_return; [done..|].
      intros y o Hy [Hyc|Hlt]; [by eauto|].
      eapply (IH (rank y)); [lia|done|done]. }
    exists (S f). eexists _, _. rewrite _visit_S, Hx. simpl.
    unfold accept_node. rewrite Ha. rewrite decide_False by done.
    rewrite Hrun. simpl. done.
Qed.

Lemma _visit_returns x self st :
  h !! x = Some self →
  ∃ fuel t st', _visit fuel h visitor (VObj x) st = Some (t, st').
Proof.
  intros Hx.
  assert (∀ n y o, h !! y = Some o → returns_at h visitor n (VObj y)) as H.
  { intros n. induction n as [n IH] using lt_wf_ind. intros y o Hy.
    eapply node_returns; [|done|done].
    by apply table_constructor_returns. }
  by eapply (H (unmarked h visitor st)).
Qed.
End terminates.

(** C9: within a traversal by one visitor each table constructor is
    entered at most once.  A table constructor that is in [anti_loop]
    while that visitor is current is skipped: [_accept] calls nothing and
    leaves the state unchanged.  The table constructors entered by a
    traversal are pairwise distinct and end up in [anti_loop]; nothing is
    removed from the set unless another visitor was current before.
    Hence the traversal returns even when table records form cycles. *)
Theorem TableConstructor_entered_at_most_once (h : heap) (visitor : Z) :
  (∀ visit x self st,
     cls self = TableConstructor →
     cur_visitor st = Some visitor → x ∈ anti_loop st →
     accept_node visit visitor x self st = Some ([], st)) ∧
  (∀ fuel node st t st',
     _visit fuel h visitor node st = Some (t, st') →
     NoDup (entered t) ∧
     (∀ x, x ∈ entered t → x ∈ anti_loop st') ∧
     (cur_visitor st = None ∨ cur_visitor st = Some visitor →
      anti_loop st ⊆ anti_loop st')) ∧
  (∀ rank x st,
     ranked h rank → is_Some (h !! x) →
     ∃ fuel t st', _visit fuel h visitor (VObj x) st = Some (t, st')).
Proof.
  split_and!.
  - intros visit x self [A cur] Hc Hcur Hin. simpl in Hcur, Hin.
    subst cur. unfold accept_node. rewrite Hc. simpl.
    rewrite switch_visitor_same. simpl. by rewrite decide_True.
  - intros fuel node st t st' Hv. apply _visit_step in Hv.
    destruct Hv as [[-> ->]|(-> & Hnd & Hnew)].
    + split_and!; [apply NoDup_nil_2|by intros ? ?%elem_of_nil|done].
    + split_and!; [done| |].
      * intros x Hx. simpl. apply elem_of_union_r. by apply elem_of_list_to_set.
      * intros Hcur. simpl. apply union_subseteq_l'.
        unfold switch_visitor. destruct Hcur as [-> | ->]; [done|].
        by rewrite decide_False by auto.
  - intros rank x st Hr [self Hx]. by eapply _visit_returns.
Qed.

Lemma TableConstructor_entered_at_most_once_witness :
  ∃ fuel t st',
    _visit fuel ast_cyclic_table 0 (VObj 510) (TcState ∅ None) = Some (t, st').
Proof.
  apply (TableConstructor_entered_at_most_once ast_cyclic_table 0)
    with (rank := Z.to_nat).
  - by_compute.
  - eexists. vm_compute. reflexivity.
Defined.

(** ** C2, C3, C4: operators *)

Ltac each_operator H :=
  apply list_elem_of_In in H;
  unfold specified_precedence, name_map in H; simpl in H;
  repeat (destruct H as [H|H]); [..|destruct H].

(** C2: the table of precedence levels covers the fifteen operator codes,
    [precedence()] of a binary operator returns the level the table gives
    for its code, and [precedence()] of a unary operator returns 7. *)
Theorem precedence_levels :
  specified_precedence.*1 = name_map.*1 ∧
  (∀ self type level,
     attrs self !! "type" = Some (VAtom (AInt type)) →
     (type, level) ∈ specified_precedence →
     BinaryOperator_precedence self = Ok level) ∧
  (∀ self, UnaryOperator_precedence self = Ok 7).
Proof.
  split_and!; [reflexivity| |reflexivity].
  intros self type level Ht Hin. unfold BinaryOperator_precedence, int_attr.
  rewrite Ht. each_operator Hin; by injection Hin as <- <-.
Qed.

Lemma precedence_levels_witness :
  BinaryOperator_precedence
    (node BinaryOperator
       [("left", VAtom ANone); ("type", VAtom (AInt 41));
        ("right", VAtom ANone)]) = Ok 5.
Proof.
  apply (proj1 (proj2 precedence_levels)) with (type := 41).
  - vm_compute. reflexivity.
  - by_compute.
Defined.

(** C3: for each of the fifteen operator codes [is_commutative()] returns
    true exactly for [and], [or], [==], [~=], [+] and [*]. *)
Theorem is_commutative_spec (self : object) (type : Z) :
  attrs self !! "type" = Some (VAtom (AInt type)) →
  type ∈ name_map.*1 →
  is_commutative self = Ok (bool_decide (type ∈ specified_commutative)).
Proof.
  intros Ht Hin. unfold is_commutative, int_attr. rewrite Ht.
  each_operator Hin; by subst.
Qed.

Lemma is_commutative_spec_witness :
  is_commutative
    (node BinaryOperator
       [("left", VAtom ANone); ("type", VAtom (AInt 41));
        ("right", VAtom ANone)]) = Ok false.
Proof.
  apply (is_commutative_spec _ 41).
  - vm_compute. reflexivity.
  - by_compute.
Defined.

(** C4: for each of the fifteen operator codes [is_right_associative()]
    returns true exactly for [^]; it returns false for [..]. *)
Theorem is_right_associative_spec (self : object) (type : Z) :
  attrs self !! "type" = Some (VAtom (AInt type)) →
  type ∈ name_map.*1 →
  is_right_associative self = Ok (bool_decide (type = T_POW)) ∧
  (type = T_CONCAT → is_right_associative self = Ok false).
Proof.
  intros Ht Hin. unfold is_right_associative. rewrite Ht.
  each_operator Hin; by subst.
Qed.

Lemma is_right_associative_spec_witness :
  is_right_associative
    (node BinaryOperator
       [("left", VAtom ANone); ("type", VAtom (AInt 30));
        ("right", VAtom ANone)]) = Ok false.
Proof.
  refine (proj1 (is_right_associative_spec _ 30 _ _)).
  - vm_compute. reflexivity.
  - by_compute.
Defined.

(** ** C7: the order of the pipeline stages *)

Ltac run_stage :=
  match goal with
  | |- context [traced ?run ?s ?w] =>
      unfold traced at 1; simpl;
      destruct (run s _) as [[? ?]|]; simpl; [|done]
  end.

(** C7: when [decompile] returns, the calls made into the pipeline are,
    in this order, [build], [validate(warped=True)], [pre_pass],
    [validate(warped=True)], [mark_locals], [eliminate_temporary(
    identify_slots=True)], [unwarp], [mark_local_definitions],
    [primary_pass], [validate(warped=False)], [mark_locals(alt_mode=True)]
    and [mark_local_definitions]; each of them but [build] is passed the
    value [build] returned, and that value is what [decompile] returns.
    It does return when no stage raises and [build] returns a true
    value. *)
Theorem decompile_stage_order {World : Type}
    (run : stage → World → option (value * World)) (heap_of : World → heap)
    (header prototype : value) (w : World) :
  (∀ r w' log,
     decompile (traced run) (λ w, heap_of w.1) header prototype (w, [])
       = Some (r, (w', log)) →
     ∃ ast,
       r = ast ∧
       head log = Some (builder_build header prototype, ast) ∧
       log.*1 =
         [builder_build header prototype;
          validator_validate ast true;
          mutator_pre_pass ast;
          validator_validate ast true;
          locals_mark_locals ast None;
          slotworks_eliminate_temporary ast true;
          unwarper_unwarp ast false;
          locals_mark_local_definitions ast;
          mutator_primary_pass ast;
          validator_validate ast false;
          locals_mark_locals ast (Some true);
          locals_mark_local_definitions ast]) ∧
  ((∀ s w, is_Some (run s w)) →
   (∀ ast w', run (builder_build header prototype) w = Some (ast, w') →
              truthy (heap_of w') ast = Some true) →
   is_Some (decompile (traced run) (λ w, heap_of w.1) header prototype
              (w, []))).
Proof.
  split.
  - intros r w' log.
    unfold decompile, bind, run_all, assert_truthy, bind.
    run_stage. destruct (truthy _ _) as [[]|]; [|done..].
    do 11 run_stage.
    intros [= <- <- <-]. eexists. split_and!; reflexivity.
  - intros Hrun Hbuild.
    unfold decompile, bind, run_all, assert_truthy, bind.
    unfold traced at 1. simpl.
    destruct (run (builder_build header prototype) w) as [[ast w1]|] eqn:Hb.
    2:{ destruct (Hrun (builder_build header prototype) w). congruence. }
    simpl. rewrite (Hbuild ast w1 eq_refl).
    do 11 (match goal with
           | |- context [traced run ?s ?w] =>
               unfold traced at 1; simpl;
               let H := fresh in
               destruct (Hrun s w.1) as [[? ?] H]; simpl in H; rewrite H;
               simpl
           end).
    eauto.
Qed.

Lemma decompile_stage_order_witness :
  ∃ ast,
    decompile_sample.1 = ast ∧
    head decompile_sample.2.2
      = Some (builder_build (VAtom ANone) (VAtom ANone), ast) ∧
    decompile_sample.2.2.*1 =
      [builder_build (VAtom ANone) (VAtom ANone);
       validator_validate ast true;
       mutator_pre_pass ast;
       validator_validate ast true;
       locals_mark_locals ast None;
       slotworks_eliminate_temporary ast true;
       unwarper_unwarp ast false;
       locals_mark_local_definitions ast;
       mutator_primary_pass ast;
       validator_validate ast false;
       locals_mark_locals ast (Some true);
       locals_mark_local_definitions ast].
Proof.
  apply (proj1 (decompile_stage_order run_sample (λ w, w) (VAtom ANone)
                  (VAtom ANone) ast_local_x) _ decompile_sample.2.1).
  vm_compute. reflexivity.
Defined.

(** ** C8: failures of single files *)

Lemma successes_cons f fs :
  successes (f :: fs) =
  match outcome_of f with
  | Returned => path f :: successes fs
  | Raised _ => successes fs
  end.
Proof.
  unfold successes. destruct (outcome_of f) eqn:Ho.
  - rewrite filter_cons_True; [done|]. unfold returned. rewrite Ho. exact I.
  - rewrite filter_cons_False; [done|]. unfold returned. rewrite Ho.
    simpl. auto.
Qed.

Lemma failures_cons f fs :
  failures (f :: fs) =
  match outcome_of f with
  | Returned => failures fs
  | Raised e => (path f, e) :: failures fs
  end.
Proof. unfold failures. simpl. by destruct (outcome_of f). Qed.


Lemma submit_all_spec env in_dir out_dir update_outputname walk : ∀ fs,
  Forall (λ d, mkdir env (joinpath env out_dir (relative_to env d.1 in_dir))
               = None) walk →
  submit_all env in_dir out_dir update_outputname walk fs =
  inr (fs ++ ('(root, names) ← walk;
              submit_files env in_dir out_dir update_outputname root names)).
Proof.
  induction walk as [|[root names] walk IH]; intros fs Hm; simpl.
  { by rewrite app_nil_r. }
  apply Forall_cons in Hm as [Hd Hm]. simpl in Hd. rewrite Hd.
  rewrite IH by done. by rewrite <- app_assoc.
Qed.

Lemma collect_inr fs : ∀ failed success log failed' success' log',
  collect fs failed success log = inr (failed', success', log') →
  failed' = failed ++ failures fs ∧ success' = success ++ successes fs ∧
  log' = log ++ (Debug_SUCCESS <$> successes fs) ∧
  Forall (λ f, ∀ e, outcome_of f = Raised e → is_Exception e = true) fs.
Proof.
  induction fs as [|f fs IH]; intros failed success log failed' success' log'.
  { simpl. intros [= <- <- <-]. by rewrite !app_nil_r. }
  rewrite successes_cons, failures_cons. simpl.
  destruct (outcome_of f) as [|e] eqn:Ho.
  - intros (-> & -> & -> & Hfs)%IH. rewrite <- !app_assoc.
    split_and!; [done..|]. constructor; [|done].
    intros e He. by rewrite Ho in He.
  - destruct (is_Exception e) eqn:He; [|done].
    intros (-> & -> & -> & Hfs)%IH. rewrite <- !app_assoc.
    split_and!; [done..|]. constructor; [|done].
    intros e' He'. rewrite Ho in He'. by injection He' as <-.
Qed.

Lemma submit_all_inr env in_dir out_dir update_outputname walk : ∀ fs fs',
  submit_all env in_dir out_dir update_outputname walk fs = inr fs' →
  fs' = fs ++ ('(root, names) ← walk;
               submit_files env in_dir out_dir update_outputname root names).
Proof.
  induction walk as [|[root names] walk IH]; intros fs fs'; simpl.
  { intros [= <-]. by rewrite app_nil_r. }
  destruct (mkdir env _); [done|]. intros ->%IH. by rewrite <- app_assoc.
Qed.







(** * Further properties *)

(** ** [subclass_name_mapping] *)

Lemma subclass_name_mapping_leaf depth c :
  subclasses c = [] → subclass_name_mapping depth c = ∅.
Proof. intros Hc. destruct depth; simpl; [done|]. by rewrite Hc. Qed.

Lemma subclass_name_mapping_keys :
  map_Forall (λ name c, c ≠ AstNode ∧ class_name c = name) cls_map.
Proof. by_compute. Qed.

(** X1: [subclass_name_mapping(AstNode)] maps the name of every class
    defined below [AstNode], the subclasses of [StatementsList] included, to
    that class and has no other key: class names are pairwise distinct, and
    neither [AstNode] nor [Ref] is a key. Two levels of recursion reach the
    whole hierarchy. *)
Theorem subclass_name_mapping_AstNode (name : string) (c : class) :
  (cls_map !! name = Some c ↔ c ≠ AstNode ∧ class_name c = name) ∧
  cls_map !! "Ref" = None ∧
  (∀ depth, (2 ≤ depth)%nat → subclass_name_mapping depth AstNode = cls_map).
Proof.
  split_and!.
  - split.
    + apply subclass_name_mapping_keys.
    + intros [Hc <-]. by apply cls_map_lookup.
  - by_compute.
  - intros [|[|depth]] Hd; [lia..|]. unfold cls_map.
    cbn [subclass_name_mapping subclasses foldl].
    by rewrite ?subclass_name_mapping_leaf.
Qed.

Lemma subclass_name_mapping_AstNode_witness :
  cls_map !! "ExpressionsList" = Some ExpressionsList.
Proof.
  apply (proj2 (proj1 (subclass_name_mapping_AstNode
                         "ExpressionsList" ExpressionsList))).
  split; [by_compute|reflexivity].
Defined.

(** ** Constructors: every instance gets children of its own *)

Lemma foldl_ext_in {A B} (f g : A → B → A) (l : list B) :
  (∀ a b, b ∈ l → f a b = g a b) → ∀ a, foldl f a l = foldl g a l.
Proof.
  induction l as [|b l IH]; intros Hfg a; [done|]. simpl.
  rewrite Hfg by left. apply IH. intros ???. apply Hfg. by right.
Qed.

Lemma new_leaf c depth depth' h :
  (∀ name c', (name, InitNew c') ∉ init_fields c) →
  new depth c h = new depth' c h.
Proof.
  intros Hleaf. rewrite !new_unfold. destruct (alloc c h) as [self h1].
  f_equal. apply foldl_ext_in. intros g [name i] Hin. unfold init_step.
  destruct i as [a| |c']; [done..|]. by destruct (Hleaf name c').
Qed.

(** The constructor calls inside the [__init__] bodies are calls of
    classes whose [__init__] calls no constructor. *)
Lemma init_fields_nesting c name c' :
  (name, InitNew c') ∈ init_fields c →
  ∀ name' c'', (name', InitNew c'') ∉ init_fields c'.
Proof.
  intros Hin name' c'' Hin'.
  destruct c; simpl in Hin;
    repeat (apply elem_of_cons in Hin as [Hin|Hin]);
    try (by apply elem_of_nil in Hin); simplify_eq; simpl in Hin';
    repeat (apply elem_of_cons in Hin' as [Hin'|Hin']); simplify_eq;
    by apply elem_of_nil in Hin'.
Qed.

Lemma new_depth depth c h : new (S depth) c h = new 1 c h.
Proof.
  rewrite !new_unfold. destruct (alloc c h) as [self h1].
  f_equal. apply foldl_ext_in. intros g [name i] Hin. unfold init_step.
  destruct i as [a| |c']; [done..|]. simpl.
  rewrite (new_leaf c' depth 0); [done|].
  by eapply init_fields_nesting.
Qed.

Lemma setattr_is_Some x name v (h : heap) y :
  is_Some (setattr x name v h !! y) ↔ is_Some (h !! y).
Proof.
  unfold setattr. destruct (h !! x) as [o|] eqn:Hx; [|done].
  destruct (decide (y = x)) as [->|Hne].
  - rewrite lookup_insert_eq, Hx. split; eauto.
  - by rewrite lookup_insert_ne.
Qed.

(** The assignments of an [__init__] body: a field assigned [[]] holds
    the empty list, a field assigned [c'()] a node that call made, which
    is kept as the call left it, and no two fields hold the same node. *)
Lemma init_steps_children rec self c (fs : list (string * init)) :
  constructs rec →
  ∀ (h : heap) A,
  NoDup fs.*1 →
  h !! self = Some (Object c A) →
  ∃ A', foldl (init_step rec self) h fs !! self = Some (Object c A') ∧
    (∀ name, (name, InitList) ∈ fs → A' !! name = Some (VList [])) ∧
    (∀ name c', (name, InitNew c') ∈ fs →
       ∃ y g g', rec c' g = (y, g') ∧
                 (∀ z, is_Some (h !! z) → is_Some (g !! z)) ∧
                 A' !! name = Some (VObj y) ∧
                 ∀ z o, z ≠ self → g' !! z = Some o →
                        foldl (init_step rec self) h fs !! z = Some o) ∧
    (∀ n1 n2 c1 c2 y,
       (n1, InitNew c1) ∈ fs → (n2, InitNew c2) ∈ fs →
       A' !! n1 = Some (VObj y) → A' !! n2 = Some (VObj y) → n1 = n2).
Proof.
  intros Hrec. induction fs as [|[name i] fs IH]; intros h A Hnd Hself.
  { exists A. split_and!; [done|..]; intros *; by rewrite ?elem_of_nil. }
  apply NoDup_cons in Hnd as [Hname Hnd]. simpl.
  assert (∃ v h1, init_step rec self h (name, i) = setattr self name v h1 ∧
            h ⊆ h1 ∧ (i = InitList → v = VList []) ∧
            (∀ c', i = InitNew c' → ∃ y, v = VObj y ∧ rec c' h = (y, h1)))
    as (v & h1 & Heq & Hsub & Hl & Hn).
  { unfold init_step; simpl. destruct i as [a| |c'].
    - exists (VAtom a), h. done.
    - exists (VList []), h. done.
    - destruct (rec c' h) as [x h1] eqn:Hr.
      pose proof (Hrec _ _ _ _ Hr) as (_ & Hsub & _).
      exists (VObj x), h1. split_and!; [done..|].
      intros ? [= <-]. eauto. }
  rewrite Heq.
  assert (h1 !! self = Some (Object c A)) as Hself1
    by (eapply lookup_weaken; eauto).
  pose proof (setattr_lookup self name v h1 c A Hself1) as Hself2.
  destruct (IH _ _ Hnd Hself2) as (A' & HA' & Hlists & Hnews & Hdist).
  destruct (init_steps_spec rec self c fs Hrec _ _ Hnd Hself2)
    as (Hold & A1 & HA1 & Hkeep & _).
  assert (A1 = A') as -> by congruence.
  assert (∀ z, is_Some (h !! z) → is_Some (setattr self name v h1 !! z))
    as Hdom.
  { intros z [o Hz]. apply setattr_is_Some. exists o.
    by eapply lookup_weaken. }
  assert (A' !! name = Some v) as Hv.
  { rewrite Hkeep by done. by rewrite lookup_insert_eq. }
  assert (∀ n c' c2 y, i = InitNew c' → (n, InitNew c2) ∈ fs →
            A' !! name = Some (VObj y) → A' !! n = Some (VObj y) → False)
    as Hfresh.
  { intros n c' c2 y Hi Hin Hy1 Hy2.
    destruct (Hn c' Hi) as (y1 & -> & Hr).
    rewrite Hv in Hy1. injection Hy1 as ->.
    destruct (Hnews n c2 Hin) as (y2 & g & g' & Hr2 & Hdom2 & Hy & _).
    rewrite Hy2 in Hy. injection Hy as <-.
    apply Hrec in Hr as (_ & _ & Ay & Hy1).
    apply Hrec in Hr2 as (Hnone & _).
    destruct (Hdom2 y) as [o Ho]; [|congruence].
    apply setattr_is_Some. eauto. }
  exists A'. split_and!; [done|..].
  - intros n [[= -> <-]|Hin]%elem_of_cons; [|by auto].
    by rewrite Hv, Hl.
  - intros n c' [[= -> <-]|Hin]%elem_of_cons.
    + destruct (Hn c' eq_refl) as (y & -> & Hr).
      exists y, h, h1. split_and!; [done|done|done|].
      intros z o Hz Hzo. apply Hold; [done|].
      by rewrite setattr_lookup_ne.
    + destruct (Hnews n c' Hin) as (y & g & g' & Hr & Hg & Hy & Hfr).
      exists y, g, g'. split_and!; [done| |done|done].
      intros z Hz. by apply Hg, Hdom.
  - intros n1 n2 c1 c2 y Hin1 Hin2 Hy1 Hy2.
    apply elem_of_cons in Hin1 as [Heq1|Hin1];
      apply elem_of_cons in Hin2 as [Heq2|Hin2].
    + congruence.
    + injection Heq1 as -> <-.
      by destruct (Hfresh n2 c1 c2 y eq_refl Hin2).
    + injection Heq2 as -> <-.
      by destruct (Hfresh n1 c2 c1 y eq_refl Hin1).
    + by eapply Hdist.
Qed.

Lemma construct_new depth c h : construct c h = new (S depth) c h.
Proof.
  with_strategy transparent [construct] unfold construct.
  by rewrite (new_depth 1), (new_depth depth).
Qed.

Lemma new_children depth c h x h' :
  new depth c h = (x, h') →
  ∃ A, h' !! x = Some (Object c A) ∧
    (∀ name, (name, InitList) ∈ init_fields c → A !! name = Some (VList [])) ∧
    (∀ name c', (name, InitNew c') ∈ init_fields c →
       ∃ y g g',
         match depth with O => alloc | S d => new d end c' g = (y, g') ∧
         A !! name = Some (VObj y) ∧ y ≠ x ∧ h !! y = None ∧
         ∀ z o, z ≠ x → g' !! z = Some o → h' !! z = Some o) ∧
    (∀ n1 n2 c1 c2 y,
       (n1, InitNew c1) ∈ init_fields c → (n2, InitNew c2) ∈ init_fields c →
       A !! n1 = Some (VObj y) → A !! n2 = Some (VObj y) → n1 = n2).
Proof.
  rewrite new_unfold. destruct (alloc c h) as [self h1] eqn:Ha.
  intros [= <- <-]. apply alloc_fresh in Ha as [Hx ->].
  set (rec := match depth with O => alloc | S d => new d end).
  assert (constructs rec) as Hrec.
  { destruct depth; [apply alloc_constructs|].
    intros c' g y g' Hn.
    apply new_spec in Hn as (? & ? & A & ? & _); eauto using init_fields_NoDup. }
  destruct (init_steps_children rec self c (init_fields c) Hrec
              (<[self := Object c ∅]> h) ∅ (init_fields_NoDup c))
    as (A & HA & Hlists & Hnews & Hdist).
  { by rewrite lookup_insert_eq. }
  exists A. split_and!; [done..| |done].
  intros name c' Hin.
  destruct (Hnews name c' Hin) as (y & g & g' & Hr & Hdom & Hy & Hfr).
  exists y, g, g'. split_and!; [done|done|..|done].
  - intros ->. apply Hrec in Hr as (Hnone & _).
    destruct (Hdom self) as [o Ho]; [|congruence].
    rewrite lookup_insert_eq. eauto.
  - apply Hrec in Hr as (Hnone & _).
    destruct (h !! y) as [o|] eqn:Hy'; [|done].
    destruct (Hdom y) as [o' Ho']; [|congruence].
    destruct (decide (y = self)) as [->|Hne]; [congruence|].
    rewrite lookup_insert_ne by done. eauto.
Qed.

(** What [c()] leaves in a field it initialises with [i]. *)
Lemma construct_fields c h x h' :
  construct c h = (x, h') →
  h !! x = None ∧ h ⊆ h' ∧
  ∃ A, h' !! x = Some (Object c A) ∧
    (∀ name, name ∉ (init_fields c).*1 → A !! name = None) ∧
    (∀ name a, (name, InitAtom a) ∈ init_fields c →
               A !! name = Some (VAtom a)) ∧
    (∀ name, (name, InitList) ∈ init_fields c → A !! name = Some (VList [])) ∧
    (∀ name c', (name, InitNew c') ∈ init_fields c →
       ∃ y Ay, A !! name = Some (VObj y) ∧ y ≠ x ∧ h !! y = None ∧
               h' !! y = Some (Object c' Ay) ∧
               (∀ name', name' ∉ (init_fields c').*1 → Ay !! name' = None) ∧
               (∀ name' a, (name', InitAtom a) ∈ init_fields c' →
                           Ay !! name' = Some (VAtom a)) ∧
               (∀ name', (name', InitList) ∈ init_fields c' →
                         Ay !! name' = Some (VList []))) ∧
    (∀ n1 n2 c1 c2 y,
       (n1, InitNew c1) ∈ init_fields c → (n2, InitNew c2) ∈ init_fields c →
       A !! n1 = Some (VObj y) → A !! n2 = Some (VObj y) → n1 = n2).
Proof.
  intros Hc. pose proof (construct_spec _ _ _ _ Hc) as (Hx & Hsub & A & HA & Hat & Hno).
  rewrite (construct_new 1) in Hc.
  apply new_children in Hc as (A1 & HA1 & Hlists & Hnews & Hdist).
  assert (A1 = A) as -> by congruence.
  split_and!; [done..|]. exists A. split_and!; [done..| |done].
  intros name c' Hin.
  destruct (Hnews name c' Hin) as (y & g & g' & Hr & Hy & Hne & Hfresh & Hfr).
  pose proof (new_spec _ _ _ _ _ init_fields_NoDup Hr)
    as (_ & _ & Ay & HAy & Hat' & Hno').
  apply new_children in Hr as (A2 & HA2 & Hlists' & _).
  assert (A2 = Ay) as -> by congruence.
  exists y, Ay. split_and!; [done|done|done|by apply Hfr|done|done|done].
Qed.

(** X2: Every constructor gives a new node whose fields are as [__init__]
    assigns them: the literal, the empty list, or a new node of the class
    called there, set up by the [__init__] of that class, which no other
    field holds and which is none of the nodes that existed before. No
    [__init__] nests constructor calls deeper than one level, so [new] needs
    no more depth than 1. *)
Theorem construct_children_fresh (c : class) (h : heap) (x : Z) (h' : heap) :
  construct c h = (x, h') →
  (∀ depth, new (S depth) c h = (x, h')) ∧
  h !! x = None ∧ h ⊆ h' ∧
  ∃ o, h' !! x = Some o ∧ cls o = c ∧
    (∀ name, name ∉ (init_fields c).*1 → attrs o !! name = None) ∧
    (∀ name i, (name, i) ∈ init_fields c →
       match i with
       | InitAtom a => attrs o !! name = Some (VAtom a)
       | InitList => attrs o !! name = Some (VList [])
       | InitNew c' =>
           ∃ y o', attrs o !! name = Some (VObj y) ∧ y ≠ x ∧
                   h !! y = None ∧ h' !! y = Some o' ∧ cls o' = c' ∧
                   ∀ name' i', (name', i') ∈ init_fields c' →
                     match i' with
                     | InitAtom a => attrs o' !! name' = Some (VAtom a)
                     | InitList => attrs o' !! name' = Some (VList [])
                     | InitNew _ => False
                     end
       end) ∧
    (∀ n1 n2 y, attrs o !! n1 = Some (VObj y) →
                attrs o !! n2 = Some (VObj y) → n1 = n2).
Proof.
  intros Hc. split.
  { intros depth. by rewrite <- construct_new. }
  destruct (construct_fields _ _ _ _ Hc)
    as (Hx & Hsub & A & HA & Hno & Hat & Hlists & Hnews & Hdist).
  split_and!; [done..|]. exists (Object c A). simpl.
  assert (∀ name i, (name, i) ∈ init_fields c →
       match i with
       | InitAtom a => A !! name = Some (VAtom a)
       | InitList => A !! name = Some (VList [])
       | InitNew c' =>
           ∃ y o', A !! name = Some (VObj y) ∧ y ≠ x ∧
                   h !! y = None ∧ h' !! y = Some o' ∧ cls o' = c' ∧
                   ∀ name' i', (name', i') ∈ init_fields c' →
                     match i' with
                     | InitAtom a => attrs o' !! name' = Some (VAtom a)
                     | InitList => attrs o' !! name' = Some (VList [])
                     | InitNew _ => False
                     end
       end) as Hfields.
  { intros name [a| |c'] Hin; [by auto..|].
    destruct (Hnews name c' Hin)
      as (y & Ay & Hy & Hne & Hfresh & HAy & _ & Hat' & Hlists').
    exists y, (Object c' Ay). split_and!; [done..|].
    intros name' [a| |c''] Hin'; simpl; [by auto..|].
    exact (init_fields_nesting _ _ _ Hin _ _ Hin'). }
  split_and!; [done..|].
  assert (∀ n y, A !! n = Some (VObj y) → ∃ c', (n, InitNew c') ∈ init_fields c)
    as Hobj.
  { intros n y Hn.
    destruct (decide (n ∈ (init_fields c).*1)) as [Hin|Hin].
    - apply list_elem_of_fmap in Hin as ([n' i] & -> & Hin). simpl in Hn.
      specialize (Hfields _ _ Hin). destruct i as [a| |c']; [congruence..|].
      eauto.
    - by rewrite (Hno n Hin) in Hn. }
  intros n1 n2 y H1 H2.
  destruct (Hobj _ _ H1) as [c1 Hin1]. destruct (Hobj _ _ H2) as [c2 Hin2].
  by eapply Hdist.
Qed.

Lemma construct_children_fresh_witness :
  ∃ o, (construct TableConstructor ∅).2 !! (construct TableConstructor ∅).1
       = Some o ∧
       ∀ n1 n2 y, attrs o !! n1 = Some (VObj y) →
                  attrs o !! n2 = Some (VObj y) → n1 = n2.
Proof.
  destruct (construct_children_fresh TableConstructor ∅
              (construct TableConstructor ∅).1
              (construct TableConstructor ∅).2)
    as (_ & _ & _ & o & Ho & _ & _ & _ & Hd).
  - by destruct (construct TableConstructor ∅).
  - exists o. split; [exact Ho|exact Hd].
Defined.

(** ** [load_dict] on data of any shape *)

(** Induction on data that reaches into lists and dicts. *)
Lemma data_ind' (P : data → Prop) :
  (∀ a, P (DAtom a)) →
  (∀ l, Forall P l → P (DList l)) →
  (∀ items, Forall (λ kv, P kv.2) items → P (DDict items)) →
  ∀ d, P d.
Proof.
  intros Ha Hl Hd. fix IH 1. intros [a|l|items]; [apply Ha|apply Hl|apply Hd].
  - induction l as [|d l IHl]; constructor; [apply IH|apply IHl].
  - induction items as [|[k d] items IHl]; constructor; [apply IH|apply IHl].
Qed.

Lemma value_ok_mono (g g' : heap) v : g ⊆ g' → value_ok g v → value_ok g' v.
Proof.
  intros Hsub. induction v as [a|l IH|x] using value_ind'; simpl; [done|..].
  - rewrite !forallb_True. intros Hl. rewrite Forall_forall in IH, Hl.
    apply Forall_forall. intros v Hv. by apply IH, Hl.
  - intros [o Ho]%bool_decide_unpack. apply bool_decide_pack.
    exists o. by eapply lookup_weaken.
Qed.

Lemma mapping_ok_mono m (g g' : heap) :
  (∀ y, is_Some (g !! y) → is_Some (g' !! y)) →
  mapping_ok m g → mapping_ok m g'.
Proof. intros Hg Hm k y Hk. by eapply Hg, Hm. Qed.

Lemma load_items_keeps l :
  Forall load_keeps l →
  ∀ m g vs m' g', load_items load_dict l (m, g) = Some (vs, (m', g')) →
    g ⊆ g' ∧ dom m ⊆ dom m' ∧
    (mapping_ok m g → mapping_ok m' g' ∧ forallb (value_ok g') vs).
Proof.
  induction 1 as [|d l Hd _ IH]; intros m g vs m' g'.
  { rewrite load_items_nil. intros [= <- <- <-]. done. }
  rewrite load_items_cons.
  destruct (load_dict d (m, g)) as [[v [m1 g1]]|] eqn:H1; [|done]. simpl.
  destruct (load_items load_dict l (m1, g1)) as [[vs' [m2 g2]]|] eqn:H2;
    [|done].
  simpl. intros [= <- <- <-].
  destruct (Hd _ _ _ _ _ H1) as (Hg1 & Hm1 & Hok1).
  destruct (IH _ _ _ _ _ H2) as (Hg2 & Hm2 & Hok2).
  split_and!; [by etrans|by etrans|].
  intros Hm. destruct (Hok1 Hm) as [Hm1' Hv]. destruct (Hok2 Hm1') as [? Hvs].
  split; [done|]. simpl. apply andb_True. split; [|done].
  by eapply value_ok_mono.
Qed.

Lemma load_fields_keeps res items :
  Forall (λ kv, load_keeps kv.2) items →
  ∀ m (g : heap) m' g' c A,
    load_fields load_dict res items (m, g) = Some (m', g') →
    g !! res = Some (Object c A) →
    (∀ y o, y ≠ res → g !! y = Some o → g' !! y = Some o) ∧
    dom m ⊆ dom m' ∧
    (∃ A', g' !! res = Some (Object c A') ∧
           ∀ name, name ∉ items.*1 → A' !! name = A !! name) ∧
    (mapping_ok m g → mapping_ok m' g').
Proof.
  induction 1 as [|[key d] items Hd _ IH]; intros m g m' g' c A.
  { rewrite load_fields_nil. intros [= <- <-] Hres.
    split_and!; [done..| |done]. eauto. }
  rewrite load_fields_cons. case_decide as Hkey.
  { intros Hl Hres. destruct (IH _ _ _ _ _ _ Hl Hres)
      as (Hfr & Hm & (A' & HA' & Hkeep) & Hok).
    split_and!; [done..| |done]. exists A'. split; [done|].
    intros name [_ Hn]%not_elem_of_cons. auto. }
  destruct (load_dict d (m, g)) as [[v [m1 g1]]|] eqn:H1; [|done]. simpl.
  intros Hl Hres. simpl in Hd.
  destruct (Hd _ _ _ _ _ H1) as (Hg1 & Hm1 & Hok1).
  assert (g1 !! res = Some (Object c A)) as Hres1
    by (by eapply lookup_weaken).
  destruct (IH _ _ _ _ _ _ Hl (setattr_lookup _ key v _ _ _ Hres1))
    as (Hfr & Hm & (A' & HA' & Hkeep) & Hok).
  split_and!.
  - intros y o Hy Hyo. apply Hfr; [done|].
    rewrite setattr_lookup_ne by done. by eapply lookup_weaken.
  - by etrans.
  - exists A'. split; [done|].
    intros name [Hn1 Hn2]%not_elem_of_cons. rewrite Hkeep by done.
    by rewrite lookup_insert_ne.
  - intros Hmok. apply Hok. destruct (Hok1 Hmok) as [Hmok1 _].
    eapply mapping_ok_mono; [|done]. intros y. by rewrite setattr_is_Some.
Qed.

Lemma load_dict_keeps d : load_keeps d.
Proof.
  induction d as [a|l IH|items IH] using data_ind'; intros m g v m' g'.
  - intros [= <- <- <-]. done.
  - rewrite load_dict_DList.
    destruct (load_items load_dict l (m, g)) as [[vs [m1 g1]]|] eqn:Hl;
      [|done].
    simpl. intros [= <- <- <-]. by apply (load_items_keeps l IH) in Hl.
  - rewrite load_dict_DDict.
    destruct (dict_get "class" items) as [cn|]; [|done]. simpl.
    destruct (dict_get "_id" items) as [obj_id|]; [|done]. simpl.
    destruct cn as [[| | |cn]| |]; try done.
    destruct obj_id as [[| |obj_id|]| |]; try done.
    case_decide as Hcn.
    + destruct (m !! obj_id) as [res|] eqn:Hres; [|done]. simpl.
      intros [= <- <- <-]. split_and!; [done..|].
      intros Hm. split; [done|]. simpl. apply bool_decide_pack. eauto.
    + destruct (cls_map !! cn) as [c|]; [|done]. simpl.
      destruct (construct c g) as [res g0] eqn:Hc.
      apply construct_spec in Hc as (Hfresh & Hsub & A & HA & _).
      destruct (load_fields load_dict res items _) as [[m1 g1]|] eqn:Hl;
        [|done].
      simpl. intros [= <- <- <-].
      destruct (load_fields_keeps res items IH _ _ _ _ _ _ Hl HA)
        as (Hfr & Hm & (A' & HA' & _) & Hok).
      split_and!.
      * apply map_subseteq_spec. intros y o Hy. apply Hfr; [congruence|].
        by eapply lookup_weaken.
      * etrans; [|exact Hm]. set_solver.
      * intros Hmok. split; [|simpl; apply bool_decide_pack; eauto].
        apply Hok. intros k y. destruct (decide (k = obj_id)) as [->|Hk].
        -- rewrite lookup_insert_eq. intros [= <-]. eauto.
        -- rewrite lookup_insert_ne by done. intros Hk'.
           destruct (Hmok _ _ Hk') as [o Ho]. exists o.
           by eapply lookup_weaken.
Qed.

(** X3: On data with integer ids and keys that [setattr] stores, whatever
    its shape otherwise (written by [to_dict] or not), [load_dict] never
    changes or removes a node that existed before the call and removes no
    key of the shared [mapping]; if [mapping] referred to nodes of the heap
    only, it still does, and so does the result. *)
Theorem load_dict_keeps_existing_nodes (d : data) (mapping : gmap Z Z)
    (h : heap) (v : value) (mapping' : gmap Z Z) (h' : heap) :
  plain special_attributes d = true →
  load_dict d (mapping, h) = Some (v, (mapping', h')) →
  h ⊆ h' ∧ dom mapping ⊆ dom mapping' ∧
  (mapping_ok mapping h → mapping_ok mapping' h' ∧ value_ok h' v).
Proof. intros _. apply load_dict_keeps. Qed.

Lemma load_dict_keeps_existing_nodes_witness :
  ast_local_x ⊆ loaded_local_x.2.2 ∧
  dom (∅ : gmap Z Z) ⊆ dom loaded_local_x.2.1 ∧
  (mapping_ok ∅ ast_local_x →
   mapping_ok loaded_local_x.2.1 loaded_local_x.2.2 ∧
   value_ok loaded_local_x.2.2 loaded_local_x.1).
Proof.
  apply (load_dict_keeps_existing_nodes dict_local_x.1 ∅ ast_local_x).
  - vm_compute. reflexivity.
  - vm_compute. reflexivity.
Defined.

(** What [load_dict] does with the dict of a node: it constructs the node
    and then sets the keys of the dict, so every field that is no key is
    as the constructor left it, and so is every other new node. *)
Lemma load_dict_node items cn m g v m' g' :
  dict_get "class" items = Some (DAtom (AStr cn)) → cn ≠ "Ref" →
  load_dict (DDict items) (m, g) = Some (v, (m', g')) →
  ∃ c res g0 A0 A',
    cls_map !! cn = Some c ∧ construct c g = (res, g0) ∧ v = VObj res ∧
    g0 !! res = Some (Object c A0) ∧ g' !! res = Some (Object c A') ∧
    (∀ name, name ∉ items.*1 → A' !! name = A0 !! name) ∧
    (∀ y o, y ≠ res → g0 !! y = Some o → g' !! y = Some o).
Proof.
  intros Hclass Hcn. rewrite load_dict_DDict, Hclass. simpl.
  destruct (dict_get "_id" items) as [obj_id|]; [|done]. simpl.
  destruct obj_id as [[| |obj_id|]| |]; try done.
  rewrite decide_False by done.
  destruct (cls_map !! cn) as [c|]; [|done]. simpl.
  destruct (construct c g) as [res g0] eqn:Hc.
  pose proof (construct_spec _ _ _ _ Hc) as (Hfresh & Hsub & A & HA & _).
  destruct (load_fields load_dict res items _) as [[m1 g1]|] eqn:Hl; [|done].
  simpl. intros [= <- <- <-].
  assert (Forall (λ kv : string * data, load_keeps kv.2) items) as Hitems.
  { apply Forall_forall. intros ??. apply load_dict_keeps. }
  destruct (load_fields_keeps res items Hitems _ _ _ _ _ _ Hl HA)
    as (Hfr & _ & (A' & HA' & Hkeep) & _).
  exists c, res, g0, A, A'. done.
Qed.

(** ** What [load_dict] builds can be dumped *)

Lemma value_ok_dom (g g' : heap) v :
  (∀ y, is_Some (g !! y) → is_Some (g' !! y)) →
  value_ok g v → value_ok g' v.
Proof.
  intros Hdom. induction v as [a|l IH|x] using value_ind'; simpl; [done|..].
  - rewrite !forallb_True. intros Hl. rewrite Forall_forall in IH, Hl.
    apply Forall_forall. intros v Hv. by apply IH, Hl.
  - intros Hx%bool_decide_unpack. apply bool_decide_pack. auto.
Qed.

Lemma heap_wf_dom (g g' : heap) x o :
  heap_wf g → (∀ y, is_Some (g !! y) → is_Some (g' !! y)) →
  g !! x = Some o →
  cls o ≠ AstNode ∧ map_Forall (λ _ v, value_ok g' v = true) (attrs o).
Proof.
  intros Hg Hdom Hx. destruct (Hg x o Hx) as [Hc Ha]. split; [done|].
  intros name v Hv. apply Is_true_true. eapply value_ok_dom; [done|].
  apply Is_true_true. by eapply Ha.
Qed.

Lemma heap_wf_setattr (g : heap) x name v :
  heap_wf g → value_ok g v → heap_wf (setattr x name v g).
Proof.
  intros Hg Hv y o Hy.
  assert (∀ z, is_Some (g !! z) → is_Some (setattr x name v g !! z)) as Hdom.
  { intros z. by rewrite setattr_is_Some. }
  destruct (decide (y = x)) as [->|Hne].
  - unfold setattr in Hy. destruct (g !! x) as [ox|] eqn:Hx.
    + rewrite lookup_insert_eq in Hy. injection Hy as <-. simpl.
      destruct (heap_wf_dom _ _ _ _ Hg Hdom Hx) as [Hc Ha]. split; [done|].
      apply map_Forall_insert_2; [|done].
      apply Is_true_true. by eapply value_ok_dom.
    + rewrite Hx in Hy. done.
  - rewrite setattr_lookup_ne in Hy by done.
    by eapply heap_wf_dom.
Qed.

Lemma heap_wf_alloc (g : heap) c x g' :
  heap_wf g → c ≠ AstNode → alloc c g = (x, g') → heap_wf g'.
Proof.
  intros Hg Hc [Hx ->]%alloc_fresh y o Hy.
  destruct (decide (y = x)) as [->|Hne].
  - rewrite lookup_insert_eq in Hy. injection Hy as <-. simpl.
    split; [done|]. apply map_Forall_empty.
  - rewrite lookup_insert_ne in Hy by done.
    eapply heap_wf_dom; [done| |done].
    intros z [oz Hz]. destruct (decide (z = x)) as [->|?].
    + rewrite lookup_insert_eq. eauto.
    + rewrite lookup_insert_ne by done. eauto.
Qed.

(** No [__init__] constructs an instance of [AstNode] itself. *)
Lemma init_fields_proper c name c' :
  (name, InitNew c') ∈ init_fields c → c' ≠ AstNode.
Proof.
  intros Hin ->.
  destruct c; simpl in Hin;
    repeat (apply elem_of_cons in Hin as [Hin|Hin]);
    try (by apply elem_of_nil in Hin); simplify_eq.
Qed.

Lemma init_steps_wf rec self (fs : list (string * init)) :
  constructs rec →
  (∀ c' g x g', c' ≠ AstNode → heap_wf g → rec c' g = (x, g') → heap_wf g') →
  (∀ name c', (name, InitNew c') ∈ fs → c' ≠ AstNode) →
  ∀ g, heap_wf g → heap_wf (foldl (init_step rec self) g fs).
Proof.
  intros Hrec Hwf. induction fs as [|[name i] fs IH]; intros Hfs g Hg; [done|].
  simpl. apply IH; [intros ???; eapply Hfs; by right|].
  unfold init_step. simpl. destruct i as [a| |c'].
  - by apply heap_wf_setattr.
  - by apply heap_wf_setattr.
  - destruct (rec c' g) as [x g1] eqn:Hr.
    apply heap_wf_setattr.
    + eapply Hwf; [|done|done]. eapply Hfs. by left.
    + apply Hrec in Hr as (_ & _ & A & HA). simpl.
      apply bool_decide_pack. eauto.
Qed.

Lemma new_wf depth : ∀ c g x g',
  c ≠ AstNode → heap_wf g → new depth c g = (x, g') → heap_wf g'.
Proof.
  induction depth as [|depth IH]; intros c g x g' Hc Hg; rewrite new_unfold;
    destruct (alloc c g) as [self g1] eqn:Ha; intros [= <- <-];
    apply init_steps_wf;
    eauto using alloc_constructs, heap_wf_alloc, init_fields_proper.
  intros c' h y h' Hn.
  apply new_spec in Hn as (? & ? & A & ? & _); eauto using init_fields_NoDup.
Qed.

Lemma construct_wf c g x g' :
  c ≠ AstNode → heap_wf g → construct c g = (x, g') → heap_wf g'.
Proof. rewrite (construct_new 1). apply new_wf. Qed.

Lemma load_items_wf l :
  Forall load_wf l →
  ∀ m g vs m' g', heap_wf g → mapping_ok m g →
    load_items load_dict l (m, g) = Some (vs, (m', g')) → heap_wf g'.
Proof.
  induction 1 as [|d l Hd _ IH]; intros m g vs m' g' Hg Hm.
  { rewrite load_items_nil. by intros [= <- <- <-]. }
  rewrite load_items_cons.
  destruct (load_dict d (m, g)) as [[v [m1 g1]]|] eqn:H1; [|done]. simpl.
  destruct (load_items load_dict l (m1, g1)) as [[vs' [m2 g2]]|] eqn:H2;
    [|done].
  simpl. intros [= <- <- <-].
  destruct (load_dict_keeps d _ _ _ _ _ H1) as (_ & _ & Hok).
  destruct (Hok Hm) as [Hm1 _]. eauto.
Qed.

Lemma load_fields_wf res items :
  Forall (λ kv, load_wf kv.2) items →
  ∀ m g m' g', heap_wf g → mapping_ok m g →
    load_fields load_dict res items (m, g) = Some (m', g') → heap_wf g'.
Proof.
  induction 1 as [|[key d] items Hd _ IH]; intros m g m' g' Hg Hm.
  { rewrite load_fields_nil. by intros [= <- <-]. }
  rewrite load_fields_cons. case_decide; [by apply IH|].
  destruct (load_dict d (m, g)) as [[v [m1 g1]]|] eqn:H1; [|done]. simpl.
  destruct (load_dict_keeps d _ _ _ _ _ H1) as (_ & _ & Hok).
  destruct (Hok Hm) as [Hm1 Hv].
  apply IH.
  - apply heap_wf_setattr; [|done]. by eapply Hd.
  - eapply mapping_ok_mono; [|done]. intros y. by rewrite setattr_is_Some.
Qed.

Lemma load_dict_wf d : load_wf d.
Proof.
  induction d as [a|l IH|items IH] using data_ind'; intros m g v m' g' Hg Hm.
  - by intros [= <- <- <-].
  - rewrite load_dict_DList.
    destruct (load_items load_dict l (m, g)) as [[vs [m1 g1]]|] eqn:Hl;
      [|done].
    simpl. intros [= <- <- <-]. by eapply load_items_wf.
  - rewrite load_dict_DDict.
    destruct (dict_get "class" items) as [cn|]; [|done]. simpl.
    destruct (dict_get "_id" items) as [obj_id|]; [|done]. simpl.
    destruct cn as [[| | |cn]| |]; try done.
    destruct obj_id as [[| |obj_id|]| |]; try done.
    case_decide as Hcn.
    + destruct (m !! obj_id) as [res|]; [|done]. simpl.
      by intros [= <- <- <-].
    + destruct (cls_map !! cn) as [c|] eqn:Hc; [|done]. simpl.
      apply subclass_name_mapping_keys in Hc as [Hc _].
      destruct (construct c g) as [res g0] eqn:Hcons.
      pose proof (construct_spec _ _ _ _ Hcons) as (_ & Hsub & A & HA & _).
      destruct (load_fields load_dict res items _) as [[m1 g1]|] eqn:Hl;
        [|done].
      simpl. intros [= <- <- <-].
      eapply load_fields_wf; [done| | |done].
      * by eapply construct_wf.
      * intros k y. destruct (decide (k = obj_id)) as [->|Hk].
        -- rewrite lookup_insert_eq. intros [= <-]. eauto.
        -- rewrite lookup_insert_ne by done. intros Hk'.
           destruct (Hm _ _ Hk') as [o Ho]. exists o.
           by eapply lookup_weaken.
Qed.

Lemma plain_DList reserved l :
  plain reserved (DList l) = forallb (plain reserved) l.
Proof. done. Qed.

Lemma plain_DDict reserved items :
  plain reserved (DDict items) = true →
  Forall (λ kv, (kv.1 ∉ reserved) ∧ plain reserved kv.2 = true) items.
Proof.
  intros [_ Hitems]%andb_true_iff.
  induction items as [|[key d] items IH]; [by constructor|].
  simpl in Hitems. apply andb_true_iff in Hitems as [Hkv Hitems].
  apply andb_true_iff in Hkv as [Hk%bool_decide_eq_true Hd].
  constructor; [done|by apply IH].
Qed.

Lemma class_slots_setattr (g : heap) x name v :
  class_slots g → name ≠ "_slots" → class_slots (setattr x name v g).
Proof.
  intros Hg Hn y o Hy. destruct (decide (y = x)) as [->|Hne].
  - unfold setattr in Hy. destruct (g !! x) as [ox|] eqn:Hx.
    + rewrite lookup_insert_eq in Hy. injection Hy as <-. simpl.
      rewrite lookup_insert_ne by done. by eapply Hg.
    + rewrite Hx in Hy. done.
  - rewrite setattr_lookup_ne in Hy by done. by eapply Hg.
Qed.

Lemma class_slots_alloc (g : heap) c x g' :
  class_slots g → alloc c g = (x, g') → class_slots g'.
Proof.
  intros Hg [Hx ->]%alloc_fresh. apply map_Forall_insert_2; [|done].
  apply lookup_empty.
Qed.

(** No [__init__] assigns to [self._slots]. *)
Lemma init_fields_no_slots c : "_slots" ∉ (init_fields c).*1.
Proof. destruct c; by_compute. Qed.

Lemma init_steps_class_slots rec self (fs : list (string * init)) :
  (∀ c' g x g', class_slots g → rec c' g = (x, g') → class_slots g') →
  "_slots" ∉ fs.*1 →
  ∀ g, class_slots g → class_slots (foldl (init_step rec self) g fs).
Proof.
  intros Hrec. induction fs as [|[name i] fs IH]; intros Hfs g Hg; [done|].
  simpl in Hfs. apply not_elem_of_cons in Hfs as [Hname Hfs].
  simpl. apply IH; [done|].
  unfold init_step. simpl. destruct i as [a| |c'].
  - by apply class_slots_setattr.
  - by apply class_slots_setattr.
  - destruct (rec c' g) as [x g1] eqn:Hr.
    apply class_slots_setattr; [by eapply Hrec|done].
Qed.

Lemma new_class_slots depth : ∀ c g x g',
  class_slots g → new depth c g = (x, g') → class_slots g'.
Proof.
  induction depth as [|depth IH]; intros c g x g' Hg; rewrite new_unfold;
    destruct (alloc c g) as [self g1] eqn:Ha; intros [= <- <-];
    apply init_steps_class_slots;
    eauto using class_slots_alloc, init_fields_no_slots.
Qed.

Lemma construct_class_slots c g x g' :
  class_slots g → construct c g = (x, g') → class_slots g'.
Proof. rewrite (construct_new 1). apply new_class_slots. Qed.

Lemma load_items_class_slots l :
  Forall load_class_slots l →
  ∀ m g vs m' g',
    forallb (plain ("_slots" :: special_attributes)) l = true →
    class_slots g →
    load_items load_dict l (m, g) = Some (vs, (m', g')) → class_slots g'.
Proof.
  induction 1 as [|d l Hd _ IH]; intros m g vs m' g' Hp Hg.
  { rewrite load_items_nil. by intros [= <- <- <-]. }
  simpl in Hp. apply andb_true_iff in Hp as [Hp1 Hp2].
  rewrite load_items_cons.
  destruct (load_dict d (m, g)) as [[v [m1 g1]]|] eqn:H1; [|done]. simpl.
  destruct (load_items load_dict l (m1, g1)) as [[vs' [m2 g2]]|] eqn:H2;
    [|done].
  simpl. intros [= <- <- <-]. eauto.
Qed.

Lemma load_fields_class_slots res items :
  Forall (λ kv, load_class_slots kv.2) items →
  ∀ m g m' g',
    Forall (λ kv, (kv.1 ∉ "_slots" :: special_attributes) ∧
                  plain ("_slots" :: special_attributes) kv.2 = true) items →
    class_slots g →
    load_fields load_dict res items (m, g) = Some (m', g') → class_slots g'.
Proof.
  induction 1 as [|[key d] items Hd _ IH]; intros m g m' g' Hp Hg.
  { rewrite load_fields_nil. by intros [= <- <-]. }
  apply Forall_cons in Hp as [[Hk Hpd] Hp]. simpl in Hk, Hpd.
  rewrite load_fields_cons. case_decide; [by apply IH|].
  destruct (load_dict d (m, g)) as [[v [m1 g1]]|] eqn:H1; [|done]. simpl.
  apply IH; [done|]. apply class_slots_setattr; [by eapply Hd|].
  intros ->. apply Hk. by left.
Qed.

Lemma load_dict_class_slots d : load_class_slots d.
Proof.
  induction d as [a|l IH|items IH] using data_ind'; intros m g v m' g' Hp Hg.
  - by intros [= <- <- <-].
  - rewrite plain_DList in Hp. rewrite load_dict_DList.
    destruct (load_items load_dict l (m, g)) as [[vs [m1 g1]]|] eqn:Hl;
      [|done].
    simpl. intros [= <- <- <-]. by eapply load_items_class_slots.
  - apply plain_DDict in Hp. rewrite load_dict_DDict.
    destruct (dict_get "class" items) as [cn|]; [|done]. simpl.
    destruct (dict_get "_id" items) as [obj_id|]; [|done]. simpl.
    destruct cn as [[| | |cn]| |]; try done.
    destruct obj_id as [[| |obj_id|]| |]; try done.
    case_decide as Hcn.
    + destruct (m !! obj_id) as [res|]; [|done]. simpl.
      by intros [= <- <- <-].
    + destruct (cls_map !! cn) as [c|] eqn:Hc; [|done]. simpl.
      destruct (construct c g) as [res g0] eqn:Hcons.
      destruct (load_fields load_dict res items _) as [[m1 g1]|] eqn:Hl;
        [|done].
      simpl. intros [= <- <- <-].
      eapply load_fields_class_slots; [done|done| |done].
      by eapply construct_class_slots.
Qed.

Lemma heap_wf_ok g : heap_wf g → heap_ok g.
Proof.
  intros Hg x o Hx. destruct (Hg x o Hx) as [Hc Ha]. split; [done|].
  apply Forall_forall. intros name _. unfold getattr.
  destruct (attrs o !! name) as [v|] eqn:Hv; [|done]. simpl.
  apply Is_true_true. by eapply Ha.
Qed.

(** X4: What [load_dict] builds from data with integer ids and without the
    key [_slots] (and the keys [setattr] refuses) can be dumped again:
    loading such data into a heap without dangling references whose nodes
    take [_slots] from their class, through a [mapping] that refers to nodes
    of the heap, leaves such a heap, on which [to_dict] returns for the
    value loaded. *)
Theorem load_dict_result_can_be_dumped (d : data) (mapping : gmap Z Z)
    (h : heap) (v : value) (mapping' : gmap Z Z) (h' : heap) :
  plain ("_slots" :: special_attributes) d = true →
  heap_wf h → class_slots h → mapping_ok mapping h →
  load_dict d (mapping, h) = Some (v, (mapping', h')) →
  heap_wf h' ∧ class_slots h' ∧ heap_ok h' ∧
  ∃ fuel d' visited, to_dict fuel h' v ∅ = Some (d', visited).
Proof.
  intros Hp Hh Hs Hm Hl.
  pose proof (load_dict_wf d _ _ _ _ _ Hh Hm Hl) as Hwf.
  pose proof (load_dict_class_slots d _ _ _ _ _ Hp Hs Hl) as Hcs.
  pose proof (heap_wf_ok _ Hwf) as Hok.
  destruct (load_dict_keeps d _ _ _ _ _ Hl) as (_ & _ & Hv).
  destruct (Hv Hm) as [_ Hv'].
  split_and!; [done..|].
  destruct (to_dict_returns h' Hok (size (dom h')) v ∅)
    as (fuel & d' & vis & Hd & _); [apply subseteq_size; set_solver|done|].
  eauto.
Qed.

Lemma ast_local_x_wf : heap_wf ast_local_x.
Proof. by_compute. Qed.

Lemma load_dict_result_can_be_dumped_witness :
  heap_wf loaded_local_x.2.2 ∧ class_slots loaded_local_x.2.2 ∧
  heap_ok loaded_local_x.2.2 ∧
  ∃ fuel d' visited,
    to_dict fuel loaded_local_x.2.2 loaded_local_x.1 ∅ = Some (d', visited).
Proof.
  apply (load_dict_result_can_be_dumped dict_local_x.1 ∅ ast_local_x
           loaded_local_x.1 loaded_local_x.2.1 loaded_local_x.2.2).
  - vm_compute. reflexivity.
  - by_compute.
  - by_compute.
  - intros k y. by rewrite lookup_empty.
  - vm_compute. reflexivity.
Defined.

(** ** The format [to_dict] writes *)

Lemma to_dict_node fuel h x o vis d vis' :
  h !! x = Some o → x ∉ vis →
  to_dict fuel h (VObj x) vis = Some (d, vis') →
  ∃ fuel' ss,
    fuel = S fuel' ∧
    to_dict_items (to_dict fuel' h) (getattr o <$> slots (cls o))
      ({[x]} ∪ vis) = Some (ss, vis') ∧
    d = DDict (("class", DAtom (AStr (class_name (cls o))))
               :: ("_id", DAtom (AInt x)) :: zip (slots (cls o)) ss).
Proof.
  intros Ho Hx. destruct fuel as [|fuel]; [done|].
  rewrite to_dict_S, Ho. simpl. rewrite decide_False by done.
  destruct (to_dict_slots _ o _ _ _) as [[d0 vis1]|] eqn:Hs; [|done].
  simpl. intros [= <- <-].
  apply to_dict_slots_spec in Hs as (ss & Hitems & ->); [|apply slots_NoDup|].
  - by exists fuel, ss.
  - intros n Hn. apply slots_not_reserved in Hn as [??].
    simpl. rewrite !not_elem_of_cons.
    split_and!; [done|done|apply not_elem_of_nil].
Qed.

Lemma to_dict_items_length rec l : ∀ vis ss vis',
  to_dict_items rec l vis = Some (ss, vis') → length ss = length l.
Proof.
  induction l as [|v l IH]; intros vis ss vis'.
  { rewrite to_dict_items_nil. by intros [= <- <-]. }
  rewrite to_dict_items_cons.
  destruct (rec v vis) as [[d vis1]|]; [|done]. simpl.
  destruct (to_dict_items rec l vis1) as [[ds vis2]|] eqn:Hl; [|done].
  simpl. intros [= <- <-]. simpl. f_equal. eauto.
Qed.

Lemma to_dict_items_visited (rec : value → gset Z → option (data * gset Z)) :
  (∀ v vis d vis', rec v vis = Some (d, vis') → vis ⊆ vis') →
  ∀ l vis ds vis', to_dict_items rec l vis = Some (ds, vis') → vis ⊆ vis'.
Proof.
  intros Hrec. induction l as [|v l IH]; intros vis ds vis'.
  { rewrite to_dict_items_nil. by intros [= <- <-]. }
  rewrite to_dict_items_cons.
  destruct (rec v vis) as [[d vis1]|] eqn:Hv; [|done]. simpl.
  destruct (to_dict_items rec l vis1) as [[ds' vis2]|] eqn:Hl; [|done].
  simpl. intros [= <- <-]. etrans; [exact (Hrec _ _ _ _ Hv)|exact (IH _ _ _ Hl)].
Qed.

Lemma to_dict_visited fuel h : ∀ v vis d vis',
  to_dict fuel h v vis = Some (d, vis') → vis ⊆ vis'.
Proof.
  induction fuel as [|fuel IH]; intros v vis d vis'; [done|].
  destruct v as [a|l|x].
  - by intros [= <- <-].
  - rewrite to_dict_S.
    destruct (to_dict_items _ l vis) as [[ds vis1]|] eqn:Hl; [|done].
    simpl. intros [= <- <-]. by eapply to_dict_items_visited.
  - destruct (h !! x) as [o|] eqn:Ho; [|by rewrite to_dict_S, Ho].
    destruct (decide (x ∈ vis)) as [Hx|Hx].
    + rewrite to_dict_S, Ho. simpl. rewrite decide_True by done.
      by intros [= <- <-].
    + intros Hd. destruct (to_dict_node _ _ _ _ _ _ _ Ho Hx Hd)
        as (fuel' & ss & [= <-] & Hss & _).
      apply to_dict_items_visited in Hss; [set_solver|done].
Qed.

(** X5: On a heap whose nodes take [_slots] from their class (none carries
    an instance attribute of that name), the dict [to_dict] writes for a
    node holds the keys [class], [_id] and the names of [_slots], in this
    order and each once: no field overwrites a tag. A node met before is
    written as a [Ref] with the two tags only, and [visited] is left as it
    was. *)
Theorem to_dict_node_format (fuel : nat) (h : heap) (x : Z) (o : object)
    (visited : gset Z) (d : data) (visited' : gset Z) :
  class_slots h →
  h !! x = Some o →
  to_dict fuel h (VObj x) visited = Some (d, visited') →
  (x ∈ visited →
   d = DDict [("class", DAtom (AStr "Ref")); ("_id", DAtom (AInt x))] ∧
   visited' = visited) ∧
  (x ∉ visited →
   ∃ items,
     d = DDict items ∧
     items.*1 = "class" :: "_id" :: slots (cls o) ∧
     dict_get "class" items = Some (DAtom (AStr (class_name (cls o)))) ∧
     dict_get "_id" items = Some (DAtom (AInt x)) ∧
     class_name (cls o) ≠ "Ref" ∧
     x ∈ visited').
Proof.
  intros _ Ho Hd. split; intros Hx.
  - destruct fuel as [|fuel]; [done|]. rewrite to_dict_S, Ho in Hd.
    simpl in Hd. rewrite decide_True in Hd by done. by injection Hd as <- <-.
  - destruct (to_dict_node _ _ _ _ _ _ _ Ho Hx Hd)
      as (fuel' & ss & -> & Hss & ->).
    eexists. split; [done|]. split_and!.
    + simpl. do 2 f_equal. apply fst_zip.
      apply to_dict_items_length in Hss. rewrite length_fmap in Hss. lia.
    + done.
    + done.
    + apply class_name_not_Ref.
    + apply to_dict_items_visited in Hss; [set_solver|].
      apply to_dict_visited.
Qed.

Lemma to_dict_node_format_witness :
  ∃ items,
    dict_local_x.1 = DDict items ∧
    items.*1 = ["class"; "_id"; "arguments"; "statements"] ∧
    dict_get "class" items = Some (DAtom (AStr "FunctionDefinition")) ∧
    dict_get "_id" items = Some (DAtom (AInt 100)) ∧
    "FunctionDefinition" ≠ "Ref" ∧
    100 ∈ dict_local_x.2.
Proof.
  refine (proj2 (to_dict_node_format 10 ast_local_x 100
            (node FunctionDefinition
               [("arguments", VObj 101); ("statements", VObj 102);
                ("_upvalues", VAtom ANone); ("_debuginfo", VAtom ANone);
                ("_instructions_count", VAtom (AInt 2));
                ("error", VAtom ANone)])
            ∅ dict_local_x.1 dict_local_x.2 _ _ _) _).
  - by_compute.
  - vm_compute. reflexivity.
  - vm_compute. reflexivity.
  - apply not_elem_of_empty.
Defined.

(** ** Fields outside [_slots] *)

(** X6: A round trip through [to_dict] and [load_dict] keeps no field that
    is not listed in [_slots]: in the copy of every node, such a field holds
    the literal [__init__] assigns to it ([type] of an [Assignment] is -1
    again, [_varinfo] of an [Identifier] is [None]), and a field that
    [__init__] does not assign is gone. *)
Theorem roundtrip_resets_fields_outside_slots (h : heap) (root : value) :
  heap_ok h → value_ok h root →
  ∃ fuel d visited,
    to_dict fuel h root ∅ = Some (d, visited) ∧
    ∀ mapping, ∃ root' mapping' h',
      load_dict d (mapping, h) = Some (root', (mapping', h')) ∧
      val_rel (via visited mapping') root root' ∧
      ∀ x, x ∈ visited →
        ∃ x' o o', mapping' !! x = Some x' ∧ h !! x = Some o ∧
                   h' !! x' = Some o' ∧ cls o' = cls o ∧
          ∀ name, name ∉ slots (cls o) →
            (∀ a, (name, InitAtom a) ∈ init_fields (cls o) →
                  attrs o' !! name = Some (VAtom a)) ∧
            (name ∉ (init_fields (cls o)).*1 → attrs o' !! name = None).
Proof.
  intros Hh Hroot.
  destruct (to_dict_load_dict h root Hh Hroot) as (fuel & d & visited & Hd & Hl).
  exists fuel, d, visited. split; [done|]. intros mapping.
  destruct (Hl mapping) as (root' & mapping' & h' & Hld & [_ _ _ Hn _] & Hr).
  exists root', mapping', h'. split_and!; [done..|].
  intros x Hx.
  destruct (Hn x Hx) as (x' & Hx' & _ & o & o' & Ho & Ho' & Hc & _ & Hat & Hno);
    [set_solver|].
  exists x', o, o'. split_and!; [done..|].
  intros name Hname. split; [intros a Ha|intros Hni]; eauto.
Qed.

Lemma roundtrip_resets_fields_outside_slots_witness :
  ∃ fuel d visited,
    to_dict fuel ast_local_x (VObj 103) ∅ = Some (d, visited) ∧
    ∀ mapping, ∃ root' mapping' h',
      load_dict d (mapping, ast_local_x) = Some (root', (mapping', h')) ∧
      val_rel (via visited mapping') (VObj 103) root' ∧
      ∀ x, x ∈ visited →
        ∃ x' o o', mapping' !! x = Some x' ∧ ast_local_x !! x = Some o ∧
                   h' !! x' = Some o' ∧ cls o' = cls o ∧
          ∀ name, name ∉ slots (cls o) →
            (∀ a, (name, InitAtom a) ∈ init_fields (cls o) →
                  attrs o' !! name = Some (VAtom a)) ∧
            (name ∉ (init_fields (cls o)).*1 → attrs o' !! name = None).
Proof.
  apply (roundtrip_resets_fields_outside_slots ast_local_x (VObj 103)).
  - by_compute.
  - vm_compute. exact I.
Defined.

Lemma init_fields_not_reserved c name :
  name ∈ (init_fields c).*1 → name ≠ "class" ∧ name ≠ "_id".
Proof.
  intros Hin. split; intros ->; revert Hin; destruct c; by_compute.
Qed.

(** The fields [__init__] fills with a node of their own and [_slots]
    leaves out. *)
Lemma init_new_outside_slots c name c' :
  (name, InitNew c') ∈ init_fields c ∧ name ∉ slots c ↔
  (c = NumericFor ∧ name = "expressions" ∧ c' = ExpressionsList) ∨
  (c = IteratorFor ∧ name = "identifiers" ∧ c' = VariablesList).
Proof.
  split.
  - intros [Hin Hs].
    destruct c; simpl in Hin;
      repeat (apply elem_of_cons in Hin as [Hin|Hin]);
      try (by apply elem_of_nil in Hin); simplify_eq;
      first [by left | by right | by (exfalso; apply Hs; by_compute)].
  - intros [(-> & -> & ->)|(-> & -> & ->)];
      (split; [simpl; set_solver|by_compute]).
Qed.

(** X7: A round trip loses the expressions of a numeric [for] and the
    variables of an iterator [for]: [_slots] of [NumericFor] and of
    [IteratorFor] names [expression], which no instance has, and leaves out
    [expressions] and [identifiers]. Whatever the original held there, the
    copy holds the empty list node its constructor made. *)
Theorem for_loop_roundtrip_loses_fields (h : heap) (x : Z) (o : object)
    (name : string) (c' : class) :
  heap_ok h → h !! x = Some o →
  ((cls o = NumericFor ∧ name = "expressions" ∧ c' = ExpressionsList) ∨
   (cls o = IteratorFor ∧ name = "identifiers" ∧ c' = VariablesList)) →
  (name ∉ slots (cls o)) ∧ "expression" ∈ slots (cls o) ∧
  ∃ fuel d visited,
    to_dict fuel h (VObj x) ∅ = Some (d, visited) ∧
    ∀ mapping, ∃ x' o' mapping' h',
      load_dict d (mapping, h) = Some (VObj x', (mapping', h')) ∧
      h' !! x' = Some o' ∧ cls o' = cls o ∧
      ∃ y l, attrs o' !! name = Some (VObj y) ∧ h !! y = None ∧
             h' !! y = Some l ∧ cls l = c' ∧
             attrs l !! "contents" = Some (VList []).
Proof.
  intros Hh Ho Hlost.
  apply init_new_outside_slots in Hlost as Hfield. destruct Hfield as [Hin Hs].
  split_and!; [done|destruct Hlost as [(-> & _)|(-> & _)]; by_compute|].
  destruct (to_dict_load_dict h (VObj x) Hh) as (fuel & d & visited & Hd & Hl).
  { simpl. apply bool_decide_pack. eauto. }
  exists fuel, d, visited. split; [done|]. intros mapping.
  destruct (Hl mapping) as (root' & mapping' & h' & Hld & _ & Hr).
  inversion Hr as [| |? x' _]; subst.
  destruct (to_dict_node _ _ _ _ _ _ _ Ho (not_elem_of_empty x) Hd)
    as (fuel' & ss & -> & Hss & ->).
  pose proof Hld as Hnode. eapply load_dict_node in Hnode
    as (c & res & g0 & A0 & A' & Hc & Hcons & [= ->] & HA0 & HA' & Hkeep & Hfr);
    [|reflexivity|apply class_name_not_Ref].
  rewrite cls_map_lookup in Hc by (by destruct (Hh x o Ho)).
  injection Hc as <-.
  destruct (construct_fields _ _ _ _ Hcons)
    as (_ & _ & A & HA & _ & _ & _ & Hnews & _).
  assert (A = A0) as -> by congruence.
  destruct (Hnews name c' Hin)
    as (y & Ay & Hy & Hne & Hfresh & HAy & _ & _ & Hlists).
  exists res, (Object (cls o) A'), mapping', h'. split_and!; [done..|].
  exists y, (Object c' Ay). simpl. split_and!; [|done|by apply Hfr|done|].
  - rewrite Hkeep; [done|]. simpl. rewrite fst_zip.
    2:{ apply to_dict_items_length in Hss. rewrite length_fmap in Hss. lia. }
    destruct (init_fields_not_reserved (cls o) name) as [??].
    { apply list_elem_of_fmap. by exists (name, InitNew c'). }
    rewrite !not_elem_of_cons. done.
  - apply Hlists.
    destruct Hlost as [(_ & _ & ->)|(_ & _ & ->)]; simpl; set_solver.
Qed.

Lemma ast_numeric_for_ok : heap_ok ast_numeric_for.
Proof. by_compute. Qed.

Lemma for_loop_roundtrip_loses_fields_witness :
  getattr (node NumericFor
             [("variable", VObj 601); ("expressions", VObj 602);
              ("statements", VObj 605)]) "expressions" = VObj 602 ∧
  ast_numeric_for !! 602
  = Some (node ExpressionsList [("contents", VList [VObj 603; VObj 604])]) ∧
  ∃ fuel d visited,
    to_dict fuel ast_numeric_for (VObj 600) ∅ = Some (d, visited) ∧
    ∀ mapping, ∃ x' o' mapping' h',
      load_dict d (mapping, ast_numeric_for)
      = Some (VObj x', (mapping', h')) ∧
      h' !! x' = Some o' ∧ cls o' = NumericFor ∧
      ∃ y l, attrs o' !! "expressions" = Some (VObj y) ∧
             ast_numeric_for !! y = None ∧
             h' !! y = Some l ∧ cls l = ExpressionsList ∧
             attrs l !! "contents" = Some (VList []).
Proof.
  split_and!; [by vm_compute..|].
  refine (proj2 (proj2 (for_loop_roundtrip_loses_fields ast_numeric_for 600
            (node NumericFor
               [("variable", VObj 601); ("expressions", VObj 602);
                ("statements", VObj 605)])
            "expressions" ExpressionsList _ _ _))).
  - by_compute.
  - vm_compute. reflexivity.
  - left. done.
Defined.

(** ** Dumps that share [visited], loads that share [mapping] *)

(** What a completed load from an empty [visited] set amounts to. *)
Lemma step_ok_bisimulation (h : heap) vis m m' (h' : heap) :
  step_ok h ∅ ∅ vis m m' h h' →
  h ⊆ h' ∧ bisimulation slot_fields h' (via vis m') ∧
  one_to_one (via vis m') ∧ (∀ x x', via vis m' x x' → h !! x' = None).
Proof.
  intros [_ _ Hg Hn Hi].
  assert (h ⊆ h') as Hsub by (by apply ext_empty).
  split_and!; [done|..].
  - intros x x' [Hx Hx'].
    destruct (Hn x Hx) as (x1 & Hx1 & _ & o & o' & Ho & Ho' & Hc & Hs & _);
      [set_solver|].
    assert (x1 = x') as -> by congruence.
    exists o, o'. split_and!; [|done..].
    by eapply lookup_weaken.
  - split.
    + intros x x' y' [_ ?] [_ ?]. congruence.
    + intros x y x' [Hx ?] [Hy ?]. eapply Hi; eauto; set_solver.
  - intros x x' [Hx Hx'].
    destruct (Hn x Hx) as (x1 & Hx1 & ? & _); [set_solver|]. congruence.
Qed.

(** X8: Two values dumped one after the other with one [visited] set and
    loaded in the same order through the shared [mapping] come back as
    copies that share nodes with each other exactly as the originals did: a
    node of the second value that the first dump wrote in full is a [Ref] in
    the second dump and resolves to the copy the first load made. *)
Theorem to_dict_load_dict_shared (h : heap) (v1 v2 : value) :
  heap_ok h → value_ok h v1 → value_ok h v2 →
  ∃ fuel d1 visited1 d2 visited2,
    to_dict fuel h v1 ∅ = Some (d1, visited1) ∧
    to_dict fuel h v2 visited1 = Some (d2, visited2) ∧
    ∀ mapping, ∃ v1' mapping1 h1 v2' mapping2 h2,
      load_dict d1 (mapping, h) = Some (v1', (mapping1, h1)) ∧
      load_dict d2 (mapping1, h1) = Some (v2', (mapping2, h2)) ∧
      h ⊆ h2 ∧
      ∃ R, val_rel R v1 v1' ∧ val_rel R v2 v2' ∧
           bisimulation slot_fields h2 R ∧ one_to_one R ∧
           (∀ x x', R x x' → h !! x' = None).
Proof.
  intros Hh Hv1 Hv2.
  assert (∀ x o, h !! x = Some o → cls o ≠ AstNode) as Hcls.
  { intros x o Ho. by destruct (Hh x o Ho). }
  destruct (to_dict_returns h Hh (size (dom h)) v1 ∅)
    as (f1 & d1 & vis1 & Hd1 & _); [apply subseteq_size; set_solver|done|].
  destruct (to_dict_returns h Hh (size (dom h)) v2 vis1)
    as (f2 & d2 & vis2 & Hd2 & Hsub); [apply subseteq_size; set_solver|done|].
  exists (f1 `max` f2)%nat, d1, vis1, d2, vis2.
  split_and!; [by eapply to_dict_fuel_mono; [apply Nat.le_max_l|]
              |by eapply to_dict_fuel_mono; [apply Nat.le_max_r|]|].
  intros mapping.
  destruct (to_dict_loads h Hcls _ _ _ _ _ Hd1 mapping h)
    as (v1' & m1 & h1 & Hl1 & Hs1 & Hr1).
  { intros x []%not_elem_of_empty. }
  destruct (to_dict_loads h Hcls _ _ _ _ _ Hd2 m1 h1)
    as (v2' & m2 & h2 & Hl2 & Hs2 & Hr2).
  { eapply step_ok_cover; [|exact Hs1]. intros x []%not_elem_of_empty. }
  exists v1', m1, h1, v2', m2, h2. split_and!; [done..| |].
  - etrans; [apply ext_empty, Hs1|apply ext_empty, Hs2].
  - assert (step_ok h ∅ ∅ vis2 mapping m2 h h2) as Hs.
    { eapply step_ok_trans; [|exact Hs1|exact Hs2].
      intros y []%not_elem_of_empty. }
    apply step_ok_bisimulation in Hs as (_ & Hb & H11 & Hf).
    exists (via vis2 m2). split_and!; [|done..].
    eapply val_rel_mono; [apply Hs2|apply Hs2|done].
Qed.

Lemma to_dict_load_dict_shared_witness :
  ∃ fuel d1 visited1 d2 visited2,
    to_dict fuel ast_local_x (VObj 103) ∅ = Some (d1, visited1) ∧
    to_dict fuel ast_local_x (VObj 100) visited1 = Some (d2, visited2) ∧
    ∀ mapping, ∃ v1' mapping1 h1 v2' mapping2 h2,
      load_dict d1 (mapping, ast_local_x) = Some (v1', (mapping1, h1)) ∧
      load_dict d2 (mapping1, h1) = Some (v2', (mapping2, h2)) ∧
      ast_local_x ⊆ h2 ∧
      ∃ R, val_rel R (VObj 103) v1' ∧ val_rel R (VObj 100) v2' ∧
           bisimulation slot_fields h2 R ∧ one_to_one R ∧
           (∀ x x', R x x' → ast_local_x !! x' = None).
Proof.
  apply (to_dict_load_dict_shared ast_local_x (VObj 103) (VObj 100)).
  - by_compute.
  - vm_compute. exact I.
  - vm_compute. exact I.
Defined.

(** ** Dumping the copy *)

Lemma to_dict_slots_items rec o : ∀ names d vis,
  NoDup names → (∀ n, n ∈ names → n ∉ d.*1) →
  to_dict_slots rec o names d vis =
  '(ss, vis') ← to_dict_items rec (getattr o <$> names) vis;
  Some (d ++ zip names ss, vis').
Proof.
  induction names as [|n names IH]; intros d vis Hnd Hfresh.
  { rewrite to_dict_slots_nil, fmap_nil, to_dict_items_nil. simpl.
    by rewrite app_nil_r. }
  apply NoDup_cons in Hnd as [Hn Hnd].
  rewrite to_dict_slots_cons, fmap_cons, to_dict_items_cons.
  destruct (rec (getattr o n) vis) as [[s vis1]|]; [|done]. simpl.
  rewrite dict_set_fresh by (apply Hfresh; by left).
  rewrite IH; [|done|].
  - destruct (to_dict_items rec (getattr o <$> names) vis1) as [[ss vis2]|];
      [|done].
    simpl. by rewrite <- app_assoc.
  - intros n' Hn'. rewrite fmap_app. simpl.
    rewrite elem_of_app, list_elem_of_singleton.
    intros [?| ->]; [|done]. eapply Hfresh; [by right|done].
Qed.

Lemma to_dict_VObj fuel h x o vis :
  h !! x = Some o → x ∉ vis →
  to_dict (S fuel) h (VObj x) vis =
  '(ss, vis') ← to_dict_items (to_dict fuel h) (getattr o <$> slots (cls o))
                  ({[x]} ∪ vis);
  Some (DDict (("class", DAtom (AStr (class_name (cls o))))
               :: ("_id", DAtom (AInt x)) :: zip (slots (cls o)) ss), vis').
Proof.
  intros Ho Hx. rewrite to_dict_S, Ho. simpl. rewrite decide_False by done.
  rewrite to_dict_slots_items; [|apply slots_NoDup|].
  - by destruct (to_dict_items _ _ _) as [[ss vis1]|].
  - intros n Hn. apply slots_not_reserved in Hn as [??].
    simpl. rewrite !not_elem_of_cons.
    split_and!; [done|done|apply not_elem_of_nil].
Qed.

Lemma to_dict_heap_mono (h h' : heap) fuel :
  h ⊆ h' →
  ∀ v vis r, to_dict fuel h v vis = Some r → to_dict fuel h' v vis = Some r.
Proof.
  intros Hsub. induction fuel as [|fuel IH]; intros v vis r; [done|].
  rewrite !to_dict_S. destruct v as [a|l|x]; [done|..].
  - destruct (to_dict_items (to_dict fuel h) l vis) as [[ds vis1]|] eqn:Hl;
      [|done].
    by rewrite (to_dict_items_mono _ _ IH _ _ _ Hl).
  - destruct (h !! x) as [o|] eqn:Ho; [|done].
    rewrite (lookup_weaken _ _ _ _ Ho Hsub). simpl.
    destruct (decide (x ∈ vis)); [done|].
    destruct (to_dict_slots (to_dict fuel h) o (slots (cls o)) _ _)
      as [[d vis1]|] eqn:Hs; [|done].
    by rewrite (to_dict_slots_mono _ _ _ IH _ _ _ _ Hs).
Qed.

Lemma vis_rel_enter R x x' vis vis' :
  one_to_one R → R x x' → vis_rel R vis vis' →
  vis_rel R ({[x]} ∪ vis) ({[x']} ∪ vis').
Proof.
  intros [Hf Hi] Hx Hin y y' Hy.
  rewrite !elem_of_union, !elem_of_singleton, (Hin y y' Hy).
  split; (intros [->|?]; [left|by right]); eauto.
Qed.

Lemma zip_data_rel R (names : list string) : ∀ ss ss',
  Forall2 (data_rel R) ss ss' →
  Forall2 (λ kv kv', kv.1 = kv'.1 ∧ data_rel R kv.2 kv'.2)
          (zip names ss) (zip names ss').
Proof.
  induction names as [|n names IH]; intros ss ss' Hss; [constructor|].
  destruct Hss; simpl; constructor; auto.
Qed.

Section dump_mirror.
Context (g : heap) (R : Z → Z → Prop).
Context (Hbis : bisimulation slot_fields g R) (H11 : one_to_one R).

Lemma to_dict_items_mirror
    (rec rec' : value → gset Z → option (data * gset Z)) :
  (∀ v v' vis vis' d vis1,
     val_rel R v v' → vis_rel R vis vis' → rec v vis = Some (d, vis1) →
     ∃ d' vis1', rec' v' vis' = Some (d', vis1') ∧ data_rel R d d' ∧
                 vis_rel R vis1 vis1') →
  ∀ l l' vis vis' ds vis1,
    Forall2 (val_rel R) l l' → vis_rel R vis vis' →
    to_dict_items rec l vis = Some (ds, vis1) →
    ∃ ds' vis1', to_dict_items rec' l' vis' = Some (ds', vis1') ∧
                 Forall2 (data_rel R) ds ds' ∧ vis_rel R vis1 vis1'.
Proof.
  intros Hrec l l' vis vis' ds vis1 Hl. revert vis vis' ds vis1.
  induction Hl as [|v v' l l' Hv _ IH]; intros vis vis' ds vis1 Hvis.
  { rewrite !to_dict_items_nil. intros [= <- <-]. eauto. }
  rewrite !to_dict_items_cons.
  destruct (rec v vis) as [[d visa]|] eqn:H1; [|done]. simpl.
  destruct (to_dict_items rec l visa) as [[ds0 visb]|] eqn:H2; [|done].
  simpl. intros [= <- <-].
  destruct (Hrec _ _ _ _ _ _ Hv Hvis H1) as (d' & visa' & E1 & Hd & Hvisa).
  destruct (IH _ _ _ _ Hvisa H2) as (ds' & visb' & E2 & Hds & Hvisb).
  rewrite E1. simpl. rewrite E2. simpl.
  eexists _, _. split_and!; [done| |done]. by constructor.
Qed.

Lemma to_dict_mirror fuel : ∀ v v' vis vis' d vis1,
  val_rel R v v' → vis_rel R vis vis' →
  to_dict fuel g v vis = Some (d, vis1) →
  ∃ d' vis1', to_dict fuel g v' vis' = Some (d', vis1') ∧
              data_rel R d d' ∧ vis_rel R vis1 vis1'.
Proof.
  induction fuel as [|fuel IH]; intros v v' vis vis' d vis1 Hv Hvis; [done|].
  destruct Hv as [a|l l' Hl|x x' Hx].
  - intros [= <- <-]. eexists _, _. split_and!; [done|constructor|done].
  - rewrite !to_dict_S.
    destruct (to_dict_items _ l vis) as [[ds visa]|] eqn:H1; [|done].
    simpl. intros [= <- <-].
    destruct (to_dict_items_mirror _ _ IH _ _ _ _ _ _ Hl Hvis H1)
      as (ds' & visa' & E1 & Hds & Hvisa).
    rewrite E1. simpl. eexists _, _. split_and!; [done|by constructor|done].
  - destruct (Hbis x x' Hx) as (o & o' & Ho & Ho' & Hc & Hs).
    destruct (decide (x ∈ vis)) as [Hin|Hin].
    + rewrite !to_dict_S, Ho, Ho'. simpl.
      rewrite decide_True by done.
      rewrite decide_True by (by apply (Hvis x x' Hx)).
      intros [= <- <-]. eexists _, _.
      split_and!; [done|by constructor|done].
    + rewrite (to_dict_VObj _ _ _ _ _ Ho Hin).
      rewrite (to_dict_VObj _ _ _ _ _ Ho');
        [|by rewrite <- (Hvis x x' Hx)].
      destruct (to_dict_items _ (getattr o <$> _) _) as [[ss visa]|] eqn:H1;
        [|done].
      simpl. intros [= <- <-].
      destruct (to_dict_items_mirror _ _ IH
                  (getattr o <$> slots (cls o))
                  (getattr o' <$> slots (cls o))
                  ({[x]} ∪ vis) ({[x']} ∪ vis') ss visa)
        as (ss' & visa' & E1 & Hss & Hvisa);
        [|by apply vis_rel_enter|done|].
      { apply Forall2_fmap, Forall_Forall2_diag, Forall_forall.
        intros name Hname. by apply Hs. }
      rewrite Hc, E1. simpl. eexists _, _. split_and!; [done| |done].
      rewrite <- Hc. constructor; [done|]. by apply zip_data_rel.
Qed.
End dump_mirror.

(** X9: Dumping the copy that [load_dict] made gives the document that was
    loaded, up to the numbering of the nodes: the same classes, keys,
    scalars and lists in the same order, with a [Ref] wherever the first
    dump had one, and with the [id] of the copy of a node wherever the first
    dump had the [id] of that node. *)
Theorem dump_of_copy_is_alike (h : heap) (root : value) :
  heap_ok h → value_ok h root →
  ∃ fuel d visited,
    to_dict fuel h root ∅ = Some (d, visited) ∧
    ∀ mapping, ∃ root' mapping' h',
      load_dict d (mapping, h) = Some (root', (mapping', h')) ∧
      ∃ d' visited',
        to_dict fuel h' root' ∅ = Some (d', visited') ∧
        data_rel (via visited mapping') d d' ∧
        one_to_one (via visited mapping').
Proof.
  intros Hh Hroot.
  destruct (to_dict_load_dict h root Hh Hroot) as (fuel & d & visited & Hd & Hl).
  exists fuel, d, visited. split; [done|]. intros mapping.
  destruct (Hl mapping) as (root' & mapping' & h' & Hld & Hs & Hr).
  exists root', mapping', h'. split; [done|].
  apply step_ok_bisimulation in Hs as (Hsub & Hb & H11 & _).
  destruct (to_dict_mirror h' (via visited mapping') Hb H11 fuel
              root root' ∅ ∅ d visited Hr)
    as (d' & visited' & Hd' & Hrel & _).
  { intros x x' _. by rewrite !elem_of_empty. }
  { by eapply to_dict_heap_mono. }
  eauto.
Qed.

Lemma dump_of_copy_is_alike_witness :
  ∃ fuel d visited,
    to_dict fuel ast_cyclic_table (VObj 510) ∅ = Some (d, visited) ∧
    ∀ mapping, ∃ root' mapping' h',
      load_dict d (mapping, ast_cyclic_table)
      = Some (root', (mapping', h')) ∧
      ∃ d' visited',
        to_dict fuel h' root' ∅ = Some (d', visited') ∧
        data_rel (via visited mapping') d d' ∧
        one_to_one (via visited mapping').
Proof.
  apply (dump_of_copy_is_alike ast_cyclic_table (VObj 510)).
  - by_compute.
  - vm_compute. exact I.
Defined.

(** ** Traversing a loaded copy *)

(** Apart from the two [for] loops, [_accept] passes fields of [_slots]
    only. *)
Lemma accept_calls_in_slots c visit_hook calls leave_hook field :
  _accept c = Accept visit_hook calls leave_hook →
  c ≠ NumericFor → c ≠ IteratorFor →
  Visit field ∈ calls ∨ VisitList field ∈ calls →
  field ∈ slots c.
Proof.
  destruct c; simpl; intros [= <- <- <-] ??; try done;
    rewrite ?elem_of_cons, ?elem_of_nil;
    intros H; repeat (destruct H as [H|H]); try done;
    inversion H; subst; by_compute.
Qed.

Lemma getattr_obj o field y :
  getattr o field = VObj y → attrs o !! field = Some (VObj y).
Proof. unfold getattr. by destruct (attrs o !! field); intros; simplify_eq/=. Qed.

Lemma getattr_list o field l :
  getattr o field = VList l → attrs o !! field = Some (VList l).
Proof. unfold getattr. by destruct (attrs o !! field); intros; simplify_eq/=. Qed.

Lemma getattr_Some o field v : attrs o !! field = Some v → getattr o field = v.
Proof. unfold getattr. by intros ->. Qed.

Lemma tc_rel_switch R visitor st st' :
  tc_rel R st st' →
  tc_rel R (switch_visitor visitor st) (switch_visitor visitor st').
Proof.
  intros [Hcur Hin]. unfold switch_visitor. rewrite <- Hcur.
  destruct (cur_visitor st) as [cur|] eqn:Hc; [|by split].
  case_decide; [by split|]. split; [congruence|done].
Qed.

Lemma tc_rel_enter R x x' st st' :
  one_to_one R → R x x' → tc_rel R st st' →
  tc_rel R (TcState ({[x]} ∪ anti_loop st) (cur_visitor st))
           (TcState ({[x']} ∪ anti_loop st') (cur_visitor st')).
Proof.
  intros [Hf Hi] Hx [Hcur Hin]. split; [done|]. simpl. intros y y' Hy.
  rewrite !elem_of_union, !elem_of_singleton, (Hin y y' Hy).
  split; (intros [->|?]; [left|by right]); eauto.
Qed.

Lemma event_rel_wrap R vh lh x x' t t' :
  R x x' → Forall2 (event_rel R) t t' →
  Forall2 (event_rel R) (VisitNode vh x :: t ++ [LeaveNode lh x])
                        (VisitNode vh x' :: t' ++ [LeaveNode lh x']).
Proof.
  intros Hx Ht. constructor; [by constructor|].
  apply Forall2_app; [done|]. repeat constructor. done.
Qed.

Section mirror.
Context (g : heap) (R : Z → Z → Prop) (visitor : Z).
Context (Hbis : bisimulation slot_fields g R) (H11 : one_to_one R).
Context (Hfor : ∀ x x' o, R x x' → g !! x = Some o →
                          cls o ≠ NumericFor ∧ cls o ≠ IteratorFor).

Lemma visit_items_mirror visit visit' :
  mirrors R visit visit' →
  ∀ nodes nodes' st st' t st1,
    Forall2 (val_rel R) nodes nodes' → tc_rel R st st' →
    visit_items visit nodes st = Some (t, st1) →
    ∃ t' st1', visit_items visit' nodes' st' = Some (t', st1') ∧
               Forall2 (event_rel R) t t' ∧ tc_rel R st1 st1'.
Proof.
  intros Hv nodes nodes' st st' t st1 Hnodes. revert st st' t st1.
  induction Hnodes as [|node node' nodes nodes' Hn _ IH];
    intros st st' t st1 Hst.
  { rewrite !visit_items_nil. intros [= <- <-]. eauto. }
  rewrite !visit_items_cons.
  destruct (visit node st) as [[t1 sta]|] eqn:H1; [|done]. simpl.
  destruct (visit_items visit nodes sta) as [[t2 stb]|] eqn:H2; [|done].
  simpl. intros [= <- <-].
  destruct (Hv _ _ _ _ _ _ Hn Hst H1) as (t1' & sta' & E1 & Ht1 & Hsta).
  destruct (IH _ _ _ _ Hsta H2) as (t2' & stb' & E2 & Ht2 & Hstb).
  rewrite E1. simpl. rewrite E2. simpl.
  eexists _, _. split_and!; [done| |done]. by apply Forall2_app.
Qed.

Lemma run_calls_mirror visit visit' o o' :
  mirrors R visit visit' →
  (∀ node st r, visit node st = Some r → ∃ y, node = VObj y) →
  ∀ calls,
    (∀ field, Visit field ∈ calls ∨ VisitList field ∈ calls →
              val_rel R (getattr o field) (getattr o' field)) →
  ∀ st st' t st1,
    tc_rel R st st' →
    run_calls visit o calls st = Some (t, st1) →
    ∃ t' st1', run_calls visit' o' calls st' = Some (t', st1') ∧
               Forall2 (event_rel R) t t' ∧ tc_rel R st1 st1'.
Proof.
  intros Hv Hobj. induction calls as [|[field|field] calls IH];
    intros Hf st st' t st1 Hst.
  - rewrite !run_calls_nil. intros [= <- <-]. eauto.
  - rewrite !run_calls_Visit.
    destruct (attrs o !! field) as [node|] eqn:Hnode; [|done]. simpl.
    destruct (visit node st) as [[t1 sta]|] eqn:H1; [|done]. simpl.
    destruct (run_calls visit o calls sta) as [[t2 stb]|] eqn:H2; [|done].
    simpl. intros [= <- <-].
    destruct (Hobj _ _ _ H1) as [y ->].
    pose proof (Hf field (or_introl (list_elem_of_here _ _))) as Hr.
    rewrite (getattr_Some _ _ _ Hnode) in Hr.
    inversion Hr as [| |? y' Hy Heq1 Heq2]; subst.
    symmetry in Heq2. apply getattr_obj in Heq2. rewrite Heq2. simpl.
    destruct (Hv _ _ _ _ _ _ (val_rel_obj R _ _ Hy) Hst H1)
      as (t1' & sta' & E1 & Ht1 & Hsta).
    destruct (IH (λ f Hin, Hf f ltac:(destruct Hin; [left|right]; by right))
                _ _ _ _ Hsta H2) as (t2' & stb' & E2 & Ht2 & Hstb).
    rewrite E1. simpl. rewrite E2. simpl.
    eexists _, _. split_and!; [done| |done]. by apply Forall2_app.
  - rewrite !run_calls_VisitList.
    destruct (attrs o !! field) as [[|nodes|]|] eqn:Hnode; try done. simpl.
    destruct (visit_items visit nodes st) as [[t1 sta]|] eqn:H1; [|done].
    simpl.
    destruct (run_calls visit o calls sta) as [[t2 stb]|] eqn:H2; [|done].
    simpl. intros [= <- <-].
    pose proof (Hf field (or_intror (list_elem_of_here _ _))) as Hr.
    rewrite (getattr_Some _ _ _ Hnode) in Hr.
    inversion Hr as [|? nodes' Hn Heq1 Heq2|]; subst.
    symmetry in Heq2. apply getattr_list in Heq2. rewrite Heq2. simpl.
    destruct (visit_items_mirror _ _ Hv _ _ _ _ _ _ Hn Hst H1)
      as (t1' & sta' & E1 & Ht1 & Hsta).
    destruct (IH (λ f Hin, Hf f ltac:(destruct Hin; [left|right]; by right))
                _ _ _ _ Hsta H2) as (t2' & stb' & E2 & Ht2 & Hstb).
    rewrite E1. simpl. rewrite E2. simpl.
    eexists _, _. split_and!; [done| |done]. by apply Forall2_app.
Qed.

Lemma accept_node_mirror visit visit' x x' o o' st st' t st1 :
  mirrors R visit visit' →
  (∀ node st r, visit node st = Some r → ∃ y, node = VObj y) →
  R x x' → g !! x = Some o → g !! x' = Some o' → tc_rel R st st' →
  accept_node visit visitor x o st = Some (t, st1) →
  ∃ t' st1',
    accept_node visit' visitor x' o' st' = Some (t', st1') ∧
    Forall2 (event_rel R) t t' ∧ tc_rel R st1 st1'.
Proof.
  intros Hv Hobj Hx Ho Ho' Hst.
  destruct (Hbis x x' Hx) as (o0 & o0' & Ho0 & Ho0' & Hc & Hs).
  assert (o0 = o) as -> by congruence.
  assert (o0' = o') as -> by congruence.
  destruct (Hfor x x' o Hx Ho) as [Hnf Hif].
  unfold accept_node. rewrite Hc.
  destruct (_accept (cls o)) as [| |vh calls lh] eqn:Ha; [done| |].
  { intros [= <- <-]. eauto. }
  assert (∀ st st' t st1, tc_rel R st st' →
            ('(t0, s0) ← run_calls visit o calls st;
             Some (VisitNode vh x :: t0 ++ [LeaveNode lh x], s0))
            = Some (t, st1) →
            ∃ t' st1',
              ('(t0, s0) ← run_calls visit' o' calls st';
               Some (VisitNode vh x' :: t0 ++ [LeaveNode lh x'], s0))
              = Some (t', st1') ∧
              Forall2 (event_rel R) t t' ∧ tc_rel R st1 st1') as Hbody.
  { clear st st' t st1 Hst. intros st st' t st1 Hst.
    destruct (run_calls visit o calls st) as [[t1 sta]|] eqn:H1; [|done].
    simpl. intros [= <- <-].
    destruct (run_calls_mirror visit visit' o o' Hv Hobj calls)
      with (st := st) (st' := st') (t := t1) (st1 := sta)
      as (t1' & sta' & E1 & Ht1 & Hsta); [|done|done|].
    { intros field Hin. apply Hs. by eapply accept_calls_in_slots. }
    rewrite E1. simpl. eexists _, _. split_and!; [done| |done].
    by apply event_rel_wrap. }
  case_decide as Htc.
  - pose proof (tc_rel_switch R visitor _ _ Hst) as Hsw.
    destruct Hsw as [Hcur Hin].
    case_decide as Hx1.
    + intros [= <- <-]. eexists _, _.
      rewrite decide_True by (by apply (Hin x x' Hx)).
      split_and!; [done|constructor|by split].
    + intros Hb. rewrite decide_False by (by rewrite <- (Hin x x' Hx)).
      apply (Hbody _ _ _ _ (tc_rel_enter R x x' _ _ H11 Hx
                              (conj Hcur Hin)) Hb).
  - intros Hb. apply (Hbody _ _ _ _ Hst Hb).
Qed.

Lemma _visit_is_node fuel node st r :
  _visit fuel g visitor node st = Some r → ∃ y, node = VObj y.
Proof.
  destruct fuel; [done|]. rewrite _visit_S.
  destruct node; [done..|]. eauto.
Qed.

Lemma _visit_mirror fuel :
  mirrors R (_visit fuel g visitor) (_visit fuel g visitor).
Proof.
  induction fuel as [|fuel IH]; intros node node' st st' t st1 Hn Hst;
    [done|].
  rewrite !_visit_S. destruct Hn as [| |x x' Hx]; [done..|].
  destruct (g !! x) as [o|] eqn:Ho; [|done]. simpl. intros Ha.
  destruct (Hbis x x' Hx) as (o0 & o' & _ & Ho' & _).
  rewrite Ho'. simpl.
  by eapply (accept_node_mirror _ _ x x' o o' _ _ _ _ IH
               (_visit_is_node fuel) Hx Ho Ho' Hst Ha).
Qed.
End mirror.

Lemma _visit_heap_mono (h h' : heap) visitor fuel :
  h ⊆ h' →
  ∀ node st r, _visit fuel h visitor node st = Some r →
               _visit fuel h' visitor node st = Some r.
Proof.
  intros Hsub. induction fuel as [|fuel IH]; intros node st r; [done|].
  rewrite !_visit_S. destruct node as [| |x]; [done..|].
  destruct (h !! x) as [self|] eqn:Hx; [|done]. simpl.
  rewrite (lookup_weaken _ _ _ _ Hx Hsub). simpl.
  by apply accept_node_mono.
Qed.

(** X10: A traversal of the copy that [load_dict] makes of an AST without
    [for] loops goes as the traversal of the original does: whenever the one
    returns, so does the other, with the same handlers called in the same
    order on the copies of the same nodes, from class states that are alike
    to class states that are alike. (The fields a [for] loop passes to the
    visitor are not in its [_slots].) *)
Theorem loaded_copy_is_traversed_alike (h : heap) (root : value)
    (visitor : Z) :
  heap_ok h → value_ok h root →
  (∀ x o, h !! x = Some o → cls o ≠ NumericFor ∧ cls o ≠ IteratorFor) →
  ∃ fuel d visited,
    to_dict fuel h root ∅ = Some (d, visited) ∧
    ∀ mapping, ∃ root' mapping' h',
      load_dict d (mapping, h) = Some (root', (mapping', h')) ∧
      ∀ fuel' st st' t st1,
        tc_rel (via visited mapping') st st' →
        _visit fuel' h visitor root st = Some (t, st1) →
        ∃ t' st1',
          _visit fuel' h' visitor root' st' = Some (t', st1') ∧
          Forall2 (event_rel (via visited mapping')) t t' ∧
          tc_rel (via visited mapping') st1 st1'.
Proof.
  intros Hh Hroot Hfor.
  destruct (to_dict_load_dict h root Hh Hroot) as (fuel & d & visited & Hd & Hl).
  exists fuel, d, visited. split; [done|]. intros mapping.
  destruct (Hl mapping) as (root' & mapping' & h' & Hld & Hs & Hr).
  exists root', mapping', h'. split; [done|].
  pose proof Hs as [_ _ _ Hn _].
  apply step_ok_bisimulation in Hs as (Hsub & Hb & H11 & _).
  assert (∀ x x' o, via visited mapping' x x' → h' !! x = Some o →
                    cls o ≠ NumericFor ∧ cls o ≠ IteratorFor) as Hfor'.
  { intros x x' o [Hx _] Ho.
    destruct (Hn x Hx) as (_ & _ & _ & o0 & _ & Ho0 & _); [set_solver|].
    rewrite (lookup_weaken _ _ _ _ Ho0 Hsub) in Ho. injection Ho as <-.
    by apply (Hfor x o0). }
  intros fuel' st st' t st1 Hst Hv.
  apply (_visit_mirror h' (via visited mapping') visitor Hb H11 Hfor' fuel'
           root root' st st' t st1 Hr Hst).
  by eapply _visit_heap_mono.
Qed.

Lemma ast_cyclic_table_ok : heap_ok ast_cyclic_table.
Proof. by_compute. Qed.

Lemma loaded_copy_is_traversed_alike_witness :
  ∃ fuel d visited,
    to_dict fuel ast_cyclic_table (VObj 510) ∅ = Some (d, visited) ∧
    ∀ mapping, ∃ root' mapping' h',
      load_dict d (mapping, ast_cyclic_table)
      = Some (root', (mapping', h')) ∧
      ∀ fuel' st st' t st1,
        tc_rel (via visited mapping') st st' →
        _visit fuel' ast_cyclic_table 0 (VObj 510) st = Some (t, st1) →
        ∃ t' st1',
          _visit fuel' h' 0 root' st' = Some (t', st1') ∧
          Forall2 (event_rel (via visited mapping')) t t' ∧
          tc_rel (via visited mapping') st1 st1'.
Proof.
  apply (loaded_copy_is_traversed_alike ast_cyclic_table (VObj 510) 0).
  - by_compute.
  - vm_compute. exact I.
  - apply map_Forall_lookup. by_compute.
Defined.

(** ** Operators outside the table *)

Lemma precedence_of_int self type :
  attrs self !! "type" = Some (VAtom (AInt type)) →
  BinaryOperator_precedence self =
  if type <=? T_LOGICAL_OR then Ok PR_OR
  else if type <=? T_LOGICAL_AND then Ok PR_AND
  else if type <=? T_EQUAL then Ok PR_COMPARISON
  else if type <=? T_CONCAT then Ok PR_CONCATENATE
  else if type <=? T_SUBTRACT then Ok PR_MATH_ADDSUB
  else if type <=? T_MOD then Ok PR_MATH
  else if type <=? T_POW then Ok PR_EXPONENT
  else Raise ValueError.
Proof. intros Ht. unfold BinaryOperator_precedence, int_attr. by rewrite Ht. Qed.

Ltac by_ranges :=
  unfold T_LOGICAL_OR, T_LOGICAL_AND, T_GREATER_OR_EQUAL, T_EQUAL, T_CONCAT,
    T_ADD, T_SUBTRACT, T_MULTIPLY, T_MOD, T_POW, PR_OR, PR_AND,
    PR_COMPARISON, PR_CONCATENATE, PR_MATH_ADDSUB, PR_MATH, PR_UNARY,
    PR_EXPONENT in *;
  repeat match goal with
         | |- context [?a <=? ?b] => destruct (Z.leb_spec a b)
         | H : context [?a <=? ?b] |- _ => destruct (Z.leb_spec a b)
         | |- context [?a =? ?b] => destruct (Z.eqb_spec a b)
         | H : context [?a =? ?b] |- _ => destruct (Z.eqb_spec a b)
         end;
  repeat split; intros; simplify_eq; try lia.

(** X11: [precedence()] accepts every integer code up to [T_POW], operator
    or not, and raises [ValueError] above; the level never decreases as the
    code grows and is never the level of the unary operators. *)
Theorem BinaryOperator_precedence_monotone (self1 self2 : object)
    (type1 type2 : Z) :
  attrs self1 !! "type" = Some (VAtom (AInt type1)) →
  attrs self2 !! "type" = Some (VAtom (AInt type2)) →
  type1 ≤ type2 →
  (T_POW < type2 ↔ BinaryOperator_precedence self2 = Raise ValueError) ∧
  (type2 ≤ T_POW →
   ∃ level1 level2,
     BinaryOperator_precedence self1 = Ok level1 ∧
     BinaryOperator_precedence self2 = Ok level2 ∧
     PR_OR ≤ level1 ≤ level2 ∧ level2 ≤ PR_EXPONENT ∧
     level1 ≠ PR_UNARY ∧ level2 ≠ PR_UNARY).
Proof.
  intros H1 H2 Hle.
  rewrite (precedence_of_int _ _ H1), (precedence_of_int _ _ H2).
  split.
  - by_ranges.
  - intros Hpow. by_ranges; eexists _, _; by_ranges.
Qed.

Lemma BinaryOperator_precedence_monotone_witness :
  (T_POW < 70 ↔
   BinaryOperator_precedence
     (node BinaryOperator [("type", VAtom (AInt 70))]) = Raise ValueError) ∧
  (70 ≤ T_POW →
   ∃ level1 level2,
     BinaryOperator_precedence
       (node BinaryOperator [("type", VAtom (AInt (-1)))]) = Ok level1 ∧
     BinaryOperator_precedence
       (node BinaryOperator [("type", VAtom (AInt 70))]) = Ok level2 ∧
     PR_OR ≤ level1 ≤ level2 ∧ level2 ≤ PR_EXPONENT ∧
     level1 ≠ PR_UNARY ∧ level2 ≠ PR_UNARY).
Proof.
  apply (BinaryOperator_precedence_monotone
           (node BinaryOperator [("type", VAtom (AInt (-1)))])
           (node BinaryOperator [("type", VAtom (AInt 70))]) (-1) 70).
  - vm_compute. reflexivity.
  - vm_compute. reflexivity.
  - lia.
Defined.

(** X12: [is_commutative()] returns for exactly the codes [precedence()]
    returns for and raises [AssertionError] where that raises [ValueError];
    [is_right_associative()] returns for every code, and no code is both
    commutative and right-associative. *)
Theorem is_commutative_domain (self : object) (type : Z) :
  attrs self !! "type" = Some (VAtom (AInt type)) →
  (is_commutative self = Raise AssertionError ↔
   BinaryOperator_precedence self = Raise ValueError) ∧
  (type ≤ T_POW → ∃ b p, is_commutative self = Ok b ∧
                         BinaryOperator_precedence self = Ok p) ∧
  (∃ r, is_right_associative self = Ok r ∧
        (r = true → is_commutative self = Ok false ∧
                    BinaryOperator_precedence self = Ok PR_EXPONENT)).
Proof.
  intros Ht. rewrite (precedence_of_int _ _ Ht).
  unfold is_commutative, is_right_associative, int_attr, eq_int.
  rewrite Ht. split_and!.
  - by_ranges.
  - intros Hpow. by_ranges; eexists _, _; by_ranges.
  - by_ranges; eexists; by_ranges.
Qed.

Lemma is_commutative_domain_witness :
  (is_commutative (node BinaryOperator [("type", VAtom (AInt 70))])
   = Raise AssertionError ↔
   BinaryOperator_precedence (node BinaryOperator [("type", VAtom (AInt 70))])
   = Raise ValueError) ∧
  (70 ≤ T_POW →
   ∃ b p,
     is_commutative (node BinaryOperator [("type", VAtom (AInt 70))]) = Ok b ∧
     BinaryOperator_precedence
       (node BinaryOperator [("type", VAtom (AInt 70))]) = Ok p) ∧
  (∃ r, is_right_associative
          (node BinaryOperator [("type", VAtom (AInt 70))]) = Ok r ∧
        (r = true →
         is_commutative (node BinaryOperator [("type", VAtom (AInt 70))])
         = Ok false ∧
         BinaryOperator_precedence
           (node BinaryOperator [("type", VAtom (AInt 70))])
         = Ok PR_EXPONENT)).
Proof.
  apply (is_commutative_domain
           (node BinaryOperator [("type", VAtom (AInt 70))]) 70).
  vm_compute. reflexivity.
Defined.

(** ** [Primitive.__str__] *)

(** X13: [str()] of a [Primitive] indexes the list of the three names with
    the [type] field: the codes 0, 1 and 2 give [nil], [True] and [False];
    the codes -3 to -1 count from the end, so a [Primitive] whose [type] was
    never set (the constructor's -1) prints as [False]; every other code is
    an [IndexError]. *)
Theorem Primitive_str_by_index :
  (∀ self type,
     attrs self !! "type" = Some (VAtom (AInt type)) →
     Primitive___str__ self =
     if bool_decide (-3 ≤ type ≤ 2) then
       match type `mod` 3 with
       | 0 => Ok "nil"
       | 1 => Ok "True"
       | _ => Ok "False"
       end
     else Raise IndexError) ∧
  (∀ h x h' self,
     construct Primitive h = (x, h') → h' !! x = Some self →
     Primitive___str__ self = Ok "False").
Proof.
  split.
  - intros self type Ht. unfold Primitive___str__, list_getitem.
    rewrite Ht. simpl. case_bool_decide as Hr.
    + assert (type = -3 ∨ type = -2 ∨ type = -1 ∨ type = 0 ∨ type = 1
              ∨ type = 2) as Hc by lia.
      destruct Hc as [->|[->|[->|[->|[->| ->]]]]]; reflexivity.
    + change (Z.of_nat 3) with 3.
      destruct (Z.ltb_spec type 0).
      * destruct (Z.ltb_spec (type + 3) 0); [done|]. lia.
      * destruct (Z.ltb_spec type 0); [lia|]. simpl.
        destruct (Z.leb_spec 3 type); [done|]. lia.
  - intros h x h' self Hc Hx.
    apply construct_spec in Hc as (_ & _ & A & HA & Hat & _).
    rewrite Hx in HA. injection HA as ->.
    unfold Primitive___str__. simpl.
    rewrite (Hat "type" (AInt (-1))); [done|simpl; set_solver].
Qed.

Lemma Primitive_str_by_index_witness :
  Primitive___str__ (node Primitive [("type", VAtom (AInt (-1)))])
  = Ok "False" ∧
  Primitive___str__ (node Primitive [("type", VAtom (AInt 3))])
  = Raise IndexError.
Proof.
  split.
  - apply (proj1 Primitive_str_by_index
             (node Primitive [("type", VAtom (AInt (-1)))]) (-1) eq_refl).
  - apply (proj1 Primitive_str_by_index
             (node Primitive [("type", VAtom (AInt 3))]) 3 eq_refl).
Defined.

(** ** Handler calls are well nested *)

Lemma accept_hooks_match c visit_hook calls leave_hook :
  _accept c = Accept visit_hook calls leave_hook →
  leave_hook = leave_of visit_hook.
Proof. destruct c; simpl; intros [= <- <- <-]; reflexivity. Qed.

Lemma nests_nil : nests [].
Proof. by intros stack rest. Qed.

Lemma nests_app t1 t2 : nests t1 → nests t2 → nests (t1 ++ t2).
Proof.
  intros H1 H2 stack rest. by rewrite <- app_assoc, H1, H2.
Qed.

Lemma nests_wrap visit_hook leave_hook x t :
  leave_hook = leave_of visit_hook → nests t →
  nests (VisitNode visit_hook x :: t ++ [LeaveNode leave_hook x]).
Proof.
  intros -> Ht stack rest. simpl. rewrite <- app_assoc, Ht. simpl.
  by rewrite bool_decide_true.
Qed.

Lemma visit_items_nests (visit : value → tc_state → visit_result) :
  (∀ node st t st', visit node st = Some (t, st') → nests t) →
  ∀ nodes st t st', visit_items visit nodes st = Some (t, st') → nests t.
Proof.
  intros Hv. induction nodes as [|node nodes IH]; intros st t st'.
  - rewrite visit_items_nil. intros [= <- <-]. apply nests_nil.
  - rewrite visit_items_cons.
    destruct (visit node st) as [[t1 st1]|] eqn:H1; [|done]. simpl.
    destruct (visit_items visit nodes st1) as [[t2 st2]|] eqn:H2; [|done].
    simpl. intros [= <- <-]. apply nests_app; eauto.
Qed.

Lemma run_calls_nests (visit : value → tc_state → visit_result) self :
  (∀ node st t st', visit node st = Some (t, st') → nests t) →
  ∀ calls st t st', run_calls visit self calls st = Some (t, st') → nests t.
Proof.
  intros Hv. induction calls as [|[field|field] calls IH]; intros st t st'.
  - rewrite run_calls_nil. intros [= <- <-]. apply nests_nil.
  - rewrite run_calls_Visit.
    destruct (attrs self !! field) as [node|]; [|done]. simpl.
    destruct (visit node st) as [[t1 st1]|] eqn:H1; [|done]. simpl.
    destruct (run_calls visit self calls st1) as [[t2 st2]|] eqn:H2;
      [|done].
    simpl. intros [= <- <-]. apply nests_app; eauto.
  - rewrite run_calls_VisitList.
    destruct (attrs self !! field) as [[|nodes|]|]; try done. simpl.
    destruct (visit_items visit nodes st) as [[t1 st1]|] eqn:H1; [|done].
    simpl.
    destruct (run_calls visit self calls st1) as [[t2 st2]|] eqn:H2;
      [|done].
    simpl. intros [= <- <-].
    apply nests_app; eauto using visit_items_nests.
Qed.

Lemma accept_node_nests (visit : value → tc_state → visit_result)
    visitor x self st t st' :
  (∀ node st t st', visit node st = Some (t, st') → nests t) →
  accept_node visit visitor x self st = Some (t, st') → nests t.
Proof.
  intros Hv. unfold accept_node.
  destruct (_accept (cls self)) as [| |vh calls lh] eqn:Ha; [done| |].
  { intros [= <- <-]. apply nests_nil. }
  assert (∀ st, ('(t0, s0) ← run_calls visit self calls st;
                 Some (VisitNode vh x :: t0 ++ [LeaveNode lh x], s0))
                = Some (t, st') → nests t) as Hbody.
  { intros st0.
    destruct (run_calls visit self calls st0) as [[t1 st1]|] eqn:H1; [|done].
    simpl. intros [= <- <-].
    apply nests_wrap; [by eapply accept_hooks_match|].
    by eapply run_calls_nests. }
  case_decide; [case_decide|]; eauto.
  intros [= <- <-]. apply nests_nil.
Qed.

Lemma _visit_nests fuel h visitor : ∀ node st t st',
  _visit fuel h visitor node st = Some (t, st') → nests t.
Proof.
  induction fuel as [|fuel IH]; intros node st t st'; [done|].
  rewrite _visit_S. destruct node as [| |x]; [done..|].
  destruct (h !! x) as [self|]; [|done]. simpl.
  by apply accept_node_nests.
Qed.

(** X14: The handler calls of a traversal are well nested: every [_accept]
    puts what the visits of the fields yield between the call of its
    entering handler and the call of the leaving handler of the same name on
    the same node, whatever the visitor does on a visit, provided its visits
    are well nested in turn; a whole traversal is. *)
Theorem traversal_is_well_nested :
  (∀ (visit : value → tc_state → visit_result) visitor x self st t st',
     (∀ node st t st', visit node st = Some (t, st') → nests t) →
     accept_node visit visitor x self st = Some (t, st') →
     nests t) ∧
  (∀ fuel h visitor node st t st',
     _visit fuel h visitor node st = Some (t, st') →
     well_nested [] t = true).
Proof.
  split.
  - intros *. apply accept_node_nests.
  - intros fuel h visitor node st t st' Hv.
    apply _visit_nests in Hv. specialize (Hv [] []).
    by rewrite app_nil_r in Hv.
Qed.

Lemma traversal_is_well_nested_witness :
  well_nested []
    [VisitNode "visit_block" 400; VisitNode "visit_conditional_warp" 401;
     VisitNode "visit_identifier" 402; LeaveNode "leave_identifier" 402;
     LeaveNode "leave_conditional_warp" 401; LeaveNode "leave_block" 400]
  = true.
Proof.
  apply (proj2 traversal_is_well_nested 3%nat ast_branch 0 (VObj 400)
           (TcState ∅ None) _ (TcState ∅ None)).
  vm_compute. reflexivity.
Defined.

(** ** A visitor that traverses twice *)

(** X15: [anti_loop] outlives a traversal: while no other visitor traverses
    a table constructor in between, a visitor never again enters a table
    constructor it has entered, be it in the same AST or in another. A
    second visit of such a table constructor calls no handler and visits
    none of its records. A visitor that finds another one current empties
    the set and enters the table constructor, whether it was in the set or
    not. *)
Theorem same_visitor_skips_entered_tables (h1 h2 : heap) (visitor : Z)
    (fuel1 fuel2 : nat) (v1 v2 : value) (st st1 st2 : tc_state)
    (t1 t2 : list event) :
  _visit fuel1 h1 visitor v1 st = Some (t1, st1) →
  _visit fuel2 h2 visitor v2 st1 = Some (t2, st2) →
  (∀ x, x ∈ entered t1 → x ∉ entered t2) ∧
  (∀ x self fuel, x ∈ entered t1 → h2 !! x = Some self →
                  cls self = TableConstructor →
                  _visit (S fuel) h2 visitor (VObj x) st1 = Some ([], st1)) ∧
  (∀ (visit : value → tc_state → visit_result) other x self A,
     other ≠ visitor → cls self = TableConstructor →
     accept_node visit other x self (TcState A (Some visitor)) =
     (array ← attrs self !! "array";
      '(ta, sta) ← visit array (TcState {[x]} (Some other));
      records ← attrs self !! "records";
      '(tb, stb) ← visit records sta;
      Some (VisitNode "visit_table_constructor" x :: ta ++ tb
              ++ [LeaveNode "leave_table_constructor" x], stb))).
Proof.
  intros H1 H2. apply _visit_step in H1. apply _visit_step in H2.
  assert (∀ (visit : value → tc_state → visit_result) other x self A,
     other ≠ visitor → cls self = TableConstructor →
     accept_node visit other x self (TcState A (Some visitor)) =
     (array ← attrs self !! "array";
      '(ta, sta) ← visit array (TcState {[x]} (Some other));
      records ← attrs self !! "records";
      '(tb, stb) ← visit records sta;
      Some (VisitNode "visit_table_constructor" x :: ta ++ tb
              ++ [LeaveNode "leave_table_constructor" x], stb))) as Hother.
  { intros visit other x self A Hne Hc. unfold accept_node. rewrite Hc.
    simpl. unfold switch_visitor. simpl.
    destruct (decide (visitor ≠ other)) as [_|Hv];
      [|by destruct Hv; intros <-].
    simpl. rewrite decide_False by apply not_elem_of_empty.
    rewrite union_empty_r_L, run_calls_Visit.
    destruct (attrs self !! "array") as [a|]; [|done]. simpl.
    destruct (visit a _) as [[ta sta]|]; [|done]. simpl.
    rewrite run_calls_Visit.
    destruct (attrs self !! "records") as [r|]; [|done]. simpl.
    destruct (visit r sta) as [[tb stb]|]; [|done]. simpl.
    by rewrite run_calls_nil; simpl; rewrite app_nil_r, app_assoc. }
  destruct H1 as [[-> Ht1]|(-> & Hnd1 & Hnew1)].
  { rewrite Ht1.
    split_and!; [intros x []%elem_of_nil|intros x ?? []%elem_of_nil|done]. }
  split_and!; [| |done].
  - intros x Hx1 Hx2.
    destruct H2 as [[_ Ht2]|(_ & _ & Hnew2)].
    { rewrite Ht2 in Hx2. by apply elem_of_nil in Hx2. }
    apply (Hnew2 x Hx2). rewrite switch_visitor_same. simpl.
    apply elem_of_union_r. by apply elem_of_list_to_set.
  - intros x self fuel Hx Hself Hc. rewrite _visit_S, Hself. simpl.
    unfold accept_node. rewrite Hc. simpl.
    rewrite switch_visitor_same. simpl.
    rewrite decide_True; [done|].
    apply elem_of_union_r. by apply elem_of_list_to_set.
Qed.

Lemma same_visitor_skips_entered_tables_witness :
  _visit 10 ast_cyclic_table 0 (VObj 510) (TcState ∅ None)
  = Some visit_cyclic_table ∧
  510 ∈ entered visit_cyclic_table.1 ∧
  _visit 10 ast_cyclic_table 0 (VObj 510) visit_cyclic_table.2
  = Some ([], visit_cyclic_table.2).
Proof.
  split_and!; [vm_compute; reflexivity|by_compute|].
  refine (proj1 (proj2 (same_visitor_skips_entered_tables
                   ast_cyclic_table ast_cyclic_table 0 10 10
                   (VObj 510) (VObj 510) (TcState ∅ None)
                   visit_cyclic_table.2 visit_cyclic_table.2
                   visit_cyclic_table.1 [] _ _)) 510 _ 9%nat _ _ _).
  - vm_compute. reflexivity.
  - vm_compute. reflexivity.
  - by_compute.
  - vm_compute. reflexivity.
  - reflexivity.
Defined.

(** ** [set_luajit_version] *)

(** X16: Whatever the first call did, a second call of [set_luajit_version]
    with the same version returns at once: the version is recorded before it
    is checked, so a call that raised (an unknown version, or imports and
    [init] calls that failed) is not repeated. *)
Theorem set_luajit_version_not_repeated (init : Z → bool) (bc_version : Z)
    (CURRENT_VERSION : option Z) :
  (set_luajit_version init bc_version CURRENT_VERSION).1 = Some bc_version ∧
  set_luajit_version init bc_version
    (set_luajit_version init bc_version CURRENT_VERSION).1
  = (Some bc_version, false) ∧
  (bc_version ≠ 20 → bc_version ≠ 21 →
   CURRENT_VERSION ≠ Some bc_version →
   (set_luajit_version init bc_version CURRENT_VERSION).2 = true).
Proof.
  assert ((set_luajit_version init bc_version CURRENT_VERSION).1
          = Some bc_version) as H1.
  { unfold set_luajit_version. case_decide; [done|]. by case_decide. }
  split_and!; [done| |].
  - rewrite H1. unfold set_luajit_version. by rewrite decide_True.
  - intros H20 H21 Hcur. unfold set_luajit_version.
    rewrite decide_False by done. rewrite decide_False; [done|]. tauto.
Qed.

Lemma set_luajit_version_not_repeated_witness :
  (set_luajit_version (λ _, true) 19 (Some 21)).2 = true ∧
  set_luajit_version (λ _, true) 19
    (set_luajit_version (λ _, true) 19 (Some 21)).1 = (Some 19, false).
Proof.
  split.
  - apply (proj2 (proj2 (set_luajit_version_not_repeated
                           (λ _, true) 19 (Some 21)))); [lia|lia|by_compute].
  - apply (proj1 (proj2 (set_luajit_version_not_repeated
                           (λ _, true) 19 (Some 21)))).
Defined.

(** ** [process_folder]: every file is accounted for *)

Lemma successes_failures_length fs :
  (length (successes fs) + length (failures fs))%nat = length fs.
Proof.
  induction fs as [|f fs IH]; [done|].
  rewrite successes_cons, failures_cons.
  destruct (outcome_of f); simpl; lia.
Qed.

Lemma submitted_length env in_dir out_dir update_outputname :
  length (submitted env in_dir out_dir update_outputname) =
  sum_list_with (λ d, length d.2) (os_walk env in_dir).
Proof.
  unfold submitted. induction (os_walk env in_dir) as [|[root names] walk IH];
    [done|].
  rewrite bind_cons, length_app, IH. simpl. f_equal.
  unfold submit_files. by rewrite length_fmap.
Qed.

Lemma successes_failures_paths fs :
  successes fs ++ (failures fs).*1 ≡ₚ path <$> fs.
Proof.
  induction fs as [|f fs IH]; [done|].
  rewrite successes_cons, failures_cons.
  destruct (outcome_of f); simpl.
  - by rewrite IH.
  - by rewrite <- Permutation_middle, IH.
Qed.

Lemma submitted_paths env in_dir out_dir update_outputname :
  path <$> submitted env in_dir out_dir update_outputname =
  '(root, names) ← os_walk env in_dir;
  joinpath env (relative_to env root in_dir) <$> names.
Proof.
  unfold submitted. induction (os_walk env in_dir) as [|[root names] walk IH];
    [done|].
  rewrite !bind_cons, fmap_app, IH. f_equal.
  unfold submit_files. rewrite <- list_fmap_compose. done.
Qed.

(** X17: Whenever [process_folder] returns, every file that [os.walk] listed
    was counted once: its path relative to the input directory is among the
    paths returned or in a [FAILED] record, the summary logged last gives
    the numbers of the two, and they add up to the number of files. Every
    failure it caught was an [Exception]. *)
Theorem process_folder_counts_every_file (env : environment)
    (in_dir out_dir : string) (update_outputname : option (string → string))
    (success : list string) (log : list log_record) :
  process_folder env in_dir out_dir update_outputname = (inr success, log) →
  ∃ failed,
    log = (Debug_SUCCESS <$> success)
          ++ ((λ '(path, e), Info_FAILED path e) <$> failed)
          ++ [Warning_summary (length success) (length failed)] ∧
    success ++ failed.*1 ≡ₚ
      ('(root, names) ← os_walk env in_dir;
       joinpath env (relative_to env root in_dir) <$> names) ∧
    (length success + length failed)%nat
    = sum_list_with (λ d, length d.2) (os_walk env in_dir) ∧
    Forall (λ pe, is_Exception pe.2 = true) failed.
Proof.
  unfold process_folder.
  destruct (submit_all _ _ _ _ _ _) as [e|fs] eqn:Hs; [done|].
  apply submit_all_inr in Hs. simpl in Hs.
  fold (submitted env in_dir out_dir update_outputname) in Hs. subst fs.
  destruct (collect _ _ _ _) as [[e l]|[[failed success'] l]] eqn:Hc; [done|].
  apply collect_inr in Hc as (-> & -> & -> & Hfs). simpl.
  intros [= <- <-].
  exists (failures (submitted env in_dir out_dir update_outputname)).
  split_and!; [done| | |].
  - by rewrite successes_failures_paths, submitted_paths.
  - by rewrite successes_failures_length, submitted_length.
  - apply Forall_forall. intros [p e] Hin. simpl.
    unfold failures in Hin. apply list_elem_of_omap in Hin as (f & Hf & Ho).
    destruct (outcome_of f) as [|e'] eqn:Hout; [done|]. injection Ho as <- <-.
    rewrite Forall_forall in Hfs. by eapply Hfs.
Qed.

Lemma process_folder_counts_every_file_witness :
  ∃ failed,
    [Debug_SUCCESS "a.luac"; Debug_SUCCESS "c.luac";
     Info_FAILED "b.luac" (Exc "AssertionError()" true);
     Warning_summary 2 1]
    = (Debug_SUCCESS <$> ["a.luac"; "c.luac"])
      ++ ((λ '(path, e), Info_FAILED path e) <$> failed)
      ++ [Warning_summary (length ["a.luac"; "c.luac"]) (length failed)] ∧
    ["a.luac"; "c.luac"] ++ failed.*1 ≡ₚ
      ('(root, names) ← os_walk env_sample "in";
       joinpath env_sample (relative_to env_sample root "in") <$> names) ∧
    (length ["a.luac"; "c.luac"] + length failed)%nat
    = sum_list_with (λ d, length d.2) (os_walk env_sample "in") ∧
    Forall (λ pe, is_Exception pe.2 = true) failed.
Proof.
  apply (process_folder_counts_every_file env_sample "in" "out" None).
  reflexivity.
Defined.

(** ** [process_folder]: exceptions it does not catch *)

Lemma collect_inl fs1 f fs2 e failed success log :
  Forall (λ f, ∀ e, outcome_of f = Raised e → is_Exception e = true) fs1 →
  outcome_of f = Raised e → is_Exception e = false →
  collect (fs1 ++ f :: fs2) failed success log
  = inl (e, log ++ (Debug_SUCCESS <$> successes fs1)).
Proof.
  intros Hfs Ho He. revert failed success log.
  induction Hfs as [|f1 fs1 Hf1 _ IH]; intros failed success log; simpl.
  { rewrite Ho, He. by rewrite app_nil_r. }
  rewrite successes_cons. destruct (outcome_of f1) as [|e1] eqn:Ho1.
  - rewrite IH. simpl. by rewrite <- app_assoc.
  - rewrite (Hf1 e1 eq_refl). by rewrite IH.
Qed.

(** X18: An exception that is no [Exception] (a keyboard interrupt during
    [f.result()], say) is not caught: it leaves [process_folder] at the
    first file that raises one. The results of the files after it are not
    collected, and neither the failures caught before it nor the summary are
    logged. *)
Theorem process_folder_propagates_other_exceptions (env : environment)
    (in_dir out_dir : string) (update_outputname : option (string → string))
    (fs1 : list future) (f : future) (fs2 : list future) (e : exc) :
  Forall (λ d, mkdir env (joinpath env out_dir (relative_to env d.1 in_dir))
               = None) (os_walk env in_dir) →
  submitted env in_dir out_dir update_outputname = fs1 ++ f :: fs2 →
  Forall (λ f, ∀ e, outcome_of f = Raised e → is_Exception e = true) fs1 →
  outcome_of f = Raised e → is_Exception e = false →
  process_folder env in_dir out_dir update_outputname
  = (inl e, Debug_SUCCESS <$> successes fs1).
Proof.
  intros Hmk Hfs Hfs1 Ho He. unfold process_folder.
  rewrite submit_all_spec by done. simpl.
  fold (submitted env in_dir out_dir update_outputname). rewrite Hfs.
  by rewrite (collect_inl fs1 f fs2 e).
Qed.

Lemma process_folder_propagates_other_exceptions_witness :
  process_folder env_interrupted "in" "out" None
  = (inl (Exc "KeyboardInterrupt()" false), []).
Proof.
  apply (process_folder_propagates_other_exceptions env_interrupted
           "in" "out" None
           [Future "a.luac" (Raised (Exc "AssertionError()" true))]
           (Future "b.luac" (Raised (Exc "KeyboardInterrupt()" false)))
           [Future "c.luac" Returned]).
  - repeat constructor.
  - reflexivity.
  - repeat constructor. by intros e [= <-].
  - reflexivity.
  - reflexivity.
Defined.
